(** * Ganache core: the Filecoin chain simulator and the snapshot/revert contract

    Part I embeds [src/chains/filecoin/src/blockchain.ts] (class [Blockchain]):
    the record of its fields, its constructor, the asynchronous start-up it
    schedules, [waitForReady], [stop], [mineTipset] and [startDeal].
    Part II models the checkpoint system (snapshot / revert) that the test
    file of the repository exercises through [evm_snapshot] / [evm_revert].
    Part III holds the lemmas and theorems. *)

From Stdlib Require Import ZArith Lia.
From stdpp Require Import base option list gmap.

Set Default Proof Using "Type".
Local Open Scope Z_scope.

(** ** Outcomes of a JavaScript call

    A call returns, throws, or (in this model) runs out of the fuel that
    bounds its loops. *)

Inductive JsError : Type :=
  | TypeError
  | RangeError
  | SequenceError.

Inductive outcome (A : Type) : Type :=
  | Returned (a : A)
  | Thrown (e : JsError)
  | OutOfFuel.

Arguments Returned {A} a.
Arguments Thrown {A} e.
Arguments OutOfFuel {A}.

#[global] Instance outcome_ret : MRet outcome := fun A a => Returned a.

#[global] Instance outcome_bind : MBind outcome := fun A B k m =>
  match m with
  | Returned a => k a
  | Thrown e => Thrown e
  | OutOfFuel => OutOfFuel
  end.

(** * Part I: the Filecoin [Blockchain] class *)

(** ** The collaborators under [./things] and [./dealstates]

    [blockchain.ts] imports [Deal], [DealState] and [Tipset]; what it uses of
    them is gathered in an interface: the enum with its two members named in
    the file, [Deal.advanceState(fullyAdvance)] as a function of the flag and
    the current state, and the [cids] a [Tipset] ends up with when its
    constructor receives only [blocks] and [height]. *)

Abbreviation CID := N (only parsing).

Record RootCID : Type := mkRootCID { root : CID }.

Inductive Miner : Type := mkMiner.
Inductive Address : Type := mkAddress.
Inductive Balance : Type := mkBalance.

#[global] Instance RootCID_eq_dec : EqDecision RootCID.
Proof. solve_decision. Defined.
#[global] Instance Miner_eq_dec : EqDecision Miner.
Proof. solve_decision. Defined.

(** [new Block({ miner, parents })]; [parents[k]] is [None] where the source
    stores [undefined] (the first CID of a tipset without CIDs). *)
Record Block : Type := mkBlock {
  miner_of : option Miner;
  parents : list (option RootCID)
}.

Record Tipset : Type := mkTipset {
  cids : list RootCID;
  blocks : list Block;
  height : Z
}.

Class Things : Type := {
  DealState : Type;
  DealState_eq_dec :: EqDecision DealState;
  Active : DealState;
  Validating : DealState;
  (* deal.advanceState(fullyAdvance): the state after the call *)
  advanceState : bool -> DealState -> DealState;
  (* the cids of [new Tipset({ blocks, height })] *)
  tipsetCids : list Block -> list RootCID;
  (* the values drawn by [new CID()] / [new RootCID()], in drawing order *)
  randomCid : nat -> CID
}.

Record StorageProposal : Type := mkStorageProposal {
  epochPrice : Z;
  minBlocksDuration : Z
}.

Record Deal `{Things} : Type := mkDeal {
  proposalCid : RootCID;
  state : DealState;
  message : list Byte.byte;
  provider : Miner;
  pieceCid : RootCID;
  size : Z;
  pricePerEpoch : Z;
  duration : Z;
  dealId : Z
}.

Arguments mkDeal {_} _ _ _ _ _ _ _ _ _.

(** A [Deal] is a mutable object held by reference in [deals], [dealsByCid]
    and [inProcessDeals] at once: the objects live in a heap and the three
    containers hold addresses. *)
Abbreviation DealRef := nat (only parsing).

Record BlockchainOptions : Type := mkOptions {
  opt_automining : option bool;
  opt_blockTime : option Z;
  opt_ipfsPort : option Z
}.

Inductive BlockchainEvent `{Things} : Type :=
  | EvReady
  | EvDealStateChanged (deal : DealRef) (seen : option DealState).

Arguments EvReady {_}.
Arguments EvDealStateChanged {_} deal seen.

(** The sidecar, as far as [blockchain.ts] drives it. *)
Inductive ServerStatus : Type :=
  | ServerStarting
  | ServerRunning
  | ServerStopping.

Record IPFSServer : Type := mkIPFSServer {
  port : Z;
  status : ServerStatus
}.

(** Progress of the callback handed to [setTimeout] in the constructor. *)
Inductive StartupPhase : Type :=
  | StartupScheduled      (* the callback has not run yet *)
  | StartupAwaiting       (* suspended at [await this.ipfsServer.start()] *)
  | StartupDone           (* ran to its end *)
  | StartupFailed.        (* [start()] rejected; the rest never runs *)

#[global] Instance StartupPhase_eq_dec : EqDecision StartupPhase.
Proof. solve_decision. Defined.

Record Blockchain `{Things} : Type := mkBlockchain {
  tipsets : list Tipset;
  miner : Miner;
  address : Address;
  balance : Balance;
  deals : list DealRef;
  dealsByCid : gmap CID DealRef;
  inProcessDeals : list DealRef;
  automining : bool;
  blockTime : Z;
  ipfsPort : Z;
  ipfsServer : option IPFSServer;      (* [None]: still undefined *)
  miningTimeout : option Z;            (* the handle; records the delay argument *)
  ready : bool;
  (* the runtime around the object *)
  heap : list Deal;                    (* the Deal objects, by address *)
  emitted : list BlockchainEvent;      (* calls of [emit], oldest first *)
  readyListeners : list nat;           (* [on("ready", resolve)] of caller k *)
  resolved : list nat;                 (* callers whose promise resolved *)
  intervalArmed : bool;                (* the interval timer is scheduled *)
  startup : StartupPhase;
  drawn : nat                          (* CIDs drawn so far *)
}.

Arguments mkBlockchain {_} _ _ _ _ _ _ _ _ _ _ _ _ _ _ _ _ _ _ _ _.

(** Field assignment [this.f = v], one function per assigned field. *)

Section Assign.
Context `{Things}.

Definition set_tipsets (v : list Tipset) (b : Blockchain) : Blockchain :=
  mkBlockchain v (miner b) (address b) (balance b) (deals b) (dealsByCid b)
    (inProcessDeals b) (automining b) (blockTime b) (ipfsPort b) (ipfsServer b)
    (miningTimeout b) (ready b) (heap b) (emitted b) (readyListeners b)
    (resolved b) (intervalArmed b) (startup b) (drawn b).

Definition set_deals (v : list DealRef) (b : Blockchain) : Blockchain :=
  mkBlockchain (tipsets b) (miner b) (address b) (balance b) v (dealsByCid b)
    (inProcessDeals b) (automining b) (blockTime b) (ipfsPort b) (ipfsServer b)
    (miningTimeout b) (ready b) (heap b) (emitted b) (readyListeners b)
    (resolved b) (intervalArmed b) (startup b) (drawn b).

Definition set_dealsByCid (v : gmap CID DealRef) (b : Blockchain) : Blockchain :=
  mkBlockchain (tipsets b) (miner b) (address b) (balance b) (deals b) v
    (inProcessDeals b) (automining b) (blockTime b) (ipfsPort b) (ipfsServer b)
    (miningTimeout b) (ready b) (heap b) (emitted b) (readyListeners b)
    (resolved b) (intervalArmed b) (startup b) (drawn b).

Definition set_inProcessDeals (v : list DealRef) (b : Blockchain) : Blockchain :=
  mkBlockchain (tipsets b) (miner b) (address b) (balance b) (deals b)
    (dealsByCid b) v (automining b) (blockTime b) (ipfsPort b) (ipfsServer b)
    (miningTimeout b) (ready b) (heap b) (emitted b) (readyListeners b)
    (resolved b) (intervalArmed b) (startup b) (drawn b).

Definition set_ipfsServer (v : option IPFSServer) (b : Blockchain) : Blockchain :=
  mkBlockchain (tipsets b) (miner b) (address b) (balance b) (deals b)
    (dealsByCid b) (inProcessDeals b) (automining b) (blockTime b) (ipfsPort b)
    v (miningTimeout b) (ready b) (heap b) (emitted b) (readyListeners b)
    (resolved b) (intervalArmed b) (startup b) (drawn b).

Definition set_miningTimeout (v : option Z) (b : Blockchain) : Blockchain :=
  mkBlockchain (tipsets b) (miner b) (address b) (balance b) (deals b)
    (dealsByCid b) (inProcessDeals b) (automining b) (blockTime b) (ipfsPort b)
    (ipfsServer b) v (ready b) (heap b) (emitted b) (readyListeners b) (resolved
    b) (intervalArmed b) (startup b) (drawn b).

Definition set_ready (v : bool) (b : Blockchain) : Blockchain :=
  mkBlockchain (tipsets b) (miner b) (address b) (balance b) (deals b)
    (dealsByCid b) (inProcessDeals b) (automining b) (blockTime b) (ipfsPort b)
    (ipfsServer b) (miningTimeout b) v (heap b) (emitted b) (readyListeners b)
    (resolved b) (intervalArmed b) (startup b) (drawn b).

Definition set_heap (v : list Deal) (b : Blockchain) : Blockchain :=
  mkBlockchain (tipsets b) (miner b) (address b) (balance b) (deals b)
    (dealsByCid b) (inProcessDeals b) (automining b) (blockTime b) (ipfsPort b)
    (ipfsServer b) (miningTimeout b) (ready b) v (emitted b) (readyListeners b)
    (resolved b) (intervalArmed b) (startup b) (drawn b).

Definition set_emitted (v : list BlockchainEvent) (b : Blockchain) : Blockchain :=
  mkBlockchain (tipsets b) (miner b) (address b) (balance b) (deals b)
    (dealsByCid b) (inProcessDeals b) (automining b) (blockTime b) (ipfsPort b)
    (ipfsServer b) (miningTimeout b) (ready b) (heap b) v (readyListeners b)
    (resolved b) (intervalArmed b) (startup b) (drawn b).

Definition set_readyListeners (v : list nat) (b : Blockchain) : Blockchain :=
  mkBlockchain (tipsets b) (miner b) (address b) (balance b) (deals b)
    (dealsByCid b) (inProcessDeals b) (automining b) (blockTime b) (ipfsPort b)
    (ipfsServer b) (miningTimeout b) (ready b) (heap b) (emitted b) v (resolved
    b) (intervalArmed b) (startup b) (drawn b).

Definition set_resolved (v : list nat) (b : Blockchain) : Blockchain :=
  mkBlockchain (tipsets b) (miner b) (address b) (balance b) (deals b)
    (dealsByCid b) (inProcessDeals b) (automining b) (blockTime b) (ipfsPort b)
    (ipfsServer b) (miningTimeout b) (ready b) (heap b) (emitted b)
    (readyListeners b) v (intervalArmed b) (startup b) (drawn b).

Definition set_intervalArmed (v : bool) (b : Blockchain) : Blockchain :=
  mkBlockchain (tipsets b) (miner b) (address b) (balance b) (deals b)
    (dealsByCid b) (inProcessDeals b) (automining b) (blockTime b) (ipfsPort b)
    (ipfsServer b) (miningTimeout b) (ready b) (heap b) (emitted b)
    (readyListeners b) (resolved b) v (startup b) (drawn b).

Definition set_startup (v : StartupPhase) (b : Blockchain) : Blockchain :=
  mkBlockchain (tipsets b) (miner b) (address b) (balance b) (deals b)
    (dealsByCid b) (inProcessDeals b) (automining b) (blockTime b) (ipfsPort b)
    (ipfsServer b) (miningTimeout b) (ready b) (heap b) (emitted b)
    (readyListeners b) (resolved b) (intervalArmed b) v (drawn b).

Definition set_drawn (v : nat) (b : Blockchain) : Blockchain :=
  mkBlockchain (tipsets b) (miner b) (address b) (balance b) (deals b)
    (dealsByCid b) (inProcessDeals b) (automining b) (blockTime b) (ipfsPort b)
    (ipfsServer b) (miningTimeout b) (ready b) (heap b) (emitted b)
    (readyListeners b) (resolved b) (intervalArmed b) (startup b) v.

End Assign.

(** ** The methods of [Blockchain] *)

Section Methods.
Context `{Things}.

Definition with_state (s : DealState) (d : Deal) : Deal :=
  mkDeal (proposalCid d) s (message d) (provider d) (pieceCid d) (size d)
    (pricePerEpoch d) (duration d) (dealId d).

(** [deal.state], read through the reference. *)
Definition stateOf (b : Blockchain) (d : DealRef) : option DealState :=
  state <$> heap b !! d.

(** [Array.prototype.indexOf]: the first position holding the reference. *)
Fixpoint indexOf (d : DealRef) (l : list DealRef) : option nat :=
  match l with
  | [] => None
  | x :: l' => if decide (x = d) then Some 0%nat else S <$> indexOf d l'
  end.

(** [arr.splice(arr.indexOf(d), 1)]; [splice(-1, 1)] drops the last element. *)
Definition spliceIndexOf (d : DealRef) (l : list DealRef) : list DealRef :=
  match indexOf d l with
  | Some j => delete j l
  | None => delete (length l - 1)%nat l
  end.

(** The constructor, up to the call of [setTimeout]; its callback is
    [startupBegin] followed, once [start()] resolves, by [startupFinish]. *)
Definition constructor (options : BlockchainOptions) : Blockchain :=
  let automining0 := default true (opt_automining options) in
  let blockTime0 := default 0 (opt_blockTime options) in
  let ipfsPort0 := default 5001 (opt_ipfsPort options) in
  {| tipsets := [ {| cids := [mkRootCID (randomCid 0%nat)];
                     blocks := [ {| miner_of := None; parents := [] |} ];
                     height := 0 |} ];
     miner := mkMiner;
     address := mkAddress;
     balance := mkBalance;
     deals := [];
     dealsByCid := ∅;
     inProcessDeals := [];
     automining := if bool_decide (blockTime0 > 0) then false else automining0;
     blockTime := blockTime0;
     ipfsPort := ipfsPort0;
     ipfsServer := None;
     miningTimeout := None;
     ready := false;
     heap := [];
     emitted := [];
     readyListeners := [];
     resolved := [];
     intervalArmed := false;
     startup := StartupScheduled;
     drawn := 1%nat |}.

Definition genesisTipset (b : Blockchain) : option Tipset :=
  tipsets b !! 0%nat.

(** [this.tipsets[this.tipsets.length - 1]]: [None] is [undefined], which is
    what index [-1] of an empty array reads. *)
Definition latestTipset (b : Blockchain) : option Tipset :=
  match tipsets b with
  | [] => None
  | _ => tipsets b !! (length (tipsets b) - 1)%nat
  end.

(** The first loop of [mineTipset]: [count] pushes onto [newBlocks]. *)
Fixpoint pushNewBlocks (count : nat) (m : Miner) (previousTipset : Tipset)
    (newBlocks : list Block) : list Block :=
  match count with
  | O => newBlocks
  | S count' =>
      pushNewBlocks count' m previousTipset
        (newBlocks ++ [ {| miner_of := Some m;
                           parents := [cids previousTipset !! 0%nat] |} ])
  end.

(** The second loop, [for (const deal of this.inProcessDeals)]: the array
    iterator holds an index, reads the live array at each step and stops when
    the index reaches the current length. *)
Fixpoint advanceDeals (fuel : nat) (i : nat) (b : Blockchain)
    : outcome Blockchain :=
  match fuel with
  | O => OutOfFuel
  | S fuel' =>
      match inProcessDeals b !! i with
      | None => Returned b
      | Some deal =>
          let b1 :=
            set_heap (alter (fun d => with_state
                                        (advanceState (automining b) (state d)) d)
                            deal (heap b)) b in
          let b2 :=
            set_emitted (emitted b1 ++ [EvDealStateChanged deal (stateOf b1 deal)])
              b1 in
          let b3 :=
            if bool_decide (stateOf b2 deal = Some Active)
            then set_inProcessDeals (spliceIndexOf deal (inProcessDeals b2)) b2
            else b2 in
          advanceDeals fuel' (S i) b3
      end
  end.

Definition mineTipset (numNewBlocks : Z) (b : Blockchain) : outcome Blockchain :=
  match latestTipset b with
  | None => Thrown TypeError
  | Some previousTipset =>
      let newBlocks :=
        pushNewBlocks (Z.to_nat numNewBlocks) (miner b) previousTipset [] in
      let newTipset :=
        {| cids := tipsetCids newBlocks;
           blocks := newBlocks;
           height := height previousTipset + 1 |} in
      let b1 := set_tipsets (tipsets b ++ [newTipset]) b in
      advanceDeals (S (length (inProcessDeals b1))) 0 b1
  end.

(** [this.mineTipset()] without [await]: a rejection of the returned promise
    is not seen by the caller and leaves the object as it was. *)
Definition mineTipsetDetached (b : Blockchain) : outcome Blockchain :=
  match mineTipset 1 b with
  | Returned b' => Returned b'
  | Thrown _ => Returned b
  | OutOfFuel => OutOfFuel
  end.

(** [while (deal.state != DealState.Active) { this.mineTipset(); }] *)
Fixpoint mineUntilActive (fuel : nat) (deal : DealRef) (b : Blockchain)
    : outcome Blockchain :=
  if bool_decide (stateOf b deal = Some Active) then Returned b
  else
    match fuel with
    | O => OutOfFuel
    | S fuel' => b' ← mineTipsetDetached b; mineUntilActive fuel' deal b'
    end.

Definition startDeal (fuel : nat) (proposal : StorageProposal) (b : Blockchain)
    : outcome (Blockchain * RootCID) :=
  let proposalCid0 := randomCid (drawn b) in
  let deal :=
    {| proposalCid := mkRootCID proposalCid0;
       state := Validating;
       message := [];
       provider := miner b;
       pieceCid := mkRootCID (randomCid (S (drawn b)));
       size := 2032;
       pricePerEpoch := epochPrice proposal;
       duration := minBlocksDuration proposal;
       dealId := Z.of_nat (length (deals b)) + 1 |} in
  let ref := length (heap b) in
  let b1 := set_drawn (S (S (drawn b))) (set_heap (heap b ++ [deal]) b) in
  let b2 := set_dealsByCid (<[proposalCid0 := ref]> (dealsByCid b1)) b1 in
  let b3 := set_deals (deals b2 ++ [ref]) b2 in
  let b4 := set_inProcessDeals (inProcessDeals b3 ++ [ref]) b3 in
  b5 ← (if automining b4 then mineUntilActive fuel ref b4 else Returned b4);
  mret (b5, mkRootCID proposalCid0).

(** The callback of [setTimeout], first half: create the server and call
    [start()]; the callback then waits for the promise. *)
Definition startupBegin (b : Blockchain) : Blockchain :=
  set_startup StartupAwaiting
    (set_ipfsServer (Some {| port := ipfsPort b; status := ServerStarting |}) b).

Definition serverRunning (o : option IPFSServer) : option IPFSServer :=
  (fun s => {| port := port s; status := ServerRunning |}) <$> o.

(** Second half, run when [start()] has resolved. [setInterval] is called
    with [this.blockTime] as its delay argument, which the handle records;
    the period the runtime derives from that argument is not modelled.
    [emit("ready")] calls the listeners registered so far; each resolves its
    caller's promise. *)
Definition startupFinish (b : Blockchain) : Blockchain :=
  let b0 := set_ipfsServer (serverRunning (ipfsServer b)) b in
  let b1 :=
    if negb (automining b0) && negb (bool_decide (blockTime b0 = 0))
    then set_intervalArmed true (set_miningTimeout (Some (blockTime b0)) b0)
    else b0 in
  let b2 := set_ready true b1 in
  let b3 := set_emitted (emitted b2 ++ [EvReady]) b2 in
  set_startup StartupDone (set_resolved (resolved b3 ++ readyListeners b3) b3).

(** [waitForReady()] called by caller [k]. *)
Definition waitForReady (k : nat) (b : Blockchain) : Blockchain :=
  if ready b then set_resolved (resolved b ++ [k]) b
  else set_readyListeners (readyListeners b ++ [k]) b.

(** [clearInterval(this.miningTimeout)]: nothing happens for [undefined]. *)
Definition clearMiningTimeout (b : Blockchain) : Blockchain :=
  match miningTimeout b with
  | Some _ => set_intervalArmed false b
  | None => b
  end.

(** [stop()]: reading [.stop] of an undefined [ipfsServer] throws. *)
Definition stop (b : Blockchain) : outcome Blockchain :=
  let b1 := clearMiningTimeout b in
  match ipfsServer b1 with
  | None => Thrown TypeError
  | Some s =>
      Returned (set_ipfsServer (Some {| port := port s; status := ServerStopping |}) b1)
  end.

End Methods.

(** ** The object over time

    What can happen to a [Blockchain] after its construction: the runtime
    fires the start-up callback, the sidecar's [start()] settles, the interval
    timer ticks, or a caller invokes a method. A call that throws leaves the
    assignments made before the throw. *)

Inductive Action : Type :=
  | TimeoutFires
  | StartResolves
  | StartRejects
  | IntervalFires
  | CallWaitForReady (k : nat)
  | CallStop
  | CallMineTipset (numNewBlocks : Z)
  | CallStartDeal (fuel : nat) (proposal : StorageProposal).

Section Run.
Context `{Things}.

Definition run (a : Action) (b : Blockchain) : option Blockchain :=
  match a with
  | TimeoutFires =>
      if decide (startup b = StartupScheduled) then Some (startupBegin b) else None
  | StartResolves =>
      if decide (startup b = StartupAwaiting) then Some (startupFinish b) else None
  | StartRejects =>
      if decide (startup b = StartupAwaiting)
      then Some (set_startup StartupFailed b) else None
  | IntervalFires =>
      if intervalArmed b
      then match mineTipsetDetached b with
           | Returned b' => Some b'
           | _ => None
           end
      else None
  | CallWaitForReady k => Some (waitForReady k b)
  | CallStop =>
      match stop b with
      | Returned b' => Some b'
      | _ => Some (clearMiningTimeout b)
      end
  | CallMineTipset n =>
      match mineTipset n b with
      | Returned b' => Some b'
      | Thrown _ => Some b
      | OutOfFuel => None
      end
  | CallStartDeal fuel proposal =>
      match startDeal fuel proposal b with
      | Returned (b', _) => Some b'
      | _ => None
      end
  end.

Fixpoint runAll (l : list Action) (b : Blockchain) : option Blockchain :=
  match l with
  | [] => Some b
  | a :: l' => b' ← run a b; runAll l' b'
  end.

Inductive reachable : Blockchain -> Prop :=
  | reachable_new (options : BlockchainOptions) :
      reachable (constructor options)
  | reachable_run (a : Action) (b b' : Blockchain) :
      reachable b -> run a b = Some b' -> reachable b'.

(** The ["ready"] events among those emitted, counted. *)
Definition isReady (e : BlockchainEvent) : bool :=
  match e with
  | EvReady => true
  | EvDealStateChanged _ _ => false
  end.

Definition readyCount (b : Blockchain) : nat :=
  length (filter (fun e => isReady e = true) (emitted b)).

(** The events [dealStateChanged] published for the deal at [d]. *)
Definition changesOf (d : DealRef) (l : list BlockchainEvent)
    : list (option DealState) :=
  omap (fun e => match e with
                 | EvDealStateChanged d' s => if decide (d' = d) then Some s else None
                 | EvReady => None
                 end) l.

(** [n] applications of [advanceState flag] starting from [s]. *)
Fixpoint advanceTimes (flag : bool) (n : nat) (s : DealState) : DealState :=
  match n with
  | O => s
  | S n' => advanceTimes flag n' (advanceState flag s)
  end.

(** [s] is exactly [n] steps away from [Active]. *)
Definition stepsToActive (flag : bool) (n : nat) (s : DealState) : Prop :=
  advanceTimes flag n s = Active /\
  forall k : nat, (k < n)%nat -> advanceTimes flag k s <> Active.

End Run.

(** ** Notions used to state the properties of the class *)

Section Notions.
Context `{Things}.

(** What the loop over [inProcessDeals] leaves alone. *)
Definition sameObject (b b' : Blockchain) : Prop :=
  tipsets b' = tipsets b /\ deals b' = deals b /\ dealsByCid b' = dealsByCid b /\
  automining b' = automining b /\ blockTime b' = blockTime b /\
  ipfsPort b' = ipfsPort b /\ ipfsServer b' = ipfsServer b /\
  miningTimeout b' = miningTimeout b /\ ready b' = ready b /\
  readyListeners b' = readyListeners b /\ resolved b' = resolved b /\
  intervalArmed b' = intervalArmed b /\ startup b' = startup b /\
  drawn b' = drawn b /\ length (heap b') = length (heap b).

(** One turn of the loop, as a function. *)
Definition visit (deal : DealRef) (b : Blockchain) : Blockchain :=
  let b1 :=
    set_heap (alter (fun d => with_state (advanceState (automining b) (state d)) d)
                    deal (heap b)) b in
  let b2 :=
    set_emitted (emitted b1 ++ [EvDealStateChanged deal (stateOf b1 deal)]) b1 in
  if bool_decide (stateOf b2 deal = Some Active)
  then set_inProcessDeals (spliceIndexOf deal (inProcessDeals b2)) b2
  else b2.

(** The tipset [mineTipset(numNewBlocks)] builds on top of [T]. *)
Definition minedTipset (numNewBlocks : Z) (m : Miner) (T : Tipset) : Tipset :=
  let newBlocks := pushNewBlocks (Z.to_nat numNewBlocks) m T [] in
  {| cids := tipsetCids newBlocks; blocks := newBlocks; height := height T + 1 |}.

(** [startDeal] up to its loop: the deal is created and registered. *)
Definition registerDeal (proposal : StorageProposal) (b : Blockchain) : Blockchain :=
  let deal :=
    {| proposalCid := mkRootCID (randomCid (drawn b));
       state := Validating;
       message := [];
       provider := miner b;
       pieceCid := mkRootCID (randomCid (S (drawn b)));
       size := 2032;
       pricePerEpoch := epochPrice proposal;
       duration := minBlocksDuration proposal;
       dealId := Z.of_nat (length (deals b)) + 1 |} in
  let ref := length (heap b) in
  let b1 := set_drawn (S (S (drawn b))) (set_heap (heap b ++ [deal]) b) in
  let b2 := set_dealsByCid (<[randomCid (drawn b) := ref]> (dealsByCid b1)) b1 in
  let b3 := set_deals (deals b2 ++ [ref]) b2 in
  set_inProcessDeals (inProcessDeals b3 ++ [ref]) b3.

Definition chainInv (b : Blockchain) : Prop :=
  tipsets b <> [] /\
  forall (i : nat) (t : Tipset), tipsets b !! i = Some t -> height t = Z.of_nat i.

Definition dealEvent (d : DealRef) (e : BlockchainEvent) : Prop :=
  exists s, e = EvDealStateChanged d s.

(** While the deal of a running [startDeal] is the only one in process, it
    leaves the array in the very call that makes it [Active]. *)
Definition aloneUntilActive (d : DealRef) (b : Blockchain) : Prop :=
  (inProcessDeals b = [d] /\ stateOf b d <> Some Active) \/ inProcessDeals b = [].

(** The fields that only the start-up and [waitForReady]/[stop] assign. *)
Definition sameLifeCycle (b b' : Blockchain) : Prop :=
  ready b' = ready b /\ startup b' = startup b /\ ipfsServer b' = ipfsServer b /\
  miningTimeout b' = miningTimeout b /\ intervalArmed b' = intervalArmed b /\
  resolved b' = resolved b /\ readyListeners b' = readyListeners b /\
  automining b' = automining b /\ blockTime b' = blockTime b /\
  readyCount b' = readyCount b.

Definition lifeInv (b : Blockchain) : Prop :=
  (ready b = true <-> startup b = StartupDone) /\
  readyCount b = (if ready b then 1 else 0)%nat /\
  (startup b = StartupScheduled <-> ipfsServer b = None) /\
  (ready b = true -> automining b = false -> blockTime b <> 0 ->
     miningTimeout b = Some (blockTime b)) /\
  (ready b = false ->
     resolved b = [] /\ miningTimeout b = None /\ intervalArmed b = false) /\
  (ready b = true -> forall k, k ∈ readyListeners b -> k ∈ resolved b).

End Notions.

(** ** The deal life cycle of the specification

    An instance of [Things] for the concrete runs: [./dealstates] and
    [./things/deal] are not part of the sources at hand. *)

Module SpecDeal.

(** Modelled from the spec: the enum [DealState] of [./dealstates] is missing;
    the life cycle is Proposed -> Validating -> Staged -> Active, with Failed
    absorbing. *)
Inductive State : Type :=
  | Proposed
  | Validating
  | Staged
  | Active
  | Failed.

#[global] Instance State_eq_dec : EqDecision State.
Proof. solve_decision. Defined.

(** Modelled from the spec: [Deal.advanceState] of [./things/deal] is missing;
    a pending entity advances by exactly one step per block, whatever the
    flag. *)
Definition advanceState (fullyAdvance : bool) (s : State) : State :=
  match s with
  | Proposed => Validating
  | Validating => Staged
  | Staged => Active
  | Active => Active
  | Failed => Failed
  end.

(** Modelled from the spec: the constructor of [Tipset] is missing; a block
    has a content identifier for itself, here its position. *)
Definition tipsetCids (blocks : list Block) : list RootCID :=
  imap (fun i _ => mkRootCID (N.of_nat i)) blocks.

Definition things : Things :=
  Build_Things State _ Active Validating advanceState tipsetCids N.of_nat.

End SpecDeal.

(** * Part II: checkpoints over chain state and storage cache

    The storage cache, the chain state and the snapshot manager behind
    [evm_snapshot] / [evm_revert] are not among the sources; only their test
    file is. The definitions below follow the contracts of the
    specification (sections 4.1 to 4.3 and 4.5), with the provider in the
    automine mode the test file runs it in: every accepted operation is
    executed at once and committed in a block of its own. *)

Module Ledger.

(** Modelled from the spec: the execution engine is an external collaborator,
    [execute(operation, currentStateHandle) -> (result, storageWrites)]: it
    maps an operation and the storage contents it runs against to a result and
    a list of storage writes. *)
Record Execution : Type := mkExecution {
  ok : bool;
  returnData : Z;
  storageWrites : list ((Z * Z) * Z)
}.

Class Engine : Type := {
  Payload : Type;
  execute : Payload -> gmap (Z * Z) Z -> Execution
}.

(** ** StorageCache: a memory tier in front of the durable store *)

(** Modelled from the spec: the storage cache is missing; a memory tier in
    front of the durable key-value store, keyed by (account or object, key). *)
Record StorageCache : Type := mkCache {
  durable : gmap (Z * Z) Z;
  memory : gmap (Z * Z) Z
}.

(** Modelled from the spec: what a reader of the missing cache sees; the
    memory tier shadows the durable store. *)
Definition contents (c : StorageCache) : gmap (Z * Z) Z :=
  memory c ∪ durable c.

(** Modelled from the spec: [read(key) -> value-or-absent] of the missing
    cache; a miss in the memory tier fetches from the durable store and keeps
    the value in memory. *)
Definition read (k : Z * Z) (c : StorageCache) : option Z * StorageCache :=
  match memory c !! k with
  | Some v => (Some v, c)
  | None =>
      match durable c !! k with
      | Some v => (Some v, {| durable := durable c; memory := <[k := v]> (memory c) |})
      | None => (None, c)
      end
  end.

(** Modelled from the spec: [write(key, value)] of the missing cache, into the
    memory tier. *)
Definition write (k : Z * Z) (v : Z) (c : StorageCache) : StorageCache :=
  {| durable := durable c; memory := <[k := v]> (memory c) |}.

(** Modelled from the spec: eviction in the missing cache, independent of the
    ledger: the entry is written back, then dropped from memory. *)
Definition evict (k : Z * Z) (c : StorageCache) : StorageCache :=
  match memory c !! k with
  | Some v => {| durable := <[k := v]> (durable c); memory := delete k (memory c) |}
  | None => c
  end.

(** Modelled from the spec: [commit() -> stateRootHandle] of the missing
    cache; the memory tier is flushed and the state root summarises the
    contents. *)
Definition commit (c : StorageCache) : gmap (Z * Z) Z * StorageCache :=
  (contents c, {| durable := contents c; memory := memory c |}).

(** Modelled from the spec: [snapshotHandle()] of the missing cache, enough to
    restore its exact contents. *)
Definition snapshotHandle (c : StorageCache) : gmap (Z * Z) Z := contents c.

(** Modelled from the spec: [restore(capture)] of the missing cache; the
    durable store is put back and the memory tier is invalidated as a whole,
    not rolled back. *)
Definition restore (capture : gmap (Z * Z) Z) (c : StorageCache) : StorageCache :=
  {| durable := capture; memory := ∅ |}.

Definition writeAll (ws : list ((Z * Z) * Z)) (c : StorageCache) : StorageCache :=
  foldl (fun c' w => write w.1 w.2 c') c ws.

(** ** ChainState *)

(** Modelled from the spec: the receipt of the missing chain state:
    originating block, success or failure, return data, storage writes. *)
Record Receipt : Type := mkReceipt {
  blockRef : nat;
  success : bool;
  returned : Z;
  writes : list ((Z * Z) * Z)
}.

(** Modelled from the spec: the block of the missing chain state: height,
    parents, its own reference (here its height, the chain being linear),
    state root and accepted operations. *)
Record LBlock : Type := mkLBlock {
  lheight : nat;
  lparents : list nat;
  self : nat;
  stateRoot : gmap (Z * Z) Z;
  operations : list (nat * Receipt)
}.

(** Modelled from the spec: [latest()] of the missing chain state. *)
Definition latest (c : list LBlock) : option LBlock := last c.

(** Modelled from the spec: [genesis()] of the missing chain state. *)
Definition genesis (c : list LBlock) : option LBlock := head c.

(** Modelled from the spec: [append(newBlock)] of the missing chain state; it
    requires the next height and the latest block as the only parent and fails
    with a SequenceError otherwise. *)
Definition append (newBlock : LBlock) (c : list LBlock) : outcome (list LBlock) :=
  match latest c with
  | Some l =>
      if decide (lheight newBlock = S (lheight l) /\ lparents newBlock = [self l])
      then Returned (c ++ [newBlock])
      else Thrown SequenceError
  | None => Thrown SequenceError
  end.

(** Modelled from the spec: [truncateTo(index)] of the missing chain state; it
    keeps the blocks at positions [0..index] and fails with a RangeError out
    of bounds. *)
Definition truncateTo (index : nat) (c : list LBlock) : outcome (list LBlock) :=
  if decide (index < length c)%nat
  then Returned (take (S index) c)
  else Thrown RangeError.

Fixpoint lookupOperation (ref : nat) (l : list (nat * Receipt)) : option Receipt :=
  match l with
  | [] => None
  | (r, rc) :: l' => if decide (r = ref) then Some rc else lookupOperation ref l'
  end.

(** Modelled from the spec: [receiptFor(operationRef)] of the missing chain
    state; absent once the block of the operation is discarded. *)
Definition receiptFor (ref : nat) (c : list LBlock) : option Receipt :=
  lookupOperation ref (mjoin (operations <$> c)).

(** ** Checkpoints and dependent entities *)

(** Modelled from the spec: a checkpoint of the missing snapshot manager is
    Active or Reverted. *)
Inductive CheckpointStatus : Type :=
  | CpActive
  | CpReverted.

#[global] Instance CheckpointStatus_eq_dec : EqDecision CheckpointStatus.
Proof. solve_decision. Defined.

(** Modelled from the spec: the dependent entity of the missing ledger: the
    height it was created at and its life-cycle state. *)
Record Entity : Type := mkEntity {
  createdAt : nat;
  lifecycle : SpecDeal.State
}.

(** Modelled from the spec: the checkpoint of the missing snapshot manager.
    The checkpoints created after a given one are those with a greater id, ids
    being issued in increasing order; the list of checkpoints keeps creation
    order. Section 3 lists the chain length and the cache handle as what a
    checkpoint captures; a revert also rolls the dependent entities back
    (sections 1 and 8), so the checkpoint keeps the entities and the pending
    set of its moment as well. *)
Record Checkpoint : Type := mkCheckpoint {
  cpId : Z;
  chainLength : nat;               (* index of the last committed block *)
  handle : gmap (Z * Z) Z;
  cpEntities : list Entity;
  cpPending : list nat;
  cpStatus : CheckpointStatus
}.

(** Modelled from the spec: the mutable state behind the missing provider:
    chain, cache, checkpoints with the next id, entities and the pending set. *)
Record State : Type := mkState {
  chain : list LBlock;
  cache : StorageCache;
  nextOperation : nat;
  checkpoints : list Checkpoint;
  nextId : Z;
  entities : list Entity;
  pendingSet : list nat
}.

Definition terminal (s : SpecDeal.State) : bool :=
  match s with
  | SpecDeal.Active | SpecDeal.Failed => true
  | _ => false
  end.

(** [advanceAll]: every pending entity takes one step; those that reach a
    terminal state leave the pending set. *)
Definition advanceEntity (pending : list nat) (i : nat) (e : Entity) : Entity :=
  if decide (i ∈ pending)
  then {| createdAt := createdAt e;
          lifecycle := SpecDeal.advanceState false (lifecycle e) |}
  else e.

Definition stillPending (es : list Entity) (i : nat) : Prop :=
  match es !! i with
  | Some e => terminal (lifecycle e) = false
  | None => False
  end.

#[global] Instance stillPending_dec es i : Decision (stillPending es i).
Proof. unfold stillPending. destruct (es !! i); apply _. Defined.

(** Modelled from the spec: [advanceAll] of the missing entity ledger; every
    pending entity takes one step, those reaching a terminal state leave the
    pending set. *)
Definition advanceAll (es : list Entity) (pending : list nat)
    : list Entity * list nat :=
  let es' := imap (advanceEntity pending) es in
  (es', filter (stillPending es') pending).

(** Modelled from the spec: the missing provider at construction: the genesis
    block alone, no checkpoint, ids starting at 1. *)
Definition initial : State :=
  {| chain := [ {| lheight := 0; lparents := []; self := 0;
                   stateRoot := ∅; operations := [] |} ];
     cache := {| durable := ∅; memory := ∅ |};
     nextOperation := 0;
     checkpoints := [];
     nextId := 1;
     entities := [];
     pendingSet := [] |}.

Section Operations.
Context `{Engine}.

(** Modelled from the spec: one turn of the missing [produceBlock]: a new
    block on top of the latest one, then the per-block advancement of the
    dependent entities. *)
Definition produceOne (root : gmap (Z * Z) Z) (ops : list (nat * Receipt))
    (st : State) : outcome State :=
  match latest (chain st) with
  | None => Thrown SequenceError
  | Some l =>
      chain' ← append {| lheight := S (lheight l); lparents := [self l];
                         self := S (lheight l); stateRoot := root;
                         operations := ops |} (chain st);
      let '(es, pend) := advanceAll (entities st) (pendingSet st) in
      Returned {| chain := chain'; cache := cache st;
                  nextOperation := nextOperation st;
                  checkpoints := checkpoints st; nextId := nextId st;
                  entities := es; pendingSet := pend |}
  end.

(** Modelled from the spec: [submitOperation(payload)] of the missing provider
    under automine: execute against the current contents, write, commit, and
    produce the block holding the receipt. *)
Definition submitOperation (p : Payload) (st : State) : outcome (nat * State) :=
  let r := execute p (contents (cache st)) in
  let '(root, cache') := commit (writeAll (storageWrites r) (cache st)) in
  let ref := nextOperation st in
  let receipt :=
    {| blockRef := length (chain st); success := ok r;
       returned := returnData r; writes := storageWrites r |} in
  st' ← produceOne root [(ref, receipt)]
         {| chain := chain st; cache := cache'; nextOperation := S ref;
            checkpoints := checkpoints st; nextId := nextId st;
            entities := entities st; pendingSet := pendingSet st |};
  Returned (ref, st').

(** Modelled from the spec: [produceBlock(count)] of the missing scheduler:
    [count] blocks without operations. *)
Fixpoint produceBlock (count : nat) (st : State) : outcome State :=
  match count with
  | O => Returned st
  | S count' =>
      st' ← produceOne (contents (cache st)) [] st; produceBlock count' st'
  end.

(** Modelled from the spec: [getReceipt(operationRef)] of the missing
    provider. *)
Definition getReceipt (ref : nat) (st : State) : option Receipt :=
  receiptFor ref (chain st).

(** Modelled from the spec: [registerEntity] of the missing entity ledger; the
    entity enters the pending set in state Validating. *)
Definition registerEntity (st : State) : nat * State :=
  (length (entities st),
   {| chain := chain st; cache := cache st; nextOperation := nextOperation st;
      checkpoints := checkpoints st; nextId := nextId st;
      entities := entities st ++
        [ {| createdAt := length (chain st) - 1; lifecycle := SpecDeal.Validating |} ];
      pendingSet := pendingSet st ++ [length (entities st)] |}).

Definition entityState (i : nat) (st : State) : option SpecDeal.State :=
  lifecycle <$> entities st !! i.

Definition withCache (c : StorageCache) (st : State) : State :=
  {| chain := chain st; cache := c; nextOperation := nextOperation st;
     checkpoints := checkpoints st; nextId := nextId st;
     entities := entities st; pendingSet := pendingSet st |}.

(** Modelled from the spec: an account or storage read of the missing
    provider; it may populate the memory tier. *)
Definition readStorage (k : Z * Z) (st : State) : option Z * State :=
  let '(v, c) := read k (cache st) in (v, withCache c st).

Definition evictEntry (k : Z * Z) (st : State) : State :=
  withCache (evict k (cache st)) st.

(** ** SnapshotManager *)

(** Modelled from the spec: [snapshot() -> id] of the missing snapshot
    manager; the next id, with the chain length, the cache handle and the
    dependent entities recorded, marked Active. *)
Definition snapshot (st : State) : Z * State :=
  (nextId st,
   {| chain := chain st; cache := cache st; nextOperation := nextOperation st;
      checkpoints := checkpoints st ++
        [ {| cpId := nextId st; chainLength := length (chain st) - 1;
             handle := snapshotHandle (cache st);
             cpEntities := entities st; cpPending := pendingSet st;
             cpStatus := CpActive |} ];
      nextId := nextId st + 1;
      entities := entities st; pendingSet := pendingSet st |}).

Definition findCheckpoint (id : Z) (cps : list Checkpoint) : option Checkpoint :=
  snd <$> list_find (fun c => cpId c = id) cps.

(** Modelled from the spec: the cascade of the missing [revert]: the target
    and every checkpoint created after it become Reverted. *)
Definition markReverted (id : Z) (c : Checkpoint) : Checkpoint :=
  if decide (id <= cpId c)
  then {| cpId := cpId c; chainLength := chainLength c; handle := handle c;
          cpEntities := cpEntities c; cpPending := cpPending c;
          cpStatus := CpReverted |}
  else c.

(** Modelled from the spec: [revert(id) -> bool] of the missing snapshot
    manager; [false] for an id never created or already Reverted, otherwise
    the cascade, [truncateTo(chainLength)], [restore(handle)], the dependent
    entities rolled back to those of the checkpoint, and [true]. *)
Definition revert (id : Z) (st : State) : outcome (bool * State) :=
  match findCheckpoint id (checkpoints st) with
  | None => Returned (false, st)
  | Some c =>
      match cpStatus c with
      | CpReverted => Returned (false, st)
      | CpActive =>
          chain' ← truncateTo (chainLength c) (chain st);
          Returned (true,
            {| chain := chain'; cache := restore (handle c) (cache st);
               nextOperation := nextOperation st;
               checkpoints := markReverted id <$> checkpoints st;
               nextId := nextId st;
               entities := cpEntities c; pendingSet := cpPending c |})
      end
  end.

Definition statusOf (id : Z) (st : State) : option CheckpointStatus :=
  cpStatus <$> findCheckpoint id (checkpoints st).

(** ** Calls in sequence

    A call that throws aborts without touching the ledger. *)

Inductive Call : Type :=
  | SubmitOperation (p : Payload)
  | ProduceBlock (count : nat)
  | RegisterEntity
  | ReadStorage (k : Z * Z)
  | EvictEntry (k : Z * Z)
  | Snapshot
  | Revert (id : Z).

Definition stateAfter {A : Type} (st : State) (o : outcome (A * State)) : State :=
  match o with
  | Returned (_, st') => st'
  | _ => st
  end.

Definition call (c : Call) (st : State) : State :=
  match c with
  | SubmitOperation p => stateAfter st (submitOperation p st)
  | ProduceBlock n =>
      match produceBlock n st with
      | Returned st' => st'
      | _ => st
      end
  | RegisterEntity => (registerEntity st).2
  | ReadStorage k => (readStorage k st).2
  | EvictEntry k => evictEntry k st
  | Snapshot => (snapshot st).2
  | Revert id => stateAfter st (revert id st)
  end.

Definition calls (l : list Call) (st : State) : State :=
  foldl (fun s c => call c s) st l.

Definition reachable (st : State) : Prop :=
  exists l : list Call, st = calls l initial.

End Operations.

(** ** The protocol boundary of [evm_revert]

    The identifier arrives as a JSON-RPC argument. A number is finite (a
    fraction [num/den]) or one of the three non-finite values. *)

Inductive JsNumber : Type :=
  | Finite (num : Z) (den : positive)
  | PosInfinity
  | NegInfinity
  | NaN.

(** Modelled from the spec: the identifier values the missing boundary of
    [evm_revert] tells apart. *)
Inductive JsValue : Type :=
  | JsObject
  | JsBool (b : bool)
  | JsNum (n : JsNumber)
  | JsNull
  | JsUndefined
  | JsBuffer (bytes : list N).

Inductive Routing : Type :=
  | EncodingFailure
  | UsageFailure
  | ToRevert (id : Z).

(** Big-endian value of a buffer. *)
Definition bufferValue (bytes : list N) : Z :=
  foldl (fun acc byte => 256 * acc + Z.of_N byte) 0 bytes.

(** Modelled from the spec: the validation at the missing boundary; objects,
    booleans and numbers that are no integers are encoding failures, null and
    absent values are usage failures, integers of either sign and buffers go
    to [revert]. *)
Definition classify (v : JsValue) : Routing :=
  match v with
  | JsObject => EncodingFailure
  | JsBool _ => EncodingFailure
  | JsNum (Finite num den) =>
      if decide (num mod Z.pos den = 0) then ToRevert (num / Z.pos den)
      else EncodingFailure
  | JsNum _ => EncodingFailure
  | JsNull => UsageFailure
  | JsUndefined => UsageFailure
  | JsBuffer bytes => ToRevert (bufferValue bytes)
  end.

Inductive Response : Type :=
  | RejectedEncoding
  | RejectedUsage
  | Replied (result : bool)
  | Faulted.

Section Boundary.
Context `{Engine}.

(** Modelled from the spec: [evm_revert] of the missing provider: the response
    and the ledger after the request. *)
Definition evm_revert (v : JsValue) (st : State) : Response * State :=
  match classify v with
  | EncodingFailure => (RejectedEncoding, st)
  | UsageFailure => (RejectedUsage, st)
  | ToRevert id =>
      match revert id st with
      | Returned (r, st') => (Replied r, st')
      | _ => (Faulted, st)
      end
  end.

End Boundary.

(** ** Notions used to state the properties of the ledger *)

Section LedgerNotions.
Context `{Engine}.

(** The ledger a successful [revert] to checkpoint [c] leaves. *)
Definition revertedTo (id : Z) (c : Checkpoint) (st : State) : State :=
  {| chain := take (S (chainLength c)) (chain st);
     cache := restore (handle c) (cache st);
     nextOperation := nextOperation st;
     checkpoints := markReverted id <$> checkpoints st;
     nextId := nextId st;
     entities := cpEntities c; pendingSet := cpPending c |}.

(** The block [produceOne] appends. *)
Definition producedBlock (root : gmap (Z * Z) Z) (ops : list (nat * Receipt))
    (l : LBlock) : LBlock :=
  {| lheight := S (lheight l); lparents := [self l]; self := S (lheight l);
     stateRoot := root; operations := ops |}.

Definition opsBelow (bound : nat) (blks : list LBlock) : Prop :=
  forall blk r rc, blk ∈ blks -> (r, rc) ∈ operations blk -> (r < bound)%nat.

Definition grows (st st' : State) : Prop :=
  (exists ext, chain st' = chain st ++ ext /\ opsBelow (nextOperation st') ext) /\
  checkpoints st' = checkpoints st /\
  nextId st' = nextId st /\
  (nextOperation st <= nextOperation st')%nat.

Record wf (st : State) : Prop := mkWf {
  wf_chain : chain st <> [];
  wf_next : 1 <= nextId st;
  wf_ids : forall c, c ∈ checkpoints st -> 1 <= cpId c < nextId st;
  wf_bound : forall c, c ∈ checkpoints st -> cpStatus c = CpActive ->
             (chainLength c < length (chain st))%nat;
  wf_mono : forall c c', c ∈ checkpoints st -> c' ∈ checkpoints st ->
            cpStatus c = CpActive -> cpStatus c' = CpActive ->
            cpId c <= cpId c' -> (chainLength c <= chainLength c')%nat;
  wf_refs : opsBelow (nextOperation st) (chain st)
}.

Definition keeps (s : Z) (st1 st : State) : Prop :=
  s < nextId st /\
  (statusOf s st = Some CpActive ->
   (exists c, findCheckpoint s (checkpoints st) = Some c /\
              chainLength c = (length (chain st1) - 1)%nat /\
              handle c = contents (cache st1) /\
              cpEntities c = entities st1 /\
              cpPending c = pendingSet st1) /\
   take (length (chain st1)) (chain st) = chain st1).

Definition applyWrites (ws : list ((Z * Z) * Z)) (m : gmap (Z * Z) Z)
    : gmap (Z * Z) Z :=
  foldl (fun m' w => <[w.1 := w.2]> m') m ws.

Definition readOnly (c : Call) : Prop :=
  match c with
  | ReadStorage _ | EvictEntry _ => True
  | _ => False
  end.

End LedgerNotions.

(** The contract of the test file: a counter deployed with value 42 and a
    method that increments it. *)
Inductive CounterCall : Type :=
  | Deploy
  | Inc.

Definition counterSlot : Z * Z := (1, 0).

Definition counterExecute (p : CounterCall) (view : gmap (Z * Z) Z) : Execution :=
  match p with
  | Deploy => {| ok := true; returnData := 42; storageWrites := [(counterSlot, 42)] |}
  | Inc =>
      match view !! counterSlot with
      | Some n => {| ok := true; returnData := n + 1;
                     storageWrites := [(counterSlot, n + 1)] |}
      | None => {| ok := false; returnData := 0; storageWrites := [] |}
      end
  end.

Definition counterEngine : Engine :=
  {| Payload := CounterCall; execute := counterExecute |}.

End Ledger.

(** ** Concrete runs *)

Module Demo.

Definition proposal : StorageProposal :=
  {| epochPrice := 10; minBlocksDuration := 100 |}.

(** A manual-mode chain with one deal advanced to Staged and a second one
    just registered. *)
Definition manual : Blockchain (H := SpecDeal.things) :=
  constructor {| opt_automining := Some false; opt_blockTime := None;
                 opt_ipfsPort := None |}.

Definition twoDealsRun : list Action :=
  [CallStartDeal 0 proposal; CallMineTipset 1; CallStartDeal 0 proposal].

Definition twoDeals : Blockchain (H := SpecDeal.things) :=
  default manual (runAll twoDealsRun manual).

Definition twoDealsTip : Tipset :=
  {| cids := [mkRootCID 0];
     blocks := [ {| miner_of := Some mkMiner; parents := [Some (mkRootCID 0)] |} ];
     height := 1 |}.

Definition firstDeal : Deal (H := SpecDeal.things) :=
  @mkDeal SpecDeal.things (mkRootCID 1) SpecDeal.Staged [] mkMiner
    (mkRootCID 2) 2032 10 100 1.

Definition automine : Blockchain (H := SpecDeal.things) :=
  constructor {| opt_automining := None; opt_blockTime := None;
                 opt_ipfsPort := None |}.

Definition intervalOptions : BlockchainOptions :=
  {| opt_automining := Some true; opt_blockTime := Some 1000;
     opt_ipfsPort := None |}.

Definition startUp : list Action :=
  [TimeoutFires; CallWaitForReady 7; StartResolves; CallWaitForReady 8].

Definition started : Blockchain (H := SpecDeal.things) :=
  default (constructor intervalOptions)
    (runAll startUp (constructor intervalOptions)).

(** The ledger of the test file: the counter deployed, and an entity
    registered, then a checkpoint. *)
Definition deployedRun : list (Ledger.Call (H := Ledger.counterEngine)) :=
  [Ledger.SubmitOperation (H := Ledger.counterEngine) Ledger.Deploy;
   Ledger.RegisterEntity].

Definition deployed : Ledger.State :=
  Ledger.calls (H := Ledger.counterEngine) deployedRun Ledger.initial.

Definition afterSnapshot : list (Ledger.Call (H := Ledger.counterEngine)) :=
  [Ledger.ReadStorage Ledger.counterSlot;
   Ledger.SubmitOperation (H := Ledger.counterEngine) Ledger.Inc;
   Ledger.ReadStorage Ledger.counterSlot].

Definition firstInc : Ledger.State :=
  Ledger.call (H := Ledger.counterEngine)
    (Ledger.SubmitOperation (H := Ledger.counterEngine) Ledger.Inc)
    (Ledger.calls (H := Ledger.counterEngine)
       [Ledger.ReadStorage Ledger.counterSlot] (Ledger.snapshot deployed).2).

Definition rolledBack : Ledger.State :=
  Ledger.call (H := Ledger.counterEngine) (Ledger.Revert 1)
    (Ledger.calls afterSnapshot (Ledger.snapshot deployed).2).

Definition twoCheckpoints : Ledger.State :=
  Ledger.calls (H := Ledger.counterEngine)
    [Ledger.Snapshot; Ledger.Snapshot] deployed.

End Demo.

(** ** Notions for the further properties of the class *)

Section FurtherNotions.
Context `{Things}.

(** The tipset the constructor pushes. *)
Definition genesisOf : Tipset :=
  {| cids := [mkRootCID (randomCid 0%nat)];
     blocks := [ {| miner_of := None; parents := [] |} ];
     height := 0 |}.

(** Between [b] and [b'] the deal at [d] was neither changed nor announced. *)
Definition untouched (d : DealRef) (b b' : Blockchain) : Prop :=
  heap b' !! d = heap b !! d /\
  changesOf d (emitted b') = changesOf d (emitted b).

(** Between [b] and [b'] the deal at [d] took one [advanceState] and one
    [dealStateChanged] was emitted for it, showing the new state. *)
Definition advancedOnce (d : DealRef) (b b' : Blockchain) : Prop :=
  heap b' !! d =
    (fun x => with_state (advanceState (automining b) (state x)) x) <$> heap b !! d /\
  changesOf d (emitted b') = changesOf d (emitted b) ++ [stateOf b' d].

(** The book-keeping of [startDeal]. *)
Definition bookInv (b : Blockchain) : Prop :=
  deals b = seq 0 (length (heap b)) /\
  drawn b = S (2 * length (heap b)) /\
  (forall (i : nat) (d : Deal), heap b !! i = Some d ->
     dealId d = Z.of_nat i + 1 /\
     proposalCid d = mkRootCID (randomCid (S (2 * i)))) /\
  NoDup (inProcessDeals b) /\
  (forall d : DealRef, d ∈ inProcessDeals b -> (d < length (heap b))%nat) /\
  (forall (c : CID) (ref : DealRef), dealsByCid b !! c = Some ref ->
     exists d, heap b !! ref = Some d /\ root (proposalCid d) = c).

(** In process means not yet [Active], and the other way round. *)
Definition pendInv (b : Blockchain) : Prop :=
  (forall d : DealRef, d ∈ inProcessDeals b -> stateOf b d <> Some Active) /\
  (forall d : DealRef, (d < length (heap b))%nat ->
     d ∈ inProcessDeals b \/ stateOf b d = Some Active).

(** When the interval timer can be scheduled. *)
Definition timerInv (b : Blockchain) : Prop :=
  (intervalArmed b = true ->
     automining b = false /\ blockTime b <> 0 /\ ready b = true) /\
  (intervalArmed b = true -> is_Some (miningTimeout b)).

End FurtherNotions.

(** ** More concrete runs *)

Module DemoExtra.

(** Two deals just started in manual mode, none mined yet. *)
Definition twoFreshRun : list Action :=
  [CallStartDeal 0 Demo.proposal; CallStartDeal 0 Demo.proposal].

Definition twoFresh : Blockchain (H := SpecDeal.things) :=
  default Demo.manual (runAll twoFreshRun Demo.manual).

Definition twoDealsMined : Blockchain (H := SpecDeal.things) :=
  default Demo.twoDeals
    (runAll [CallMineTipset 1] Demo.twoDeals).

(** An automining chain after one deal. *)
Definition oneActiveRun : list Action := [CallStartDeal 5 Demo.proposal].

Definition oneActive : Blockchain (H := SpecDeal.things) :=
  default Demo.automine (runAll oneActiveRun Demo.automine).

Definition laterRun : list Action :=
  [CallStartDeal 5 Demo.proposal; CallMineTipset 2].

Definition later : Blockchain (H := SpecDeal.things) :=
  default oneActive (runAll laterRun oneActive).

(** The start-up of an interval-mining object, suspended at [start()]. *)
Definition awaiting : Blockchain (H := SpecDeal.things) :=
  default (constructor Demo.intervalOptions)
    (runAll [TimeoutFires] (constructor Demo.intervalOptions)).

Definition failedRun : list Action := [TimeoutFires; StartRejects].

Definition failed : Blockchain (H := SpecDeal.things) :=
  default (constructor Demo.intervalOptions)
    (runAll failedRun (constructor Demo.intervalOptions)).

Definition afterFailureRun : list Action :=
  [CallWaitForReady 3; CallMineTipset 1; CallStop].

Definition afterFailure : Blockchain (H := SpecDeal.things) :=
  default failed (runAll afterFailureRun failed).

End DemoExtra.

(** * Part III: properties *)

(** ** The Filecoin [Blockchain] *)

(** Goals about the methods that assign a few fields and leave the rest. *)
Ltac life_cycle :=
  intros;
  unfold stop in *;
  unfold startupBegin, startupFinish, waitForReady, clearMiningTimeout in *;
  repeat match goal with
         | Hs : context [match ?c with _ => _ end] |- _ => destruct c eqn:?
         | |- context [match ?c with _ => _ end] => destruct c eqn:?
         end;
  simplify_eq; simpl in *; try done; eauto.

Section BlockchainFacts.
Context `{Things}.

Lemma sameObject_refl b : sameObject b b.
Proof. unfold sameObject; repeat split; reflexivity. Qed.

Lemma sameObject_trans b1 b2 b3 :
  sameObject b1 b2 -> sameObject b2 b3 -> sameObject b1 b3.
Proof.
  unfold sameObject; intros H12 H23.
  repeat match goal with H0 : _ /\ _ |- _ => destruct H0 end.
  repeat split; congruence.
Qed.

Lemma indexOf_lt d l j : indexOf d l = Some j -> (j < length l)%nat.
Proof.
  revert j; induction l as [|x l IH]; intros j; simpl; [discriminate|].
  destruct (decide (x = d)); [intros [= <-]; lia|].
  destruct (indexOf d l) as [j'|] eqn:E; simpl; [|discriminate].
  intros [= <-]. specialize (IH j' eq_refl). lia.
Qed.

Lemma spliceIndexOf_length d l :
  (length (spliceIndexOf d l) <= length l)%nat.
Proof.
  unfold spliceIndexOf. destruct (indexOf d l) as [j|] eqn:E.
  - apply indexOf_lt in E. rewrite length_delete by (apply lookup_lt_is_Some; lia). lia.
  - destruct l as [|x l]; [simpl; lia|].
    rewrite length_delete; [lia|]. apply lookup_lt_is_Some. simpl. lia.
Qed.

Lemma advanceDeals_step fuel i b :
  advanceDeals (S fuel) i b =
  match inProcessDeals b !! i with
  | None => Returned b
  | Some deal => advanceDeals fuel (S i) (visit deal b)
  end.
Proof. reflexivity. Qed.

Lemma visit_sameObject deal b : sameObject b (visit deal b).
Proof.
  unfold visit, sameObject. case_bool_decide; simpl;
    repeat split; try reflexivity; apply length_alter.
Qed.

Lemma visit_pending_length deal b :
  (length (inProcessDeals (visit deal b)) <= length (inProcessDeals b))%nat.
Proof.
  unfold visit. case_bool_decide; simpl; [apply spliceIndexOf_length|lia].
Qed.

Lemma advanceDeals_returns fuel : forall i b,
  (length (inProcessDeals b) - i < fuel)%nat ->
  exists b', advanceDeals fuel i b = Returned b' /\ sameObject b b'.
Proof.
  induction fuel as [|fuel IH]; intros i b Hlen; [lia|].
  - rewrite advanceDeals_step.
    destruct (inProcessDeals b !! i) as [deal|] eqn:E.
    + destruct (IH (S i) (visit deal b)) as (b' & Hb' & Hs).
      { pose proof (visit_pending_length deal b).
        apply lookup_lt_Some in E. lia. }
      exists b'. split; [exact Hb'|].
      eapply sameObject_trans; [apply visit_sameObject|exact Hs].
    + exists b. split; [reflexivity|apply sameObject_refl].
Qed.

Lemma pushNewBlocks_replicate count m T acc :
  pushNewBlocks count m T acc =
  acc ++ replicate count {| miner_of := Some m; parents := [cids T !! 0%nat] |}.
Proof.
  revert acc; induction count as [|count IH]; intros acc; simpl.
  - by rewrite app_nil_r.
  - rewrite IH, <- app_assoc. reflexivity.
Qed.

Lemma latestTipset_Some b :
  tipsets b <> [] -> exists T, latestTipset b = Some T.
Proof.
  unfold latestTipset. destruct (tipsets b) as [|t l] eqn:E; [done|].
  intros _. apply lookup_lt_is_Some. simpl. lia.
Qed.

Lemma latestTipset_last b : latestTipset b = last (tipsets b).
Proof.
  unfold latestTipset. destruct (tipsets b) as [|t l] eqn:E; [done|].
  rewrite last_lookup. f_equal. simpl. lia.
Qed.

Lemma mineTipset_returns n b T :
  latestTipset b = Some T ->
  exists b', mineTipset n b = Returned b' /\
    sameObject (set_tipsets (tipsets b ++ [minedTipset n (miner b) T]) b) b' /\
    miner b' = miner b.
Proof.
  intros HT. unfold mineTipset. rewrite HT.
  set (b1 := set_tipsets _ b).
  destruct (advanceDeals_returns (S (length (inProcessDeals b1))) 0 b1)
    as (b' & Hb' & Hs); [lia|].
  exists b'. split; [exact Hb'|]. split; [exact Hs|].
  clear -Hb'. revert Hb'. generalize (S (length (inProcessDeals b1))).
  change (miner b) with (miner b1). generalize b1 0%nat. clear.
  intros b1 i fuel; revert b1 i.
  induction fuel as [|fuel IH]; intros b1 i; [discriminate|].
  rewrite advanceDeals_step. destruct (inProcessDeals b1 !! i) as [deal|].
  - intros Hb'. apply IH in Hb'. rewrite Hb'. unfold visit.
    case_bool_decide; reflexivity.
  - intros [= <-]. reflexivity.
Qed.

Lemma mineTipset_throws n b :
  latestTipset b = None -> mineTipset n b = Thrown TypeError.
Proof. intros HT. unfold mineTipset. by rewrite HT. Qed.

Lemma mineTipset_tipsets n b b' :
  mineTipset n b = Returned b' ->
  exists T, latestTipset b = Some T /\
    tipsets b' = tipsets b ++ [minedTipset n (miner b) T].
Proof.
  intros Hm. destruct (latestTipset b) as [T|] eqn:HT.
  - destruct (mineTipset_returns n b T HT) as (b2 & Hb2 & Hs & _).
    rewrite Hm in Hb2. injection Hb2 as <-. exists T. split; [done|].
    apply Hs.
  - rewrite mineTipset_throws in Hm by done. discriminate.
Qed.

Lemma startDeal_unfold fuel proposal b :
  startDeal fuel proposal b =
  b5 ← (if automining b
        then mineUntilActive fuel (length (heap b)) (registerDeal proposal b)
        else Returned (registerDeal proposal b));
  mret (b5, mkRootCID (randomCid (drawn b))).
Proof. reflexivity. Qed.

Lemma mineUntilActive_unfold fuel deal b :
  mineUntilActive fuel deal b =
  if bool_decide (stateOf b deal = Some Active) then Returned b
  else match fuel with
       | O => OutOfFuel
       | S fuel' => b' ← mineTipsetDetached b; mineUntilActive fuel' deal b'
       end.
Proof. destruct fuel; reflexivity. Qed.

(** A property kept by every completed [mineTipset()] is kept by the loop of
    [startDeal]. *)
Lemma mineUntilActive_preserves (P : Blockchain -> Prop) :
  (forall b b', P b -> mineTipset 1 b = Returned b' -> P b') ->
  forall fuel deal b b',
    P b -> mineUntilActive fuel deal b = Returned b' -> P b'.
Proof.
  intros Hmine fuel deal. induction fuel as [|fuel IH]; intros b b' HP;
    rewrite mineUntilActive_unfold; case_bool_decide; try congruence.
  unfold mineTipsetDetached.
  destruct (mineTipset 1 b) as [b1| |] eqn:E; simpl; try discriminate.
  - apply IH. eauto.
  - apply IH. exact HP.
Qed.

(** Induction over the reachable objects, method by method. *)
Lemma reachable_preserves (P : Blockchain -> Prop) :
  (forall options, P (constructor options)) ->
  (forall b, P b -> startup b = StartupScheduled -> P (startupBegin b)) ->
  (forall b, P b -> startup b = StartupAwaiting -> P (startupFinish b)) ->
  (forall b, P b -> startup b = StartupAwaiting -> P (set_startup StartupFailed b)) ->
  (forall b k, P b -> P (waitForReady k b)) ->
  (forall b, P b -> P (clearMiningTimeout b)) ->
  (forall b b', P b -> stop b = Returned b' -> P b') ->
  (forall b b' n, P b -> mineTipset n b = Returned b' -> P b') ->
  (forall b proposal, P b -> P (registerDeal proposal b)) ->
  forall b, reachable b -> P b.
Proof.
  intros Hnew Hbegin Hfinish Hfail Hwait Hclear Hstop Hmine Hreg b Hb.
  induction Hb as [options|a b b' Hb IH Hrun]; [apply Hnew|].
  destruct a; simpl in Hrun.
  - case_decide; [|discriminate]. injection Hrun as <-. auto.
  - case_decide; [|discriminate]. injection Hrun as <-. auto.
  - case_decide; [|discriminate]. injection Hrun as <-. auto.
  - destruct (intervalArmed b); [|discriminate]. unfold mineTipsetDetached in Hrun.
    destruct (mineTipset 1 b) as [b1| |] eqn:E; try discriminate;
      injection Hrun as <-; eauto.
  - injection Hrun as <-. auto.
  - destruct (stop b) as [b1| |] eqn:E; injection Hrun as <-; eauto.
  - destruct (mineTipset numNewBlocks b) as [b1| |] eqn:E; try discriminate;
      injection Hrun as <-; eauto.
  - rewrite startDeal_unfold in Hrun.
    destruct (automining b).
    + destruct (mineUntilActive fuel (length (heap b)) (registerDeal proposal b))
        as [b1| |] eqn:E; try discriminate.
      simpl in Hrun. injection Hrun as <-.
      eapply (mineUntilActive_preserves P); [|apply Hreg, IH|exact E].
      intros; eapply Hmine; eauto.
    + simpl in Hrun. injection Hrun as <-. auto.
Qed.

(** *** The chain of tipsets *)

Lemma chainInv_latest b :
  chainInv b ->
  exists T, latestTipset b = Some T /\
            height T = Z.of_nat (length (tipsets b)) - 1.
Proof.
  intros [Hne Hh]. destruct (latestTipset_Some b Hne) as [T HT].
  exists T. split; [exact HT|].
  unfold latestTipset in HT. destruct (tipsets b) as [|t l] eqn:E; [done|].
  rewrite <- E in *. apply Hh in HT. rewrite HT.
  assert (0 < length (tipsets b))%nat by (rewrite E; simpl; lia). lia.
Qed.

Lemma chainInv_mineTipset n b b' :
  chainInv b -> mineTipset n b = Returned b' -> chainInv b'.
Proof.
  intros Hinv Hm. destruct (chainInv_latest b Hinv) as (T & HT & HhT).
  destruct (mineTipset_tipsets n b b' Hm) as (T' & HT' & Heq).
  rewrite HT in HT'. injection HT' as <-.
  destruct Hinv as [Hne Hh]. split.
  - rewrite Heq. intros Habs. by apply app_eq_nil in Habs as [_ ?].
  - intros i t. rewrite Heq. intros Hi.
    apply lookup_snoc_Some in Hi as [[_ Hi]|[-> <-]]; [by apply Hh|].
    simpl. lia.
Qed.

Lemma chainInv_reachable b : reachable b -> chainInv b.
Proof.
  apply reachable_preserves; unfold chainInv; try by life_cycle.
  - intros options. split; [done|].
    intros i t Hi. unfold constructor in Hi. cbn [tipsets] in Hi.
    apply list_lookup_singleton_Some in Hi. destruct Hi as [Hi Ht].
    subst i t. reflexivity.
  - intros b0 b' n Hb0 Hm. eapply chainInv_mineTipset; eauto.
Qed.

Lemma runAll_reachable l : forall b b',
  reachable b -> runAll l b = Some b' -> reachable b'.
Proof.
  induction l as [|a l IH]; intros b b' Hb; simpl.
  - by intros [= <-].
  - destruct (run a b) as [b1|] eqn:E; simpl; [|discriminate].
    apply IH. by eapply reachable_run.
Qed.

(** C10. In every reachable state the array of tipsets is not empty, the
    tipset at index [i] has height [i], so that the latest tipset has height
    [tipsets.length - 1]; and a call of [mineTipset] returns with the array
    extended by exactly one tipset, the existing ones untouched. *)
Theorem chain_height_invariant (b : Blockchain) :
  reachable b ->
  tipsets b <> [] /\
  (forall (i : nat) (t : Tipset), tipsets b !! i = Some t -> height t = Z.of_nat i) /\
  (exists T, latestTipset b = Some T /\
             height T = Z.of_nat (length (tipsets b)) - 1) /\
  (forall n : Z, exists b' T',
      mineTipset n b = Returned b' /\ tipsets b' = tipsets b ++ [T']).
Proof.
  intros Hb. pose proof (chainInv_reachable b Hb) as Hinv.
  destruct (chainInv_latest b Hinv) as (T & HT & HhT).
  destruct Hinv as [Hne Hh]. repeat split; try done.
  - by exists T.
  - intros n. destruct (mineTipset_returns n b T HT) as (b' & Hb' & Hs & _).
    exists b', (minedTipset n (miner b) T). split; [done|]. apply Hs.
Qed.

(** C5. [mineTipset(numNewBlocks)] with [numNewBlocks >= 1] on a chain whose
    latest tipset is [T] builds exactly [numNewBlocks] blocks, each with the
    one parent [T.cids[0]], and pushes them as one tipset of height
    [T.height + 1], which is then the latest. *)
Theorem mineTipset_block_shape (n : Z) (b : Blockchain) (T : Tipset) :
  latestTipset b = Some T ->
  1 <= n ->
  exists b' T',
    mineTipset n b = Returned b' /\
    tipsets b' = tipsets b ++ [T'] /\
    latestTipset b' = Some T' /\
    Z.of_nat (length (blocks T')) = n /\
    Forall (fun blk => parents blk = [cids T !! 0%nat] /\
                       miner_of blk = Some (miner b)) (blocks T') /\
    height T' = height T + 1.
Proof.
  intros HT Hn. destruct (mineTipset_returns n b T HT) as (b' & Hb' & Hs & _).
  exists b', (minedTipset n (miner b) T).
  assert (Ht : tipsets b' = tipsets b ++ [minedTipset n (miner b) T]) by apply Hs.
  split; [done|]. split; [done|]. split.
  { rewrite latestTipset_last, Ht. apply last_snoc. }
  unfold minedTipset; cbn [blocks height].
  rewrite pushNewBlocks_replicate. simpl. repeat split.
  - rewrite length_replicate. lia.
  - apply Forall_replicate. done.
Qed.

Lemma automining_mineTipset n b b' :
  mineTipset n b = Returned b' ->
  automining b' = automining b /\ blockTime b' = blockTime b.
Proof.
  intros Hm. destruct (latestTipset b) as [T|] eqn:HT.
  - destruct (mineTipset_returns n b T HT) as (b2 & Hb2 & Hs & _).
    rewrite Hm in Hb2. injection Hb2 as <-. split; apply Hs.
  - rewrite mineTipset_throws in Hm by done. discriminate.
Qed.

(** The options are fixed at construction. *)
Lemma run_options a b b' :
  run a b = Some b' ->
  automining b' = automining b /\ blockTime b' = blockTime b.
Proof.
  destruct a; simpl; try by life_cycle.
  - destruct (intervalArmed b); [|discriminate]. unfold mineTipsetDetached.
    destruct (mineTipset 1 b) eqn:E; intros; simplify_eq; [|done].
    by eapply automining_mineTipset.
  - destruct (mineTipset numNewBlocks b) eqn:E; intros; simplify_eq; [|done].
    by eapply automining_mineTipset.
  - rewrite startDeal_unfold. destruct (automining b) eqn:Ha; simpl.
    + destruct (mineUntilActive _ _ _) as [b1| |] eqn:E; simpl; try discriminate.
      intros [= <-].
      eapply (mineUntilActive_preserves
                (fun x => automining x = true /\ blockTime x = blockTime b));
        [| |exact E]; [|done].
      intros x x' [Hx1 Hx2] Hm. apply automining_mineTipset in Hm as [-> ->]. done.
    + intros [= <-]. simpl. done.
Qed.

Lemma runAll_options l : forall b b',
  runAll l b = Some b' ->
  automining b' = automining b /\ blockTime b' = blockTime b.
Proof.
  induction l as [|a l IH]; intros b b'; simpl.
  - by intros [= <-].
  - destruct (run a b) as [b1|] eqn:E; simpl; [|discriminate].
    intros Hl. apply IH in Hl as [-> ->]. by apply (run_options a).
Qed.

(** C9. A positive [blockTime] in the options makes the constructed object
    non-automining whatever [options.automining] says, and it stays so:
    interval mining and automining are never on together. *)
Theorem blockTime_overrides_automining (options : BlockchainOptions) (bt : Z) :
  opt_blockTime options = Some bt ->
  bt > 0 ->
  automining (constructor options) = false /\
  forall (l : list Action) (b : Blockchain),
    runAll l (constructor options) = Some b -> automining b = false.
Proof.
  intros Hbt Hpos.
  assert (Hc : automining (constructor options) = false).
  { unfold constructor; cbn [automining]. rewrite Hbt. simpl.
    by rewrite bool_decide_eq_true_2. }
  split; [exact Hc|].
  intros l b Hl. apply runAll_options in Hl as [-> _]. exact Hc.
Qed.

(** C7. [stop()] on a freshly constructed object, whose start-up callback
    has not run yet, reads a method of the undefined [ipfsServer] and
    throws. *)
Theorem stop_before_startup_throws (options : BlockchainOptions) :
  stop (constructor options) = Thrown TypeError.
Proof. reflexivity. Qed.

(** *** The loop over the deals in process *)

Lemma advanceDeals_preserves (P : Blockchain -> Prop) :
  (forall deal b, P b -> P (visit deal b)) ->
  forall fuel i b b', P b -> advanceDeals fuel i b = Returned b' -> P b'.
Proof.
  intros Hvisit fuel. induction fuel as [|fuel IH]; intros i b b' HP;
    [discriminate|].
  rewrite advanceDeals_step. destruct (inProcessDeals b !! i) as [deal|].
  - apply IH. by apply Hvisit.
  - by intros [= <-].
Qed.

Lemma mineTipset_none n b T :
  latestTipset b = Some T -> inProcessDeals b = [] ->
  mineTipset n b =
  Returned (set_tipsets (tipsets b ++ [minedTipset n (miner b) T]) b).
Proof.
  intros HT Hp. unfold mineTipset. rewrite HT.
  fold (minedTipset n (miner b) T). rewrite advanceDeals_step.
  cbn [inProcessDeals set_tipsets]. rewrite Hp. reflexivity.
Qed.

Lemma spliceIndexOf_head d l : spliceIndexOf d (d :: l) = l.
Proof. unfold spliceIndexOf. simpl. by rewrite decide_True. Qed.

Lemma visit_pending deal b :
  inProcessDeals (visit deal b) =
  if bool_decide (stateOf (visit deal b) deal = Some Active)
  then spliceIndexOf deal (inProcessDeals b) else inProcessDeals b.
Proof. unfold visit. repeat case_bool_decide; simpl in *; done. Qed.

Lemma mineTipset_single n b T d :
  latestTipset b = Some T -> inProcessDeals b = [d] ->
  mineTipset n b =
  Returned (visit d (set_tipsets (tipsets b ++ [minedTipset n (miner b) T]) b)).
Proof.
  intros HT Hp. unfold mineTipset. rewrite HT.
  fold (minedTipset n (miner b) T).
  set (b1 := set_tipsets _ b).
  assert (Hp1 : inProcessDeals b1 = [d]) by exact Hp.
  rewrite Hp1. cbn [length]. rewrite advanceDeals_step, Hp1. cbn [lookup list_lookup].
  rewrite advanceDeals_step, visit_pending, Hp1, spliceIndexOf_head.
  by case_bool_decide.
Qed.

Lemma heap_visit deal b :
  heap (visit deal b) =
  alter (fun d => with_state (advanceState (automining b) (state d)) d)
        deal (heap b).
Proof. unfold visit. case_bool_decide; reflexivity. Qed.

Lemma stateOf_visit_same deal b x :
  heap b !! deal = Some x ->
  stateOf (visit deal b) deal = Some (advanceState (automining b) (state x)).
Proof.
  intros Hx. unfold stateOf.
  rewrite heap_visit, list_lookup_alter_eq, Hx. reflexivity.
Qed.

Lemma stateOf_visit_other deal b d :
  d <> deal -> stateOf (visit deal b) d = stateOf b d.
Proof.
  intros Hne. unfold stateOf.
  rewrite heap_visit, list_lookup_alter_ne by done. reflexivity.
Qed.

Lemma emitted_visit deal b :
  emitted (visit deal b) =
  emitted b ++ [EvDealStateChanged deal (stateOf (visit deal b) deal)].
Proof. unfold visit, stateOf. case_bool_decide; reflexivity. Qed.

Lemma changesOf_app d l1 l2 :
  changesOf d (l1 ++ l2) = changesOf d l1 ++ changesOf d l2.
Proof. unfold changesOf. apply omap_app. Qed.

(** C4. With two deals in process of which the first becomes [Active], one
    call of [mineTipset] removes the first from the array under the running
    iterator, and the second is passed over: it stays in process, its state
    is not advanced and no [dealStateChanged] is published for it. *)
Theorem mineTipset_skips_deal_after_removal
    (b : Blockchain) (T : Tipset) (d0 d1 : DealRef) (x : Deal) :
  latestTipset b = Some T ->
  inProcessDeals b = [d0; d1] ->
  d0 <> d1 ->
  heap b !! d0 = Some x ->
  advanceState (automining b) (state x) = Active ->
  exists b',
    mineTipset 1 b = Returned b' /\
    stateOf b' d0 = Some Active /\
    inProcessDeals b' = [d1] /\
    stateOf b' d1 = stateOf b d1 /\
    changesOf d1 (emitted b') = changesOf d1 (emitted b).
Proof.
  intros HT Hp Hne Hx Hact.
  set (b1 := set_tipsets (tipsets b ++ [minedTipset 1 (miner b) T]) b).
  assert (Hp1 : inProcessDeals b1 = [d0; d1]) by exact Hp.
  assert (Hs0 : stateOf (visit d0 b1) d0 = Some Active).
  { rewrite (stateOf_visit_same d0 b1 x) by exact Hx. simpl. by rewrite Hact. }
  assert (Hv : inProcessDeals (visit d0 b1) = [d1]).
  { rewrite visit_pending, Hs0, bool_decide_eq_true_2 by done.
    rewrite Hp1. apply spliceIndexOf_head. }
  exists (visit d0 b1). split; [|split; [exact Hs0|split; [exact Hv|split]]].
  - unfold mineTipset. rewrite HT. fold (minedTipset 1 (miner b) T). fold b1.
    rewrite Hp1. cbn [length]. rewrite advanceDeals_step, Hp1.
    cbn [lookup list_lookup]. rewrite advanceDeals_step, Hv. reflexivity.
  - rewrite stateOf_visit_other by done. reflexivity.
  - rewrite emitted_visit, changesOf_app. simpl.
    rewrite decide_False by done. simpl. by rewrite app_nil_r.
Qed.

(** *** [startDeal] under automining *)

Lemma mineUntilActive_exit fuel deal : forall b b',
  mineUntilActive fuel deal b = Returned b' -> stateOf b' deal = Some Active.
Proof.
  induction fuel as [|fuel IH]; intros b b'; rewrite mineUntilActive_unfold;
    case_bool_decide; try congruence.
  destruct (mineTipsetDetached b) as [b1| |]; simpl; try discriminate.
  apply IH.
Qed.

Lemma stepsToActive_S flag n s :
  stepsToActive flag (S n) s ->
  s <> Active /\ stepsToActive flag n (advanceState flag s).
Proof.
  intros [Hn Hlt]. split.
  - apply (Hlt 0%nat). lia.
  - split; [exact Hn|]. intros k Hk. apply (Hlt (S k)). lia.
Qed.

Lemma stepsToActive_0 flag s : stepsToActive flag 0 s -> s = Active.
Proof. by intros [Hn _]. Qed.

Lemma minedTipset_one m T : length (blocks (minedTipset 1 m T)) = 1%nat.
Proof. reflexivity. Qed.

Lemma tipsets_visit deal b : tipsets (visit deal b) = tipsets b.
Proof. unfold visit. case_bool_decide; reflexivity. Qed.

Lemma automining_visit deal b : automining (visit deal b) = automining b.
Proof. unfold visit. case_bool_decide; reflexivity. Qed.

Lemma mineUntilActive_steps (d : DealRef) : forall (n fuel : nat) b x,
  chainInv b ->
  automining b = true ->
  inProcessDeals b = [d] ->
  heap b !! d = Some x ->
  stepsToActive true (S n) (state x) ->
  (S n <= fuel)%nat ->
  exists b' news evs,
    mineUntilActive fuel d b = Returned b' /\
    stateOf b' d = Some Active /\
    inProcessDeals b' = [] /\
    tipsets b' = tipsets b ++ news /\
    length news = S n /\
    Forall (fun t => length (blocks t) = 1%nat) news /\
    (forall d', d' <> d -> stateOf b' d' = stateOf b d') /\
    emitted b' = emitted b ++ evs /\
    length evs = S n /\
    Forall (dealEvent d) evs.
Proof.
  induction n as [|n IH]; intros fuel b x Hinv Ha Hp Hx Hsteps Hfuel;
    (destruct fuel as [|fuel]; [lia|]);
    destruct (chainInv_latest b Hinv) as (T & HT & _);
    apply stepsToActive_S in Hsteps as [Hna Hsteps];
    pose proof (mineTipset_single 1 b T d HT Hp) as Hm;
    set (b1 := set_tipsets (tipsets b ++ [minedTipset 1 (miner b) T]) b) in Hm;
    assert (Hx1 : heap b1 !! d = Some x) by exact Hx;
    assert (Ha1 : automining b1 = true) by exact Ha;
    pose proof (stateOf_visit_same d b1 x Hx1) as Hs2; rewrite Ha1 in Hs2;
    rewrite mineUntilActive_unfold;
    (rewrite bool_decide_eq_false_2
       by (unfold stateOf; rewrite Hx; simpl; congruence));
    unfold mineTipsetDetached; rewrite Hm; simpl.
  - apply stepsToActive_0 in Hsteps.
    exists (visit d b1), [minedTipset 1 (miner b) T],
           [EvDealStateChanged d (stateOf (visit d b1) d)].
    rewrite mineUntilActive_unfold, bool_decide_eq_true_2
      by (rewrite Hs2; congruence).
    split; [done|]. split; [rewrite Hs2; congruence|]. split.
    { rewrite visit_pending, bool_decide_eq_true_2 by (rewrite Hs2; congruence).
      change (inProcessDeals b1) with (inProcessDeals b). rewrite Hp.
      apply spliceIndexOf_head. }
    split; [rewrite tipsets_visit; reflexivity|]. split; [done|].
    split; [by repeat constructor|]. split.
    { intros d' Hd'. by rewrite stateOf_visit_other. }
    split; [rewrite emitted_visit; reflexivity|]. split; [done|].
    repeat constructor. by eexists.
  - destruct Hsteps as [Hn Hlt].
    assert (Hna' : advanceState true (state x) <> Active).
    { apply (Hlt 0%nat). lia. }
    assert (Hp2 : inProcessDeals (visit d b1) = [d]).
    { rewrite visit_pending, bool_decide_eq_false_2 by (rewrite Hs2; congruence).
      exact Hp. }
    destruct (IH fuel (visit d b1)
                (with_state (advanceState true (state x)) x))
      as (b' & news & evs & Hb' & Hact & Hpend & Hts & Hlen & Hone & Hoth & Hev
          & Hevlen & Hevall).
    + eapply chainInv_mineTipset; [exact Hinv|exact Hm].
    + by rewrite automining_visit.
    + exact Hp2.
    + rewrite heap_visit, list_lookup_alter_eq, Hx1, Ha1. reflexivity.
    + split; [exact Hn|exact Hlt].
    + lia.
    + exists b', (minedTipset 1 (miner b) T :: news),
             (EvDealStateChanged d (stateOf (visit d b1) d) :: evs).
      split; [exact Hb'|]. split; [exact Hact|]. split; [exact Hpend|].
      split. { rewrite Hts, tipsets_visit. simpl. by rewrite <- app_assoc. }
      split; [simpl; lia|]. split; [by constructor|]. split.
      { intros d' Hd'. rewrite Hoth by done. by rewrite stateOf_visit_other. }
      split. { rewrite Hev, emitted_visit, <- app_assoc. reflexivity. }
      split; [simpl; lia|]. constructor; [by eexists|exact Hevall].
Qed.

(** The same induction with [startDeal] taken as a whole. *)
Lemma reachable_methods (P : Blockchain -> Prop) :
  (forall options, P (constructor options)) ->
  (forall b, P b -> startup b = StartupScheduled -> P (startupBegin b)) ->
  (forall b, P b -> startup b = StartupAwaiting -> P (startupFinish b)) ->
  (forall b, P b -> startup b = StartupAwaiting -> P (set_startup StartupFailed b)) ->
  (forall b k, P b -> P (waitForReady k b)) ->
  (forall b, P b -> P (clearMiningTimeout b)) ->
  (forall b b', P b -> stop b = Returned b' -> P b') ->
  (forall b b' n, P b -> mineTipset n b = Returned b' -> P b') ->
  (forall b b' fuel proposal cid,
      reachable b -> P b -> startDeal fuel proposal b = Returned (b', cid) -> P b') ->
  forall b, reachable b -> P b.
Proof.
  intros Hnew Hbegin Hfinish Hfail Hwait Hclear Hstop Hmine Hdeal b Hb.
  induction Hb as [options|a b b' Hb IH Hrun]; [apply Hnew|].
  destruct a; simpl in Hrun.
  - case_decide; [|discriminate]. injection Hrun as <-. auto.
  - case_decide; [|discriminate]. injection Hrun as <-. auto.
  - case_decide; [|discriminate]. injection Hrun as <-. auto.
  - destruct (intervalArmed b); [|discriminate]. unfold mineTipsetDetached in Hrun.
    destruct (mineTipset 1 b) as [b1| |] eqn:E; try discriminate;
      injection Hrun as <-; eauto.
  - injection Hrun as <-. auto.
  - destruct (stop b) as [b1| |] eqn:E; injection Hrun as <-; eauto.
  - destruct (mineTipset numNewBlocks b) as [b1| |] eqn:E; try discriminate;
      injection Hrun as <-; eauto.
  - destruct (startDeal fuel proposal b) as [[b1 cid]| |] eqn:E; try discriminate.
    injection Hrun as <-. eauto.
Qed.

Lemma aloneUntilActive_mineTipset d n b b' :
  aloneUntilActive d b -> mineTipset n b = Returned b' -> aloneUntilActive d b'.
Proof.
  intros Hal Hm. destruct (mineTipset_tipsets n b b' Hm) as (T & HT & _).
  destruct Hal as [[Hp Hs]|Hp].
  - rewrite (mineTipset_single n b T d HT Hp) in Hm. injection Hm as <-.
    unfold aloneUntilActive. rewrite visit_pending. case_bool_decide as Hact.
    + right. cbn [inProcessDeals set_tipsets]. rewrite Hp. apply spliceIndexOf_head.
    + left. split; [exact Hp|exact Hact].
  - rewrite (mineTipset_none n b T HT Hp) in Hm. injection Hm as <-. by right.
Qed.

Lemma pending_empty_reachable b :
  Validating <> Active ->
  reachable b -> automining b = true -> inProcessDeals b = [].
Proof.
  intros Hva. revert b.
  apply (reachable_methods
           (fun b => automining b = true -> inProcessDeals b = []));
    try by life_cycle.
  - intros b b' n IH Hm Ha.
    destruct (automining_mineTipset n b b' Hm) as [Ha' _].
    rewrite Ha in Ha'. specialize (IH (eq_sym Ha')).
    destruct (mineTipset_tipsets n b b' Hm) as (T & HT & _).
    rewrite (mineTipset_none n b T HT IH) in Hm. by injection Hm as <-.
  - intros b b' fuel proposal cid Hb IH. rewrite startDeal_unfold.
    destruct (automining b) eqn:Ha.
    + destruct (mineUntilActive _ _ _) as [b1| |] eqn:E; simpl; try discriminate.
      intros [= <- _] _.
      pose proof (mineUntilActive_exit _ _ _ _ E) as Hact.
      assert (Hal : aloneUntilActive (length (heap b)) b1).
      { eapply (mineUntilActive_preserves (aloneUntilActive (length (heap b))));
          [|  |exact E].
        - intros x x' Hx Hm. eapply aloneUntilActive_mineTipset; eauto.
        - left. split.
          + cbn. by rewrite IH.
          + unfold stateOf. cbn. rewrite lookup_app_r by lia.
            rewrite Nat.sub_diag. simpl. congruence. }
      destruct Hal as [[_ Hn]|Hp]; [done|exact Hp].
    + simpl. intros [= <- _] Ha'. simpl in Ha'. congruence.
Qed.

(** C6. Under automining, [startDeal] returns once the new deal is [Active]:
    with [n >= 1] calls of [advanceState(true)] leading from [Validating] to
    [Active], the loop ends after exactly [n] calls of [mineTipset()], each
    adding a tipset of one block; the deals that existed before keep their
    state and all events published are those of the new deal. *)
Theorem startDeal_automining_completes
    (b : Blockchain) (proposal : StorageProposal) (n fuel : nat) :
  reachable b ->
  automining b = true ->
  (0 < n)%nat ->
  stepsToActive true n Validating ->
  (n <= fuel)%nat ->
  exists b' news evs,
    startDeal fuel proposal b =
      Returned (b', mkRootCID (randomCid (drawn b))) /\
    stateOf b' (length (heap b)) = Some Active /\
    inProcessDeals b' = [] /\
    tipsets b' = tipsets b ++ news /\
    length news = n /\
    Forall (fun t => length (blocks t) = 1%nat) news /\
    (forall d, (d < length (heap b))%nat -> stateOf b' d = stateOf b d) /\
    emitted b' = emitted b ++ evs /\
    length evs = n /\
    Forall (dealEvent (length (heap b))) evs.
Proof.
  intros Hb Ha Hn Hsteps Hfuel. destruct n as [|n]; [lia|].
  assert (Hva : Validating <> Active).
  { destruct Hsteps as [_ Hlt]. apply (Hlt 0%nat). lia. }
  pose proof (pending_empty_reachable b Hva Hb Ha) as Hp.
  pose proof (chainInv_reachable b Hb) as Hinv.
  set (d := length (heap b)).
  destruct (mineUntilActive_steps d n fuel (registerDeal proposal b)
              {| proposalCid := mkRootCID (randomCid (drawn b));
                 state := Validating;
                 message := [];
                 provider := miner b;
                 pieceCid := mkRootCID (randomCid (S (drawn b)));
                 size := 2032;
                 pricePerEpoch := epochPrice proposal;
                 duration := minBlocksDuration proposal;
                 dealId := Z.of_nat (length (deals b)) + 1 |})
    as (b' & news & evs & Hb' & Hact & Hpend & Hts & Hlen & Hone & Hoth & Hev
        & Hevlen & Hevall); try done.
  - cbn. by rewrite Hp.
  - cbn. rewrite lookup_app_r by (unfold d; lia).
    unfold d. by rewrite Nat.sub_diag.
  - exists b', news, evs. rewrite startDeal_unfold, Ha. fold d. rewrite Hb'.
    split; [done|]. split; [done|]. split; [done|]. split; [exact Hts|].
    split; [done|]. split; [done|]. split; [|done].
    intros d' Hd'. rewrite Hoth by (unfold d; lia).
    unfold stateOf. cbn. by rewrite lookup_app_l by lia.
Qed.

(** *** Start-up and readiness *)

Lemma readyCount_app b e :
  length (filter (fun e0 => isReady e0 = true) (emitted b ++ [e])) =
  (readyCount b + if isReady e then 1 else 0)%nat.
Proof.
  unfold readyCount. rewrite filter_app, length_app. f_equal.
  rewrite filter_cons, filter_nil. destruct (isReady e); reflexivity.
Qed.

Lemma readyCount_visit deal b : readyCount (visit deal b) = readyCount b.
Proof.
  unfold readyCount at 1. rewrite emitted_visit, readyCount_app. simpl. lia.
Qed.

Lemma readyCount_mineTipset n b b' :
  mineTipset n b = Returned b' -> readyCount b' = readyCount b.
Proof.
  unfold mineTipset. destruct (latestTipset b) as [T|]; [|discriminate].
  apply (advanceDeals_preserves (fun x => readyCount x = readyCount b)).
  - intros deal x Hx. by rewrite readyCount_visit.
  - reflexivity.
Qed.

Lemma sameLifeCycle_mineTipset n b b' :
  mineTipset n b = Returned b' -> sameLifeCycle b b'.
Proof.
  intros Hm. pose proof (readyCount_mineTipset n b b' Hm) as Hc.
  destruct (mineTipset_tipsets n b b' Hm) as (T & HT & _).
  destruct (mineTipset_returns n b T HT) as (b2 & Hb2 & Hs & _).
  rewrite Hm in Hb2. injection Hb2 as <-.
  unfold sameObject in Hs. unfold sameLifeCycle. simpl in Hs.
  repeat match goal with H0 : _ /\ _ |- _ => destruct H0 end.
  repeat split; done.
Qed.

Lemma sameLifeCycle_trans b1 b2 b3 :
  sameLifeCycle b1 b2 -> sameLifeCycle b2 b3 -> sameLifeCycle b1 b3.
Proof.
  unfold sameLifeCycle; intros H12 H23.
  repeat match goal with H0 : _ /\ _ |- _ => destruct H0 end.
  repeat split; congruence.
Qed.

Lemma sameLifeCycle_startDeal fuel proposal b b' cid :
  startDeal fuel proposal b = Returned (b', cid) -> sameLifeCycle b b'.
Proof.
  rewrite startDeal_unfold.
  assert (Hreg : sameLifeCycle b (registerDeal proposal b)).
  { unfold sameLifeCycle. repeat split; reflexivity. }
  destruct (automining b).
  - destruct (mineUntilActive _ _ _) as [b1| |] eqn:E; simpl; try discriminate.
    intros [= <- _].
    eapply (mineUntilActive_preserves (sameLifeCycle b)); [|exact Hreg|exact E].
    intros x x' Hx Hm. eapply sameLifeCycle_trans; [exact Hx|].
    by eapply sameLifeCycle_mineTipset.
  - simpl. by intros [= <- _].
Qed.

(** Every step either leaves the start-up fields alone, or is one of the
    steps of the start-up, [waitForReady] or [stop]. *)
Lemma run_lifeCycle a b b' :
  run a b = Some b' ->
  sameLifeCycle b b' \/
  (a = TimeoutFires /\ startup b = StartupScheduled /\ b' = startupBegin b) \/
  (a = StartResolves /\ startup b = StartupAwaiting /\ b' = startupFinish b) \/
  (a = StartRejects /\ startup b = StartupAwaiting /\
     b' = set_startup StartupFailed b) \/
  (exists k, a = CallWaitForReady k /\ b' = waitForReady k b) \/
  (a = CallStop /\ (stop b = Returned b' \/ b' = clearMiningTimeout b)).
Proof.
  destruct a; simpl.
  - case_decide; [|discriminate]. intros [= <-]. right; left. done.
  - case_decide; [|discriminate]. intros [= <-]. do 2 right; left. done.
  - case_decide; [|discriminate]. intros [= <-]. do 3 right; left. done.
  - destruct (intervalArmed b); [|discriminate]. unfold mineTipsetDetached.
    destruct (mineTipset 1 b) eqn:E; intros [= <-]; left.
    + by eapply sameLifeCycle_mineTipset.
    + unfold sameLifeCycle. repeat split; reflexivity.
  - intros [= <-]. do 4 right; left. by eexists.
  - intros Hs. do 5 right. split; [done|].
    destruct (stop b) eqn:E; injection Hs as <-; auto.
  - destruct (mineTipset numNewBlocks b) eqn:E; intros [= <-]; left.
    + by eapply sameLifeCycle_mineTipset.
    + unfold sameLifeCycle. repeat split; reflexivity.
  - destruct (startDeal fuel proposal b) as [[b1 cid]| |] eqn:E; try discriminate.
    intros [= <-]. left. by eapply sameLifeCycle_startDeal.
Qed.

Lemma lifeInv_constructor options : lifeInv (constructor options).
Proof. unfold lifeInv. simpl. repeat split; try done. Qed.

Lemma lifeInv_same b b' : sameLifeCycle b b' -> lifeInv b -> lifeInv b'.
Proof.
  unfold sameLifeCycle, lifeInv. intros Hs Hi.
  repeat match goal with H0 : _ /\ _ |- _ => destruct H0 end.
  repeat match goal with H0 : _ b' = _ b |- _ => rewrite H0; clear H0 end.
  repeat (split; [assumption|]); assumption.
Qed.

Lemma lifeInv_startupBegin b :
  lifeInv b -> startup b = StartupScheduled -> lifeInv (startupBegin b).
Proof.
  unfold lifeInv, startupBegin, readyCount. simpl.
  intros (Hr & Hc & Hs & Ht & Hf & Hl) Hst. rewrite Hst in *.
  destruct (ready b); [pose proof (proj1 Hr eq_refl); discriminate|].
  intuition (try done; try congruence).
Qed.

Lemma lifeInv_startupFailed b :
  lifeInv b -> startup b = StartupAwaiting ->
  lifeInv (set_startup StartupFailed b).
Proof.
  unfold lifeInv, readyCount. simpl.
  intros (Hr & Hc & Hs & Ht & Hf & Hl) Hst. rewrite Hst in *.
  destruct (ready b); [pose proof (proj1 Hr eq_refl); discriminate|].
  intuition (try done; try congruence).
Qed.

Lemma lifeInv_startupFinish b :
  lifeInv b -> startup b = StartupAwaiting -> lifeInv (startupFinish b).
Proof.
  intros (Hr & Hc & Hs & Ht & Hf & Hl) Hst.
  assert (Hrd : ready b = false).
  { destruct (ready b); [|done]. pose proof (proj1 Hr eq_refl). congruence. }
  destruct (Hf Hrd) as (Hres & Hmt & Hia).
  assert (Hsrv : ipfsServer b <> None).
  { intros Hnone. apply Hs in Hnone. congruence. }
  rewrite Hrd in Hc.
  assert (Hcount : readyCount (startupFinish b) = 1%nat).
  { unfold readyCount at 1, startupFinish.
    destruct (negb _ && negb _); cbn [emitted set_startup set_resolved set_emitted];
      rewrite readyCount_app; unfold readyCount in *; simpl; simpl in Hc;
      rewrite Hc; reflexivity. }
  unfold lifeInv. rewrite Hcount. clear Hcount.
  unfold startupFinish.
  destruct (negb (automining _) && negb (bool_decide (blockTime _ = 0))) eqn:Hcond;
    simpl in *.
  - repeat split; try done.
    + destruct (ipfsServer b); done.
    + intros _ k Hk. apply elem_of_app. by right.
  - repeat split; try done.
    + destruct (ipfsServer b); done.
    + intros _ Ha Hbt. rewrite Ha in Hcond. simpl in Hcond.
      apply negb_false_iff, bool_decide_eq_true in Hcond. done.
    + intros _ k Hk. apply elem_of_app. by right.
Qed.

Lemma lifeInv_waitForReady k b : lifeInv b -> lifeInv (waitForReady k b).
Proof.
  unfold lifeInv, waitForReady, readyCount.
  intros (Hr & Hc & Hs & Ht & Hf & Hl).
  destruct (ready b) eqn:Hrd; simpl; rewrite Hrd.
  - repeat split; try done; try apply Hr; try apply Hs; auto.
    intros _ k' Hk'. apply elem_of_app. left. by apply Hl.
  - repeat split; try done; try apply Hr; try apply Hs; try apply Hf; auto.
Qed.

Lemma lifeInv_clearMiningTimeout b :
  lifeInv b -> lifeInv (clearMiningTimeout b).
Proof.
  unfold lifeInv, clearMiningTimeout, readyCount.
  intros (Hr & Hc & Hs & Ht & Hf & Hl).
  destruct (miningTimeout b) eqn:Hmt; simpl; [|by rewrite Hmt].
  rewrite Hmt. repeat split; try done; try apply Hr; try apply Hs; auto.
  all: by destruct (Hf ltac:(assumption)) as (? & ? & ?).
Qed.

Lemma lifeInv_stop b b' : lifeInv b -> stop b = Returned b' -> lifeInv b'.
Proof.
  intros Hi. apply lifeInv_clearMiningTimeout in Hi. revert Hi.
  unfold stop. generalize (clearMiningTimeout b). clear b. intros b Hi.
  destruct (ipfsServer b) as [s|] eqn:Hsrv; [|discriminate].
  intros [= <-]. revert Hi. unfold lifeInv, readyCount. simpl.
  intros (Hr & Hc & Hs & Ht & Hf & Hl).
  repeat split; try done; try apply Hr; try apply Hf; auto.
  intros Hst. apply Hs in Hst. congruence.
Qed.

Lemma lifeInv_run a b b' : lifeInv b -> run a b = Some b' -> lifeInv b'.
Proof.
  intros Hi Hrun.
  destruct (run_lifeCycle a b b' Hrun)
    as [Hs|[(_ & Hst & ->)|[(_ & Hst & ->)|[(_ & Hst & ->)|[(k & _ & ->)|(_ & [Hs| ->])]]]]].
  - by eapply lifeInv_same.
  - by apply lifeInv_startupBegin.
  - by apply lifeInv_startupFinish.
  - by apply lifeInv_startupFailed.
  - by apply lifeInv_waitForReady.
  - by eapply lifeInv_stop.
  - by apply lifeInv_clearMiningTimeout.
Qed.

Lemma lifeInv_runAll l : forall b b',
  lifeInv b -> runAll l b = Some b' -> lifeInv b'.
Proof.
  induction l as [|a l IH]; intros b b' Hi; simpl.
  - by intros [= <-].
  - destruct (run a b) as [b1|] eqn:E; simpl; [|discriminate].
    apply IH. by eapply lifeInv_run.
Qed.

(** C8. The flag [ready] is [false] after the constructor, and as long as
    it is [false] no interval timer is armed and no caller of [waitForReady]
    has been resolved. Along every run it is [true] exactly when the start-up
    callback has run to its end; ["ready"] has then been emitted exactly
    once, and never before. The step that makes the flag [true] is the end of
    the start-up callback, after [start()] of the sidecar resolved: it always
    sets the flag, leaves the sidecar running, arms the interval timer
    exactly when the object is not automining and has a non-zero [blockTime]
    (the handle then being that of [setInterval] called with [blockTime]),
    emits ["ready"] and resolves the callers that were waiting; no other step
    sets the flag and no step makes it [false] again. [waitForReady]
    resolves at once when the flag is [true] and otherwise only registers the
    caller as a listener of ["ready"]. *)
Theorem readiness_one_shot
    (options : BlockchainOptions) (l : list Action) (b : Blockchain) :
  runAll l (constructor options) = Some b ->
  ready (constructor options) = false /\
  (ready b = true <-> startup b = StartupDone) /\
  readyCount b = (if ready b then 1 else 0)%nat /\
  (ready b = true ->
     is_Some (ipfsServer b) /\
     (automining b = false -> blockTime b <> 0 ->
        miningTimeout b = Some (blockTime b))) /\
  (ready b = false -> resolved b = []) /\
  (ready b = true -> forall k, k ∈ readyListeners b -> k ∈ resolved b) /\
  (forall a b', run a b = Some b' ->
     (ready b = true -> ready b' = true /\ readyCount b' = readyCount b) /\
     (ready b = false -> ready b' = true ->
        a = StartResolves /\ startup b = StartupAwaiting /\
        emitted b' = emitted b ++ [EvReady] /\
        resolved b' = readyListeners b /\
        (exists srv, ipfsServer b' = Some srv /\ status srv = ServerRunning) /\
        intervalArmed b' =
          negb (automining b) && negb (bool_decide (blockTime b = 0)) /\
        (intervalArmed b' = true -> miningTimeout b' = Some (blockTime b)) /\
        (intervalArmed b' = false -> miningTimeout b' = None))) /\
  (forall k,
     if ready b
     then resolved (waitForReady k b) = resolved b ++ [k] /\
          readyListeners (waitForReady k b) = readyListeners b
     else resolved (waitForReady k b) = resolved b /\
          readyListeners (waitForReady k b) = readyListeners b ++ [k]) /\
  (ready b = false -> intervalArmed b = false /\ miningTimeout b = None) /\
  (forall b', run StartResolves b = Some b' ->
     ready b = false /\ ready b' = true /\ readyCount b' = 1%nat).
Proof.
  intros Hrun.
  pose proof (lifeInv_runAll l _ b (lifeInv_constructor options) Hrun) as Hi.
  pose proof Hi as (Hr & Hc & Hs & Ht & Hf & Hl).
  split; [reflexivity|]. split; [exact Hr|]. split; [exact Hc|].
  split.
  { intros Hrd. split; [|by apply Ht].
    destruct (ipfsServer b) eqn:E; [by eexists|].
    pose proof (proj2 Hs eq_refl). apply Hr in Hrd. congruence. }
  split; [intros Hrd; by destruct (Hf Hrd)|]. split; [exact Hl|].
  split; [|split; [|split]].
  - intros a b' Ha. pose proof (lifeInv_run a b b' Hi Ha) as Hi'.
    destruct Hi' as (Hr' & Hc' & _).
    destruct (run_lifeCycle a b b' Ha)
      as [Hsame|[(_ & Hst & ->)|[(-> & Hst & ->)|[(_ & Hst & ->)|[(k & _ & ->)|(_ & Hstop)]]]]].
    + destruct Hsame as (Hsr & _ & _ & _ & _ & _ & _ & _ & _ & Hsc).
      rewrite Hsr. split; [done|]. intros Hf0 Ht0. congruence.
    + split.
      * intros Hrd. apply Hr in Hrd. congruence.
      * simpl. intros Hf0 Ht0. congruence.
    + split.
      * intros Hrd. apply Hr in Hrd. congruence.
      * intros Hf0 _. destruct (Hf Hf0) as (Hres & Hmt & Hia).
        split; [done|]. split; [done|].
        assert (Hsrv : exists s0, ipfsServer b = Some s0).
        { destruct (ipfsServer b) eqn:E; [by eexists|].
          pose proof (proj2 Hs eq_refl). congruence. }
        destruct Hsrv as [s0 Hs0].
        unfold startupFinish. simpl.
        destruct (negb (automining b) && negb (bool_decide (blockTime b = 0)));
          simpl; rewrite Hres, Hs0; simpl;
          (split; [done|]); (split; [done|]);
          (split; [by eexists|]); (split; [done|]);
          (split; [intros; congruence|intros; congruence]).
    + split.
      * intros Hrd. apply Hr in Hrd. congruence.
      * simpl. intros Hf0 Ht0. congruence.
    + unfold waitForReady in *. destruct (ready b) eqn:Hrd; simpl in *.
      * split; [|done]. intros _. split; [done|].
        unfold readyCount. reflexivity.
      * split; [done|]. intros _ Ht0. congruence.
    + assert (Hrd' : ready b' = ready b /\ readyCount b' = readyCount b).
      { destruct Hstop as [Hstop| ->].
        - unfold stop, clearMiningTimeout in Hstop.
          destruct (miningTimeout b); simpl in Hstop;
            destruct (ipfsServer b); simplify_eq; done.
        - unfold clearMiningTimeout. by destruct (miningTimeout b). }
      destruct Hrd' as [-> ->]. split; [done|]. intros Hf0 Ht0. congruence.
  - intros k. unfold waitForReady. by destruct (ready b).
  - intros Hf0. destruct (Hf Hf0) as (_ & Hmt & Hia). done.
  - intros b' Ha. pose proof (lifeInv_run _ b b' Hi Ha) as (Hr' & Hc' & _).
    simpl in Ha. case_decide as Hst; [|discriminate]. injection Ha as <-.
    assert (Hrd : ready b = false).
    { destruct (ready b) eqn:E; [|done]. pose proof (proj1 Hr eq_refl). congruence. }
    assert (Hrd' : ready (startupFinish b) = true).
    { unfold startupFinish. simpl.
      by destruct (negb (automining b) && negb (bool_decide (blockTime b = 0))). }
    split; [exact Hrd|]. split; [exact Hrd'|]. by rewrite Hc', Hrd'.
Qed.

Lemma lifeInv_reachable b : reachable b -> lifeInv b.
Proof.
  induction 1 as [options|a b b' Hb IH Hrun];
    [apply lifeInv_constructor|by eapply lifeInv_run].
Qed.

(** Once the start-up callback has created the sidecar, [stop()] returns and
    the interval timer, if one was armed, is cancelled. *)
Lemma stop_after_startupBegin b :
  reachable b -> startup b <> StartupScheduled ->
  exists b', stop b = Returned b' /\
             (is_Some (miningTimeout b) -> intervalArmed b' = false).
Proof.
  intros Hb Hst. destruct (lifeInv_reachable b Hb) as (_ & _ & Hs & _).
  unfold stop, clearMiningTimeout.
  destruct (ipfsServer b) as [srv|] eqn:Esrv; [|by destruct Hst; apply Hs].
  destruct (miningTimeout b) as [t|] eqn:Emt; simpl; rewrite Esrv;
    eexists; (split; [reflexivity|]); simpl; [done|by intros [? ?]].
Qed.

End BlockchainFacts.

(** ** The checkpoint system *)

Section LedgerFacts.
Import Ledger.
Context `{Engine}.

(** *** The storage cache: what a reader sees *)

Lemma read_value k c : (read k c).1 = contents c !! k.
Proof.
  unfold read, contents. rewrite lookup_union.
  destruct (memory c !! k) as [v|] eqn:Em; simpl.
  - by destruct (durable c !! k).
  - by destruct (durable c !! k).
Qed.

Lemma read_contents k c : contents (read k c).2 = contents c.
Proof.
  unfold read, contents.
  destruct (memory c !! k) as [v|] eqn:Em; [done|].
  destruct (durable c !! k) as [v|] eqn:Ed; [|done]. simpl.
  apply map_eq. intros k'. rewrite !lookup_union.
  destruct (decide (k = k')) as [->|Hne].
  - rewrite lookup_insert_eq, Em, Ed. reflexivity.
  - by rewrite lookup_insert_ne.
Qed.

Lemma evict_contents k c : contents (evict k c) = contents c.
Proof.
  unfold evict, contents.
  destruct (memory c !! k) as [v|] eqn:Em; [|done]. simpl.
  apply map_eq. intros k'. rewrite !lookup_union.
  destruct (decide (k = k')) as [->|Hne].
  - rewrite lookup_delete_eq, lookup_insert_eq, Em. simpl.
    by destruct (durable c !! k').
  - by rewrite lookup_delete_ne, lookup_insert_ne.
Qed.

Lemma restore_contents capture c : contents (restore capture c) = capture.
Proof. unfold restore, contents. simpl. apply (left_id_L ∅ (∪)). Qed.

Lemma commit_contents c : contents (commit c).2 = contents c.
Proof.
  unfold commit, contents. simpl.
  apply map_eq. intros k. rewrite !lookup_union.
  destruct (memory c !! k), (durable c !! k); reflexivity.
Qed.

(** After a restore a read is answered by the captured contents, whatever
    the memory tier held before. *)
Lemma read_after_restore k capture c :
  (read k (restore capture c)).1 = capture !! k.
Proof. by rewrite read_value, restore_contents. Qed.

(** *** Looking up a checkpoint *)

Lemma findCheckpoint_cons id c cps :
  findCheckpoint id (c :: cps) =
  if decide (cpId c = id) then Some c else findCheckpoint id cps.
Proof.
  unfold findCheckpoint. simpl. case_decide; [done|].
  by destruct (list_find _ cps) as [[? ?]|].
Qed.

Lemma findCheckpoint_Some id cps c :
  findCheckpoint id cps = Some c -> c ∈ cps /\ cpId c = id.
Proof.
  induction cps as [|c0 cps IH]; [done|].
  rewrite findCheckpoint_cons. case_decide.
  - intros [= <-]. split; [left|done].
  - intros Hf. destruct (IH Hf). split; [by right|done].
Qed.

Lemma findCheckpoint_None id cps :
  findCheckpoint id cps = None <-> forall c, c ∈ cps -> cpId c <> id.
Proof.
  induction cps as [|c0 cps IH].
  - split; [|done]. intros _ c Hc. by apply elem_of_nil in Hc.
  - rewrite findCheckpoint_cons. case_decide as Hid.
    + split; [done|]. intros Hall. destruct (Hall c0); [left|done].
    + rewrite IH. split.
      * intros Hall c Hc. apply elem_of_cons in Hc as [->|Hc]; auto.
      * intros Hall c Hc. apply Hall. by right.
Qed.

Lemma findCheckpoint_app id cps l :
  findCheckpoint id (cps ++ l) =
  match findCheckpoint id cps with
  | Some c => Some c
  | None => findCheckpoint id l
  end.
Proof.
  induction cps as [|c0 cps IH]; [done|].
  rewrite <- app_comm_cons, !findCheckpoint_cons. by case_decide.
Qed.

Lemma markReverted_id id c : cpId (markReverted id c) = cpId c.
Proof. unfold markReverted. by case_decide. Qed.

Lemma findCheckpoint_markReverted id j cps :
  findCheckpoint id (markReverted j <$> cps) =
  markReverted j <$> findCheckpoint id cps.
Proof.
  induction cps as [|c0 cps IH]; [done|].
  rewrite fmap_cons, !findCheckpoint_cons, markReverted_id. by case_decide.
Qed.

Lemma revert_cases id st :
  (revert id st = Returned (false, st) /\ statusOf id st <> Some CpActive) \/
  (exists c, findCheckpoint id (checkpoints st) = Some c /\
             cpStatus c = CpActive /\
             ((chainLength c < length (chain st))%nat /\
                revert id st = Returned (true, revertedTo id c st) \/
              (length (chain st) <= chainLength c)%nat /\
                revert id st = Thrown RangeError)).
Proof.
  unfold revert, statusOf.
  destruct (findCheckpoint id (checkpoints st)) as [c|] eqn:Ef; [|by left].
  destruct (cpStatus c) eqn:Es; simpl.
  - right. exists c. split; [done|]. split; [done|].
    unfold truncateTo. case_decide; [left|right]; (split; [lia|done]).
  - left. rewrite Es. done.
Qed.

Lemma latest_is_Some (c : list LBlock) : c <> [] -> is_Some (latest c).
Proof. intros Hne. unfold latest. by apply last_is_Some. Qed.

Lemma produceOne_returns root ops st :
  chain st <> [] ->
  exists l,
    latest (chain st) = Some l /\
    produceOne root ops st =
    Returned
      {| chain := chain st ++ [producedBlock root ops l]; cache := cache st;
         nextOperation := nextOperation st;
         checkpoints := checkpoints st; nextId := nextId st;
         entities := (advanceAll (entities st) (pendingSet st)).1;
         pendingSet := (advanceAll (entities st) (pendingSet st)).2 |}.
Proof.
  intros Hne. destruct (latest_is_Some _ Hne) as [l Hl]. exists l.
  split; [done|]. unfold produceOne, append. rewrite Hl. simpl.
  rewrite decide_True by done. simpl.
  by destruct (advanceAll (entities st) (pendingSet st)).
Qed.

(** *** The shape of a call: the ledger grows, a checkpoint is taken, or
    the ledger is rolled back *)

Lemma opsBelow_nil bound : opsBelow bound [].
Proof. intros blk r rc Hb. by apply elem_of_nil in Hb. Qed.

Lemma opsBelow_app bound l1 l2 :
  opsBelow bound l1 -> opsBelow bound l2 -> opsBelow bound (l1 ++ l2).
Proof.
  intros H1 H2 blk r rc Hb. apply elem_of_app in Hb as [Hb|Hb]; eauto.
Qed.

Lemma opsBelow_le bound bound' l :
  (bound <= bound')%nat -> opsBelow bound l -> opsBelow bound' l.
Proof. intros Hle Hl blk r rc Hb Hr. specialize (Hl blk r rc Hb Hr). lia. Qed.

Lemma grows_refl st : grows st st.
Proof.
  repeat split; try done. exists []. split; [by rewrite app_nil_r|].
  apply opsBelow_nil.
Qed.

Lemma grows_withCache c st : grows st (withCache c st).
Proof.
  repeat split; try done. exists []. split; [by rewrite app_nil_r|].
  apply opsBelow_nil.
Qed.

Lemma grows_trans st1 st2 st3 : grows st1 st2 -> grows st2 st3 -> grows st1 st3.
Proof.
  intros ((e1 & Hc1 & Ho1) & Hk1 & Hi1 & Hn1) ((e2 & Hc2 & Ho2) & Hk2 & Hi2 & Hn2).
  repeat split; try congruence; try lia.
  exists (e1 ++ e2). split; [by rewrite Hc2, Hc1, app_assoc|].
  apply opsBelow_app; [|done]. by eapply opsBelow_le.
Qed.

Lemma produceOne_grows root ops st st' :
  (forall r rc, (r, rc) ∈ ops -> (r < nextOperation st)%nat) ->
  produceOne root ops st = Returned st' -> grows st st'.
Proof.
  intros Hops. destruct (decide (chain st = [])) as [Hnil|Hne].
  - unfold produceOne, latest. by rewrite Hnil.
  - destruct (produceOne_returns root ops st Hne) as (l & Hl & ->).
    intros [= <-]. repeat split; try done. eexists. split; [done|].
    intros blk r rc Hb Hr. apply list_elem_of_singleton in Hb as ->. simpl in *.
    eauto.
Qed.

Lemma produceBlock_grows count : forall st st',
  produceBlock count st = Returned st' -> grows st st'.
Proof.
  induction count as [|count IH]; intros st st'; simpl.
  - intros [= <-]. apply grows_refl.
  - destruct (produceOne _ [] st) as [st1| |] eqn:E; simpl; try discriminate.
    intros Hrest. eapply grows_trans; [|by apply IH].
    eapply produceOne_grows; [|exact E]. intros r rc Hr.
    by apply elem_of_nil in Hr.
Qed.

Lemma submitOperation_grows p st ref st' :
  submitOperation p st = Returned (ref, st') -> grows st st'.
Proof.
  unfold submitOperation.
  destruct (commit _) as [root cache'] eqn:Ec.
  match goal with |- context [produceOne ?r ?o ?s] =>
    destruct (produceOne r o s) as [st1| |] eqn:E end; simpl; try discriminate.
  intros [= <- <-]. apply produceOne_grows in E.
  - destruct E as ((ext & Hc & Ho) & Hk & Hi & Hn). simpl in *.
    repeat split; try done; [|lia]. by exists ext.
  - intros r rc Hr. apply list_elem_of_singleton in Hr as [= -> ->]. simpl. lia.
Qed.

Lemma call_shape c st :
  grows st (call c st) \/
  call c st = (snapshot st).2 \/
  (exists id cp,
      findCheckpoint id (checkpoints st) = Some cp /\
      cpStatus cp = CpActive /\
      (chainLength cp < length (chain st))%nat /\
      call c st = revertedTo id cp st).
Proof.
  destruct c as [p|count| |k|k| |id]; simpl.
  - left. unfold stateAfter.
    destruct (submitOperation p st) as [[ref st']| |] eqn:E;
      [by eapply submitOperation_grows|apply grows_refl..].
  - left. destruct (produceBlock count st) as [st'| |] eqn:E;
      [by eapply produceBlock_grows|apply grows_refl..].
  - left. repeat split; try done. exists []. split; [by rewrite app_nil_r|].
    apply opsBelow_nil.
  - left. unfold readStorage. destruct (read k (cache st)). apply grows_withCache.
  - left. apply grows_withCache.
  - right; left. done.
  - destruct (revert_cases id st)
      as [[-> _]|(cp & Hf & Ha & [[Hlt ->]|[Hge ->]])]; simpl.
    + left. apply grows_refl.
    + right; right. by exists id, cp.
    + left. apply grows_refl.
Qed.

(** *** The invariant of the ledger *)

Lemma wf_initial : wf initial.
Proof.
  split; simpl; try done.
  - intros c Hc. by apply elem_of_nil in Hc.
  - intros c Hc. by apply elem_of_nil in Hc.
  - intros c c' Hc. by apply elem_of_nil in Hc.
  - intros blk r rc Hb Hr. apply list_elem_of_singleton in Hb as ->.
    by apply elem_of_nil in Hr.
Qed.

Lemma wf_grows st st' : wf st -> grows st st' -> wf st'.
Proof.
  intros [Hc Hn1 Hi Hb Hm Hr] ((ext & Hch & Ho) & Hk & Hid & Hn).
  split.
  - rewrite Hch. intros Habs. apply app_eq_nil in Habs as [? _]. done.
  - by rewrite Hid.
  - rewrite Hk, Hid. exact Hi.
  - rewrite Hk, Hch, length_app. intros c Hcin Ha.
    specialize (Hb c Hcin Ha). lia.
  - rewrite Hk. exact Hm.
  - rewrite Hch. apply opsBelow_app; [|done]. by eapply opsBelow_le.
Qed.

Lemma chain_length_pos st : chain st <> [] -> (0 < length (chain st))%nat.
Proof. destruct (chain st); [done|simpl; lia]. Qed.

Lemma wf_snapshot st : wf st -> wf (snapshot st).2.
Proof.
  intros [Hc Hn1 Hi Hb Hm Hr]. pose proof (chain_length_pos st Hc) as Hpos.
  split; simpl; try done; try lia.
  - intros c Hcin. apply elem_of_app in Hcin as [Hcin|Hcin].
    + specialize (Hi c Hcin). lia.
    + apply list_elem_of_singleton in Hcin as ->. simpl. lia.
  - intros c Hcin Ha. apply elem_of_app in Hcin as [Hcin|Hcin]; [by apply Hb|].
    apply list_elem_of_singleton in Hcin as ->. simpl. lia.
  - intros c c' Hcin Hcin' Ha Ha' Hle.
    apply elem_of_app in Hcin as [Hcin|Hcin];
      apply elem_of_app in Hcin' as [Hcin'|Hcin'].
    + by apply Hm.
    + apply list_elem_of_singleton in Hcin' as ->. simpl.
      specialize (Hb c Hcin Ha). lia.
    + apply list_elem_of_singleton in Hcin as ->. simpl in *.
      specialize (Hi c' Hcin'). lia.
    + apply list_elem_of_singleton in Hcin as ->.
      apply list_elem_of_singleton in Hcin' as ->. done.
Qed.

Lemma markReverted_active id c :
  cpStatus (markReverted id c) = CpActive <->
  cpStatus c = CpActive /\ cpId c < id.
Proof.
  unfold markReverted. case_decide; simpl.
  - split; [done|]. intros [_ ?]. lia.
  - split; [|by intros [? _]]. intros Ha. split; [done|lia].
Qed.

Lemma markReverted_chainLength id c :
  chainLength (markReverted id c) = chainLength c.
Proof. unfold markReverted. by case_decide. Qed.

Lemma wf_revertedTo id cp st :
  wf st ->
  findCheckpoint id (checkpoints st) = Some cp ->
  cpStatus cp = CpActive ->
  (chainLength cp < length (chain st))%nat ->
  wf (revertedTo id cp st).
Proof.
  intros [Hc Hn1 Hi Hb Hm Hr] Hf Ha Hlt.
  apply findCheckpoint_Some in Hf as [Hcp Hid].
  split; simpl; try done.
  - destruct (chain st); [done|]. simpl. done.
  - intros c Hcin. apply list_elem_of_fmap in Hcin as (c0 & -> & Hc0).
    rewrite markReverted_id. by apply Hi.
  - intros c Hcin Hact. apply list_elem_of_fmap in Hcin as (c0 & -> & Hc0).
    apply markReverted_active in Hact as [Hact Hlt0].
    rewrite markReverted_chainLength, length_take.
    assert (chainLength c0 <= chainLength cp)%nat; [|lia].
    apply Hm; try done. lia.
  - intros c c' Hcin Hcin' Hact Hact' Hle.
    apply list_elem_of_fmap in Hcin as (c0 & -> & Hc0).
    apply list_elem_of_fmap in Hcin' as (c0' & -> & Hc0').
    apply markReverted_active in Hact as [Hact _].
    apply markReverted_active in Hact' as [Hact' _].
    rewrite !markReverted_chainLength. rewrite !markReverted_id in Hle.
    by apply Hm.
  - intros blk r rc Hb0 Hr0. eapply Hr; [|exact Hr0].
    apply elem_of_take in Hb0 as (i & Hi0 & _).
    by eapply list_elem_of_lookup_2.
Qed.

Lemma wf_call c st : wf st -> wf (call c st).
Proof.
  intros Hwf.
  destruct (call_shape c st) as [Hg|[->|(id & cp & Hf & Ha & Hlt & ->)]].
  - by eapply wf_grows.
  - by apply wf_snapshot.
  - by apply wf_revertedTo.
Qed.

Lemma wf_calls l : forall st, wf st -> wf (calls l st).
Proof.
  induction l as [|c l IH]; intros st Hwf; [done|].
  simpl. apply IH. by apply wf_call.
Qed.

Lemma wf_reachable st : Ledger.reachable st -> wf st.
Proof. intros [l ->]. apply wf_calls, wf_initial. Qed.

(** *** Reverted is final *)

Lemma statusOf_grows id st st' : grows st st' -> statusOf id st' = statusOf id st.
Proof. intros (_ & Hk & _). unfold statusOf. by rewrite Hk. Qed.

Lemma statusOf_snapshot id st :
  id < nextId st -> statusOf id (snapshot st).2 = statusOf id st.
Proof.
  intros Hlt. unfold statusOf. simpl. rewrite findCheckpoint_app.
  destruct (findCheckpoint id (checkpoints st)); [done|].
  rewrite findCheckpoint_cons. simpl. rewrite decide_False by lia. done.
Qed.

Lemma statusOf_revertedTo id j cp st :
  statusOf id (revertedTo j cp st) =
  (fun s => if decide (j <= id) then CpReverted else s) <$> statusOf id st.
Proof.
  unfold statusOf. simpl. rewrite findCheckpoint_markReverted.
  destruct (findCheckpoint id (checkpoints st)) as [c|] eqn:Ef; [|done].
  apply findCheckpoint_Some in Ef as [_ <-]. simpl. unfold markReverted.
  by case_decide.
Qed.

Lemma nextId_call c st : nextId st <= nextId (call c st).
Proof.
  destruct (call_shape c st) as [Hg|[->|(id & cp & _ & _ & _ & ->)]]; simpl;
    try lia.
  destruct Hg as (_ & _ & -> & _). lia.
Qed.

Lemma reverted_call c id st :
  id < nextId st -> statusOf id st = Some CpReverted ->
  statusOf id (call c st) = Some CpReverted.
Proof.
  intros Hlt Hs.
  destruct (call_shape c st) as [Hg|[->|(j & cp & _ & _ & _ & ->)]].
  - by rewrite (statusOf_grows id st).
  - by rewrite statusOf_snapshot.
  - rewrite statusOf_revertedTo, Hs. simpl. by case_decide.
Qed.

Lemma reverted_calls l : forall id st,
  id < nextId st -> statusOf id st = Some CpReverted ->
  statusOf id (calls l st) = Some CpReverted.
Proof.
  induction l as [|c l IH]; intros id st Hlt Hs; [done|].
  simpl. apply IH.
  - pose proof (nextId_call c st). lia.
  - by apply reverted_call.
Qed.

Lemma revert_not_active id st :
  statusOf id st <> Some CpActive -> revert id st = Returned (false, st).
Proof.
  intros Hs. destruct (revert_cases id st) as [[-> _]|(cp & Hf & Ha & _)]; [done|].
  destruct Hs. unfold statusOf. rewrite Hf. simpl. by rewrite Ha.
Qed.

Lemma statusOf_issued id st s :
  wf st -> statusOf id st = Some s -> 1 <= id < nextId st.
Proof.
  intros Hwf. unfold statusOf.
  destruct (findCheckpoint id (checkpoints st)) as [c|] eqn:Ef; [|done].
  intros _. apply findCheckpoint_Some in Ef as [Hc <-]. by apply (wf_ids st).
Qed.

Lemma revert_active id st :
  wf st -> statusOf id st = Some CpActive ->
  exists cp, findCheckpoint id (checkpoints st) = Some cp /\
             revert id st = Returned (true, revertedTo id cp st).
Proof.
  intros Hwf Hs.
  destruct (revert_cases id st) as [[_ Hn]|(cp & Hf & Ha & [[Hlt Hr]|[Hge _]])];
    [done|by exists cp|].
  apply findCheckpoint_Some in Hf as [Hc _].
  pose proof (wf_bound st Hwf cp Hc Ha). lia.
Qed.

(** C2. With two active checkpoints, [s1] taken before [s2]: [revert(s1)]
    returns [true] and marks [s1] and every checkpoint created after it,
    [s2] among them, Reverted; a following [revert(s2)] returns [false], and
    so does a following [revert(s1)]. In general a checkpoint whose revert
    has succeeded never succeeds again, whatever is called in between. *)
Theorem revert_cascade_once (st : State) :
  Ledger.reachable st ->
  (forall s1 s2 : Z,
      statusOf s1 st = Some CpActive ->
      statusOf s2 st = Some CpActive ->
      s1 < s2 ->
      exists st',
        revert s1 st = Returned (true, st') /\
        (forall id, s1 <= id -> is_Some (statusOf id st) ->
                    statusOf id st' = Some CpReverted) /\
        revert s2 st' = Returned (false, st') /\
        revert s1 st' = Returned (false, st')) /\
  (forall (id : Z) (st' : State),
      revert id st = Returned (true, st') ->
      forall l : list Call,
        revert id (calls l st') = Returned (false, calls l st')).
Proof.
  intros Hreach. pose proof (wf_reachable st Hreach) as Hwf. split.
  - intros s1 s2 H1 H2 Hlt.
    destruct (revert_active s1 st Hwf H1) as (cp & Hf & Hr).
    exists (revertedTo s1 cp st). split; [exact Hr|].
    assert (Hall : forall id, s1 <= id -> is_Some (statusOf id st) ->
                   statusOf id (revertedTo s1 cp st) = Some CpReverted).
    { intros id Hle [s Hs]. rewrite statusOf_revertedTo, Hs. simpl.
      by rewrite decide_True. }
    split; [exact Hall|].
    split; apply revert_not_active; rewrite Hall; try done; try lia;
      by rewrite ?H1, ?H2.
  - intros id st' Hr l.
    destruct (revert_cases id st)
      as [[Hr' _]|(cp & Hf & Ha & [[Hlt Hr']|[_ Hr']])];
      rewrite Hr' in Hr; try discriminate.
    injection Hr as <-.
    assert (Hs : statusOf id st = Some CpActive).
    { unfold statusOf. rewrite Hf. simpl. by rewrite Ha. }
    pose proof (statusOf_issued id st _ Hwf Hs) as Hi.
    apply revert_not_active. rewrite reverted_calls; simpl; try done; try lia.
    rewrite statusOf_revertedTo, Hs. simpl. by rewrite decide_True.
Qed.

(** *** Identifiers at the boundary *)

Lemma revert_never_issued id st :
  wf st -> id < 1 \/ nextId st <= id -> revert id st = Returned (false, st).
Proof.
  intros Hwf Hid. apply revert_not_active. intros Hs.
  apply (statusOf_issued id st _ Hwf) in Hs. lia.
Qed.

Lemma revert_returns id st :
  wf st -> exists r st', revert id st = Returned (r, st').
Proof.
  intros Hwf. destruct (statusOf id st) as [[]|] eqn:Hs.
  - destruct (revert_active id st Hwf Hs) as (cp & _ & ->). by do 2 eexists.
  - exists false, st. apply revert_not_active. congruence.
  - exists false, st. apply revert_not_active. congruence.
Qed.

(** C3. At the boundary of [evm_revert] an object, a boolean, a non-finite
    number or a fraction is rejected as an encoding failure and the ledger
    is not touched; [null] and an absent value are rejected as a usage failure;
    an integer (also one given as a buffer) is passed to [revert]. [revert]
    never throws, and for an id that was never issued (below 1, or not yet
    reached by the counter) it returns [false] and changes nothing, as often
    as it is called. *)
Theorem evm_revert_classification (st : State) :
  Ledger.reachable st ->
  (forall v, v = JsObject \/ (exists b, v = JsBool b) \/ v = JsNum PosInfinity \/
             v = JsNum NegInfinity \/ v = JsNum NaN ->
     evm_revert v st = (RejectedEncoding, st)) /\
  (forall num den, num mod Z.pos den <> 0 ->
     evm_revert (JsNum (Finite num den)) st = (RejectedEncoding, st)) /\
  (forall v, v = JsNull \/ v = JsUndefined ->
     evm_revert v st = (RejectedUsage, st)) /\
  (forall z : Z, classify (JsNum (Finite z 1)) = ToRevert z) /\
  (forall bytes, classify (JsBuffer bytes) = ToRevert (bufferValue bytes)) /\
  (forall v z, classify v = ToRevert z -> z < 1 \/ nextId st <= z ->
     revert z st = Returned (false, st) /\
     evm_revert v st = (Replied false, st) /\
     forall n : nat,
       calls (replicate n (Revert z)) st = st /\
       (evm_revert v (calls (replicate n (Revert z)) st)).1 = Replied false) /\
  (forall z, exists r st', revert z st = Returned (r, st')).
Proof.
  intros Hreach. pose proof (wf_reachable st Hreach) as Hwf.
  split; [|split; [|split; [|split; [|split; [|split]]]]].
  - intros v [->|[[b ->]|[->|[->| ->]]]]; reflexivity.
  - intros num den Hnd. unfold evm_revert, classify. by rewrite decide_False.
  - intros v [->| ->]; reflexivity.
  - intros z. unfold classify. rewrite Z.mod_1_r, decide_True by done.
    by rewrite Z.div_1_r.
  - reflexivity.
  - intros v z Hv Hz. pose proof (revert_never_issued z st Hwf Hz) as Hr.
    assert (He : evm_revert v st = (Replied false, st)).
    { unfold evm_revert. by rewrite Hv, Hr. }
    split; [exact Hr|]. split; [exact He|].
    intros n. assert (Hn : calls (replicate n (Revert z)) st = st).
    { induction n as [|n IH]; [done|]. simpl. by rewrite Hr. }
    rewrite Hn, He. done.
  - intros z. by apply revert_returns.
Qed.

(** *** What an active checkpoint keeps of the moment it was taken *)

Lemma keeps_snapshot st : wf st -> keeps (nextId st) st (snapshot st).2.
Proof.
  intros Hwf. split; [simpl; lia|]. intros _. split.
  - eexists. split.
    + simpl. rewrite findCheckpoint_app.
      destruct (findCheckpoint (nextId st) (checkpoints st)) as [c|] eqn:Ef.
      * apply findCheckpoint_Some in Ef as [Hc Hid].
        pose proof (wf_ids st Hwf c Hc). lia.
      * rewrite findCheckpoint_cons. simpl. by rewrite decide_True.
    + done.
  - simpl. by rewrite firstn_all.
Qed.

Lemma take_prefix_length {A} (l1 l : list A) :
  take (length l1) l = l1 -> (length l1 <= length l)%nat.
Proof.
  intros Ht. pose proof (f_equal length Ht) as Hl.
  rewrite length_take in Hl. lia.
Qed.

Lemma keeps_call c s st1 st :
  chain st1 <> [] -> wf st -> keeps s st1 st -> keeps s st1 (call c st).
Proof.
  intros Hne Hwf [Hlt Hk].
  split; [pose proof (nextId_call c st); lia|].
  destruct (call_shape c st) as [Hg|[->|(j & cp & Hf & Ha & Hb & ->)]].
  - rewrite (statusOf_grows s st) by done. intros Hs.
    destruct (Hk Hs) as [Hc Ht]. destruct Hg as ((ext & -> & _) & -> & _).
    split; [exact Hc|].
    rewrite take_app_le by (by apply take_prefix_length). exact Ht.
  - rewrite statusOf_snapshot by done. intros Hs.
    destruct (Hk Hs) as [(c0 & Hc0 & Hcl & Hh) Ht]. split; [|exact Ht].
    exists c0. simpl. rewrite findCheckpoint_app, Hc0. done.
  - rewrite statusOf_revertedTo. intros Hs.
    destruct (statusOf s st) as [s0|] eqn:Hs0; [|done]. simpl in Hs.
    case_decide as Hj; [done|]. injection Hs as ->.
    destruct (Hk eq_refl) as [(c0 & Hc0 & Hcl & Hh) Ht]. split.
    + exists c0. simpl. rewrite findCheckpoint_markReverted, Hc0. simpl.
      split; [|done]. unfold markReverted.
      apply findCheckpoint_Some in Hc0 as [_ Hid]. rewrite Hid.
      by rewrite decide_False.
    + simpl. rewrite take_take.
      assert (Hle : (chainLength c0 <= chainLength cp)%nat).
      { pose proof Hc0 as Hc0'. pose proof Hf as Hf'.
        apply findCheckpoint_Some in Hc0' as [Hin0 Hid0].
        apply findCheckpoint_Some in Hf' as [Hinp Hidp].
        apply (wf_mono st Hwf); try done.
        - unfold statusOf in Hs0. rewrite Hc0 in Hs0. by injection Hs0.
        - lia. }
      pose proof (chain_length_pos st1 Hne).
      replace (length (chain st1) `min` S (chainLength cp))%nat
        with (length (chain st1)) by lia.
      exact Ht.
Qed.

Lemma keeps_calls l : forall s st1 st,
  chain st1 <> [] -> wf st -> keeps s st1 st -> keeps s st1 (calls l st).
Proof.
  induction l as [|c l IH]; intros s st1 st Hne Hwf Hk; [done|].
  simpl. apply IH; [done|by apply wf_call|by apply keeps_call].
Qed.

(** A successful revert to the checkpoint taken at [st1] puts back the chain
    and the storage contents of [st1]. *)
Lemma revert_restores st0 l st3 :
  wf st0 ->
  revert (snapshot st0).1 (calls l (snapshot st0).2) = Returned (true, st3) ->
  chain st3 = chain st0 /\ contents (cache st3) = contents (cache st0) /\
  wf st3 /\ entities st3 = entities st0 /\ pendingSet st3 = pendingSet st0.
Proof.
  intros Hwf Hr. set (st1 := (snapshot st0).2) in *.
  set (s := (snapshot st0).1) in *.
  assert (Hwf1 : wf st1) by (by apply wf_snapshot).
  assert (Hwf2 : wf (calls l st1)) by (by apply wf_calls).
  pose proof (keeps_calls l s st0 st1 (wf_chain _ Hwf) Hwf1 (keeps_snapshot st0 Hwf))
    as [_ Hk].
  destruct (revert_cases s (calls l st1))
    as [[Hr' _]|(cp & Hf & Ha & [[Hlt Hr']|[_ Hr']])];
    rewrite Hr' in Hr; try discriminate.
  injection Hr as <-.
  destruct Hk as [(c0 & Hc0 & Hcl & Hh & He & Hp) Ht].
  { unfold statusOf. rewrite Hf. simpl. by rewrite Ha. }
  rewrite Hf in Hc0. injection Hc0 as <-.
  split; [|split; [|split; [|split]]].
  - simpl. rewrite Hcl.
    pose proof (chain_length_pos st0 (wf_chain _ Hwf)).
    replace (S (length (chain st0) - 1)) with (length (chain st0)) by lia.
    exact Ht.
  - simpl. by rewrite restore_contents.
  - by apply wf_revertedTo.
  - exact He.
  - exact Hp.
Qed.

(** *** Repeating an operation *)

Lemma write_contents k v c : contents (write k v c) = <[k := v]> (contents c).
Proof. unfold write, contents. simpl. by rewrite insert_union_l. Qed.

Lemma writeAll_contents ws : forall c,
  contents (writeAll ws c) = applyWrites ws (contents c).
Proof.
  induction ws as [|w ws IH]; intros c; [done|].
  unfold writeAll, applyWrites in *. simpl. by rewrite IH, write_contents.
Qed.

Lemma lookupOperation_app ref l1 l2 :
  lookupOperation ref (l1 ++ l2) =
  match lookupOperation ref l1 with
  | Some rc => Some rc
  | None => lookupOperation ref l2
  end.
Proof.
  induction l1 as [|[r rc] l1 IH]; [done|]. simpl. by case_decide.
Qed.

Lemma lookupOperation_fresh ref l :
  (forall r rc, (r, rc) ∈ l -> r <> ref) -> lookupOperation ref l = None.
Proof.
  induction l as [|[r rc] l IH]; [done|]. intros Hall. simpl.
  rewrite decide_False by (apply (Hall r rc); left).
  apply IH. intros r' rc' Hin. apply (Hall r' rc'). by right.
Qed.

Lemma receiptFor_fresh ref c :
  opsBelow ref c -> receiptFor ref c = None.
Proof.
  intros Hb. apply lookupOperation_fresh. intros r rc Hin.
  apply list_elem_of_join in Hin as (ops & Hin & Hops).
  apply list_elem_of_fmap in Hops as (blk & -> & Hblk).
  specialize (Hb blk r rc Hblk Hin). lia.
Qed.

(** The receipt an operation gets depends on the chain length and on the
    storage contents it runs against, and so do the contents it leaves. *)
Lemma submitOperation_result p st :
  wf st ->
  exists st',
    submitOperation p st = Returned (nextOperation st, st') /\
    getReceipt (nextOperation st) st' =
      Some {| blockRef := length (chain st);
              success := ok (execute p (contents (cache st)));
              returned := returnData (execute p (contents (cache st)));
              writes := storageWrites (execute p (contents (cache st))) |} /\
    contents (cache st') =
      applyWrites (storageWrites (execute p (contents (cache st))))
                  (contents (cache st)) /\
    length (chain st') = S (length (chain st)).
Proof.
  intros Hwf. unfold submitOperation.
  set (r := execute p (contents (cache st))).
  destruct (commit (writeAll (storageWrites r) (cache st))) as [root cache'] eqn:Ec.
  match goal with |- context [produceOne ?a ?o ?s] =>
    destruct (produceOne_returns a o s) as (l & Hl & ->) end;
    [exact (wf_chain _ Hwf)|].
  simpl. eexists. split; [reflexivity|]. simpl. split; [|split].
  - unfold getReceipt, receiptFor. simpl.
    rewrite fmap_app, join_app, lookupOperation_app.
    fold (receiptFor (nextOperation st) (chain st)).
    rewrite receiptFor_fresh by exact (wf_refs _ Hwf).
    simpl. by rewrite decide_True.
  - pose proof (commit_contents (writeAll (storageWrites r) (cache st))) as Hcc.
    rewrite Ec in Hcc. simpl in Hcc. by rewrite Hcc, writeAll_contents.
  - rewrite length_app. simpl. lia.
Qed.

Lemma readOnly_calls l : forall st,
  Forall readOnly l ->
  chain (calls l st) = chain st /\
  contents (cache (calls l st)) = contents (cache st).
Proof.
  induction l as [|c l IH]; intros st Hro; [done|].
  apply Forall_cons in Hro as [Hc Hro]. simpl.
  destruct (IH (call c st) Hro) as [-> ->].
  destruct c; try done; simpl.
  - unfold readStorage. pose proof (read_contents k (cache st)).
    by destruct (read k (cache st)).
  - by rewrite evict_contents.
Qed.

Lemma readStorage_value k st : (readStorage k st).1 = contents (cache st) !! k.
Proof.
  unfold readStorage. pose proof (read_value k (cache st)).
  by destruct (read k (cache st)).
Qed.

(** C1. After [s = snapshot()] and any sequence of calls (operations,
    entity registrations, produced blocks, reads that populate the memory
    tier, evictions, further snapshots and reverts), a [revert(s)] that
    returns [true] puts the chain back, so that every receipt lookup answers
    as it did when [s] was taken, every account or storage read returns the
    value it had then, and every dependent entity is in the state it had
    then, the pending set included. An operation first run after the
    snapshot (reads and evictions in between allowed) and repeated after the
    revert gets the same receipt and leaves the same storage: nothing the
    memory tier held survives the revert. *)
Theorem revert_round_trip (st0 : State) (l : list Call) (st3 : State) :
  Ledger.reachable st0 ->
  revert (snapshot st0).1 (calls l (snapshot st0).2) = Returned (true, st3) ->
  chain st3 = chain (snapshot st0).2 /\
  (forall ref, getReceipt ref st3 = getReceipt ref (snapshot st0).2) /\
  (forall k, (readStorage k st3).1 = (readStorage k (snapshot st0).2).1) /\
  (forall i, entityState i st3 = entityState i (snapshot st0).2) /\
  pendingSet st3 = pendingSet (snapshot st0).2 /\
  (forall l1 p l2 refA stA,
      l = l1 ++ SubmitOperation p :: l2 ->
      Forall readOnly l1 ->
      submitOperation p (calls l1 (snapshot st0).2) = Returned (refA, stA) ->
      exists refB stB,
        submitOperation p st3 = Returned (refB, stB) /\
        getReceipt refB stB = getReceipt refA stA /\
        forall k, (readStorage k stB).1 = (readStorage k stA).1).
Proof.
  intros Hreach Hr. pose proof (wf_reachable st0 Hreach) as Hwf.
  destruct (revert_restores st0 l st3 Hwf Hr) as (Hc & Hs & Hwf3 & He & Hp).
  split; [exact Hc|]. split; [|split; [|split; [|split]]].
  - intros ref. unfold getReceipt. by rewrite Hc.
  - intros k. rewrite !readStorage_value. simpl. by rewrite Hs.
  - intros i. unfold entityState. simpl. by rewrite He.
  - exact Hp.
  - intros l1 p l2 refA stA _ Hro HA.
    destruct (readOnly_calls l1 (snapshot st0).2 Hro) as [Hc1 Hs1].
    assert (Hwf1 : wf (calls l1 (snapshot st0).2)).
    { by apply wf_calls, wf_snapshot. }
    destruct (submitOperation_result p _ Hwf1) as (stA' & HA' & HrA & HcA & _).
    assert (Heq : refA = nextOperation (calls l1 (snapshot st0).2) /\ stA = stA')
      by (split; congruence).
    destruct Heq as [-> ->].
    destruct (submitOperation_result p st3 Hwf3) as (stB & HB & HrB & HcB & _).
    exists (nextOperation st3), stB. split; [exact HB|]. split.
    + rewrite HrA, HrB, Hc, Hs, Hc1, Hs1. reflexivity.
    + intros k. rewrite !readStorage_value, HcA, HcB, Hs, Hs1. reflexivity.
Qed.

End LedgerFacts.

(** ** The theorems at the concrete runs *)

Lemma stepsToActive_spec :
  stepsToActive (H := SpecDeal.things) true 2 SpecDeal.Validating.
Proof.
  split; [reflexivity|]. intros [|[|k]] Hk; simpl; try discriminate. lia.
Defined.

Lemma chain_height_invariant_witness :
  reachable Demo.twoDeals /\
  latestTipset Demo.twoDeals = Some Demo.twoDealsTip /\
  height Demo.twoDealsTip = Z.of_nat (length (tipsets Demo.twoDeals)) - 1.
Proof.
  assert (Hr : reachable Demo.twoDeals).
  { apply (runAll_reachable Demo.twoDealsRun Demo.manual);
      [apply reachable_new|vm_compute; reflexivity]. }
  split; [exact Hr|].
  destruct (chain_height_invariant Demo.twoDeals Hr) as (_ & _ & (T & HT & Hh) & _).
  assert (HT' : latestTipset Demo.twoDeals = Some Demo.twoDealsTip)
    by (vm_compute; reflexivity).
  rewrite HT' in HT. injection HT as <-.
  split; [exact HT'|exact Hh].
Defined.

Lemma mineTipset_block_shape_witness :
  latestTipset Demo.twoDeals = Some Demo.twoDealsTip /\
  1 <= 3 /\
  exists b' T',
    mineTipset 3 Demo.twoDeals = Returned b' /\
    Z.of_nat (length (blocks T')) = 3 /\
    latestTipset b' = Some T' /\
    height T' = 2.
Proof.
  assert (HT : latestTipset Demo.twoDeals = Some Demo.twoDealsTip)
    by (vm_compute; reflexivity).
  assert (Hn : 1 <= 3) by lia.
  split; [exact HT|]. split; [exact Hn|].
  destruct (mineTipset_block_shape 3 Demo.twoDeals Demo.twoDealsTip HT Hn)
    as (b' & T' & Hm & _ & Hl & Hlen & _ & Hh).
  exists b', T'. repeat split; assumption.
Defined.

Lemma mineTipset_skips_deal_after_removal_witness :
  latestTipset Demo.twoDeals = Some Demo.twoDealsTip /\
  inProcessDeals Demo.twoDeals = [0%nat; 1%nat] /\
  heap Demo.twoDeals !! 0%nat = Some Demo.firstDeal /\
  stateOf Demo.twoDeals 1%nat = Some SpecDeal.Validating /\
  exists b',
    mineTipset 1 Demo.twoDeals = Returned b' /\
    inProcessDeals b' = [1%nat] /\
    stateOf b' 1%nat = Some SpecDeal.Validating /\
    changesOf 1%nat (emitted b') = [].
Proof.
  assert (HT : latestTipset Demo.twoDeals = Some Demo.twoDealsTip)
    by (vm_compute; reflexivity).
  assert (Hp : inProcessDeals Demo.twoDeals = [0%nat; 1%nat])
    by (vm_compute; reflexivity).
  assert (Hx : heap Demo.twoDeals !! 0%nat = Some Demo.firstDeal)
    by (vm_compute; reflexivity).
  assert (Hne : 0%nat <> 1%nat) by discriminate.
  assert (Hs1 : stateOf Demo.twoDeals 1%nat = Some SpecDeal.Validating)
    by (vm_compute; reflexivity).
  split; [exact HT|]. split; [exact Hp|]. split; [exact Hx|]. split; [exact Hs1|].
  destruct (mineTipset_skips_deal_after_removal Demo.twoDeals Demo.twoDealsTip
              0%nat 1%nat Demo.firstDeal HT Hp Hne Hx eq_refl)
    as (b' & Hm & _ & Hp' & Hs & He).
  exists b'. split; [exact Hm|]. split; [exact Hp'|].
  split; [rewrite Hs; exact Hs1|rewrite He; vm_compute; reflexivity].
Defined.

Lemma startDeal_automining_completes_witness :
  reachable Demo.automine /\
  automining Demo.automine = true /\
  exists b',
    startDeal 5 Demo.proposal Demo.automine = Returned (b', mkRootCID 1) /\
    stateOf b' 0%nat = Some SpecDeal.Active /\
    length (tipsets b') = 3%nat /\
    length (emitted b') = 2%nat.
Proof.
  assert (Hr : reachable Demo.automine) by apply reachable_new.
  split; [exact Hr|]. split; [reflexivity|].
  destruct (startDeal_automining_completes Demo.automine Demo.proposal 2 5
              Hr eq_refl ltac:(lia) stepsToActive_spec ltac:(lia))
    as (b' & news & evs & Hs & Hact & _ & Hts & Hlen & _ & _ & Hev & Hevlen & _).
  exists b'. split; [exact Hs|]. split; [exact Hact|].
  rewrite Hts, Hev, !length_app, Hlen, Hevlen. split; reflexivity.
Defined.

Lemma readiness_one_shot_witness :
  runAll Demo.startUp (constructor Demo.intervalOptions) = Some Demo.started /\
  ready Demo.started = true /\
  readyCount Demo.started = 1%nat /\
  miningTimeout Demo.started = Some 1000 /\
  resolved (waitForReady 9 Demo.started) = [7%nat; 8%nat; 9%nat] /\
  ready DemoExtra.awaiting = false /\
  intervalArmed DemoExtra.awaiting = false /\
  exists b',
    run StartResolves DemoExtra.awaiting = Some b' /\
    ready b' = true /\ intervalArmed b' = true /\
    miningTimeout b' = Some 1000.
Proof.
  assert (Hrun : runAll Demo.startUp (constructor Demo.intervalOptions)
                 = Some Demo.started) by (vm_compute; reflexivity).
  split; [exact Hrun|].
  destruct (readiness_one_shot Demo.intervalOptions Demo.startUp Demo.started Hrun)
    as (_ & Hr & Hc & Ht & _ & _ & _ & Hw & _ & _).
  assert (Hrd : ready Demo.started = true) by (vm_compute; reflexivity).
  split; [exact Hrd|]. split; [by rewrite Hc, Hrd|].
  split; [|split].
  - destruct (Ht Hrd) as [_ Hmt]. rewrite Hmt; vm_compute; congruence.
  - specialize (Hw 9%nat). rewrite Hrd in Hw. destruct Hw as [-> _].
    vm_compute. reflexivity.
  - assert (Hrun' : runAll [TimeoutFires] (constructor Demo.intervalOptions)
                    = Some DemoExtra.awaiting) by (vm_compute; reflexivity).
    destruct (readiness_one_shot Demo.intervalOptions [TimeoutFires]
                DemoExtra.awaiting Hrun')
      as (_ & _ & _ & _ & _ & _ & Hstep & _ & Hidle & Hfin).
    assert (Hnr : ready DemoExtra.awaiting = false) by (vm_compute; reflexivity).
    split; [exact Hnr|]. split; [exact (proj1 (Hidle Hnr))|].
    exists (startupFinish DemoExtra.awaiting).
    assert (Hgo : run StartResolves DemoExtra.awaiting
                  = Some (startupFinish DemoExtra.awaiting))
      by (vm_compute; reflexivity).
    split; [exact Hgo|].
    destruct (Hfin _ Hgo) as (_ & Hrd' & _). split; [exact Hrd'|].
    destruct (proj2 (Hstep _ _ Hgo) Hnr Hrd')
      as (_ & _ & _ & _ & _ & Harm & Hper & _).
    assert (Harmed : intervalArmed (startupFinish DemoExtra.awaiting) = true)
      by (rewrite Harm; vm_compute; reflexivity).
    split; [exact Harmed|]. rewrite (Hper Harmed). vm_compute. reflexivity.
Defined.

Lemma blockTime_overrides_automining_witness :
  opt_blockTime Demo.intervalOptions = Some 1000 /\
  1000 > 0 /\
  opt_automining Demo.intervalOptions = Some true /\
  automining (H := SpecDeal.things) (constructor Demo.intervalOptions) = false /\
  automining Demo.started = false.
Proof.
  assert (Hbt : opt_blockTime Demo.intervalOptions = Some 1000) by reflexivity.
  assert (Hpos : 1000 > 0) by lia.
  split; [exact Hbt|]. split; [exact Hpos|]. split; [reflexivity|].
  destruct (blockTime_overrides_automining (H := SpecDeal.things)
              Demo.intervalOptions 1000 Hbt Hpos) as [Hc Hall].
  split; [exact Hc|]. apply (Hall Demo.startUp). vm_compute. reflexivity.
Defined.

#[local] Existing Instance Ledger.counterEngine.

Lemma deployed_reachable : Ledger.reachable Demo.deployed.
Proof.
  exists Demo.deployedRun. reflexivity.
Defined.

Lemma twoCheckpoints_reachable : Ledger.reachable Demo.twoCheckpoints.
Proof.
  exists (Demo.deployedRun ++ [Ledger.Snapshot; Ledger.Snapshot]).
  reflexivity.
Defined.

Lemma revert_round_trip_witness :
  Ledger.reachable Demo.deployed /\
  Ledger.revert (Ledger.snapshot Demo.deployed).1
    (Ledger.calls Demo.afterSnapshot (Ledger.snapshot Demo.deployed).2)
  = Returned (true, Demo.rolledBack) /\
  (Ledger.readStorage Ledger.counterSlot
     (Ledger.calls Demo.afterSnapshot (Ledger.snapshot Demo.deployed).2)).1
  = Some 43 /\
  (Ledger.readStorage Ledger.counterSlot Demo.rolledBack).1 = Some 42 /\
  Ledger.getReceipt 1%nat Demo.rolledBack = None /\
  Ledger.entityState 0
    (Ledger.calls Demo.afterSnapshot (Ledger.snapshot Demo.deployed).2)
  = Some SpecDeal.Staged /\
  Ledger.entityState 0 Demo.rolledBack = Some SpecDeal.Validating /\
  Ledger.pendingSet Demo.rolledBack = [0%nat] /\
  exists refB stB,
    Ledger.submitOperation (H := Ledger.counterEngine) Ledger.Inc Demo.rolledBack
    = Returned (refB, stB) /\
    (Ledger.readStorage Ledger.counterSlot stB).1 = Some 43.
Proof.
  assert (Hrev : Ledger.revert (Ledger.snapshot Demo.deployed).1
            (Ledger.calls Demo.afterSnapshot (Ledger.snapshot Demo.deployed).2)
          = Returned (true, Demo.rolledBack)) by (vm_compute; reflexivity).
  split; [exact deployed_reachable|]. split; [exact Hrev|].
  split; [vm_compute; reflexivity|].
  destruct (revert_round_trip Demo.deployed Demo.afterSnapshot Demo.rolledBack
              deployed_reachable Hrev) as (_ & Hrc & Hrd & Hre & Hrp & Hagain).
  split; [rewrite Hrd; vm_compute; reflexivity|].
  split; [rewrite Hrc; vm_compute; reflexivity|].
  split; [vm_compute; reflexivity|].
  split; [rewrite Hre; vm_compute; reflexivity|].
  split; [rewrite Hrp; vm_compute; reflexivity|].
  destruct (Hagain [Ledger.ReadStorage Ledger.counterSlot] Ledger.Inc
              [Ledger.ReadStorage Ledger.counterSlot] 1%nat Demo.firstInc)
    as (refB & stB & HB & _ & Hreads).
  - reflexivity.
  - repeat constructor.
  - vm_compute. reflexivity.
  - exists refB, stB. split; [exact HB|].
    rewrite Hreads. vm_compute. reflexivity.
Defined.

Lemma revert_cascade_once_witness :
  Ledger.reachable Demo.twoCheckpoints /\
  Ledger.statusOf 1 Demo.twoCheckpoints = Some Ledger.CpActive /\
  Ledger.statusOf 2 Demo.twoCheckpoints = Some Ledger.CpActive /\
  1 < 2 /\
  exists st',
    Ledger.revert 1 Demo.twoCheckpoints = Returned (true, st') /\
    Ledger.revert 2 st' = Returned (false, st') /\
    Ledger.revert 1 st' = Returned (false, st').
Proof.
  assert (H1 : Ledger.statusOf 1 Demo.twoCheckpoints = Some Ledger.CpActive)
    by (vm_compute; reflexivity).
  assert (H2 : Ledger.statusOf 2 Demo.twoCheckpoints = Some Ledger.CpActive)
    by (vm_compute; reflexivity).
  assert (Hlt : 1 < 2) by lia.
  split; [exact twoCheckpoints_reachable|].
  split; [exact H1|]. split; [exact H2|]. split; [exact Hlt|].
  destruct (proj1 (revert_cascade_once Demo.twoCheckpoints
                     twoCheckpoints_reachable) 1 2 H1 H2 Hlt)
    as (st' & Hr & _ & Hr2 & Hr1).
  exists st'. split; [exact Hr|]. split; [exact Hr2|exact Hr1].
Defined.

Lemma evm_revert_classification_witness :
  Ledger.reachable Demo.twoCheckpoints /\
  Ledger.evm_revert Ledger.JsObject Demo.twoCheckpoints
  = (Ledger.RejectedEncoding, Demo.twoCheckpoints) /\
  Ledger.evm_revert (Ledger.JsNum (Ledger.Finite 1 2)) Demo.twoCheckpoints
  = (Ledger.RejectedEncoding, Demo.twoCheckpoints) /\
  Ledger.evm_revert Ledger.JsNull Demo.twoCheckpoints
  = (Ledger.RejectedUsage, Demo.twoCheckpoints) /\
  Ledger.evm_revert (Ledger.JsNum (Ledger.Finite 999 1)) Demo.twoCheckpoints
  = (Ledger.Replied false, Demo.twoCheckpoints) /\
  Ledger.evm_revert (Ledger.JsNum (Ledger.Finite (-1) 1)) Demo.twoCheckpoints
  = (Ledger.Replied false, Demo.twoCheckpoints) /\
  Ledger.evm_revert (Ledger.JsBuffer [0%N]) Demo.twoCheckpoints
  = (Ledger.Replied false, Demo.twoCheckpoints).
Proof.
  split; [exact twoCheckpoints_reachable|].
  destruct (evm_revert_classification Demo.twoCheckpoints twoCheckpoints_reachable)
    as (Henc & Hfrac & Huse & Hint & Hbuf & Hfalse & _).
  split; [apply Henc; by left|].
  split; [apply Hfrac; discriminate|].
  split; [apply Huse; by left|].
  split; [apply (Hfalse _ 999); [apply Hint|right; vm_compute; discriminate]|].
  split; [apply (Hfalse _ (-1)); [apply Hint|left; lia]|].
  apply (Hfalse _ 0); [apply Hbuf|left; lia].
Defined.

(** * Part IV: further properties of the [Blockchain] class *)

Section FurtherFacts.
Context `{Things}.

(** ** Removing under the iterator *)

Lemma indexOf_NoDup (l : list nat) : forall i d,
  NoDup l -> l !! i = Some d -> indexOf d l = Some i.
Proof.
  induction l as [|x l IH]; intros i d Hnd Hi; [done|].
  apply NoDup_cons in Hnd as [Hx Hnd]. simpl. destruct i as [|i]; simpl in Hi.
  - injection Hi as ->. by rewrite decide_True.
  - rewrite decide_False.
    + by rewrite (IH i d Hnd Hi).
    + intros ->. apply Hx. by eapply list_elem_of_lookup_2.
Qed.

Lemma spliceIndexOf_NoDup (l : list nat) i d :
  NoDup l -> l !! i = Some d -> spliceIndexOf d l = delete i l.
Proof. intros Hnd Hi. unfold spliceIndexOf. by rewrite (indexOf_NoDup l i d). Qed.

Lemma spliceIndexOf_sublist d (l : list nat) : spliceIndexOf d l `sublist_of` l.
Proof. unfold spliceIndexOf. destruct (indexOf d l); apply sublist_delete. Qed.

Lemma drop_S_delete {A} (l : list A) : forall i,
  drop (S i) (delete i l) = drop (S (S i)) l.
Proof.
  induction l as [|x l IH]; intros i; [done|].
  destruct i as [|i]; simpl.
  - by destruct l.
  - destruct l as [|y l]; [done|]. apply (IH i).
Qed.

Lemma NoDup_lookup_drop (l : list nat) i d :
  NoDup l -> l !! i = Some d -> d ∉ drop (S i) l.
Proof.
  intros Hnd Hi. pose proof (sublist_NoDup _ _ Hnd (sublist_drop l i)) as Hd.
  rewrite (drop_S l d i Hi) in Hd. apply NoDup_cons in Hd as [Hd _]. exact Hd.
Qed.

Lemma elem_of_drop_S {A} (l : list A) : forall n x,
  x ∈ drop (S n) l -> x ∈ drop n l.
Proof.
  induction l as [|y l IH]; intros n x; [by rewrite !drop_nil|].
  destruct n as [|n]; simpl.
  - rewrite drop_0. by right.
  - apply (IH n).
Qed.

Lemma visit_pending_sublist deal b :
  inProcessDeals (visit deal b) `sublist_of` inProcessDeals b.
Proof.
  rewrite visit_pending. case_bool_decide; [apply spliceIndexOf_sublist|done].
Qed.

(** What is left to visit after one turn lies within what was left before. *)
Lemma visit_rest i deal b d :
  NoDup (inProcessDeals b) -> inProcessDeals b !! i = Some deal ->
  d ∈ drop (S i) (inProcessDeals (visit deal b)) ->
  d ∈ drop (S i) (inProcessDeals b).
Proof.
  intros Hnd Hi. rewrite visit_pending. case_bool_decide; [|done].
  rewrite (spliceIndexOf_NoDup _ i deal Hnd Hi), drop_S_delete.
  apply elem_of_drop_S.
Qed.

Lemma untouched_refl d b : untouched d b b.
Proof. by split. Qed.

Lemma untouched_trans d b1 b2 b3 :
  untouched d b1 b2 -> untouched d b2 b3 -> untouched d b1 b3.
Proof. intros [H1 H2] [H3 H4]. split; congruence. Qed.

Lemma visit_untouched deal b d : d <> deal -> untouched d b (visit deal b).
Proof.
  intros Hne. split.
  - rewrite heap_visit, list_lookup_alter_ne by done. reflexivity.
  - rewrite emitted_visit, changesOf_app. simpl.
    rewrite decide_False by done. by rewrite app_nil_r.
Qed.

Lemma visit_advancedOnce deal b : advancedOnce deal b (visit deal b).
Proof.
  split.
  - by rewrite heap_visit, list_lookup_alter_eq.
  - rewrite emitted_visit, changesOf_app. simpl. by rewrite decide_True.
Qed.

Lemma advancedOnce_then_untouched d b1 b2 b3 :
  advancedOnce d b1 b2 -> untouched d b2 b3 -> advancedOnce d b1 b3.
Proof.
  intros [H1 H2] [H3 H4]. split; [congruence|].
  rewrite H4, H2. unfold stateOf. by rewrite H3.
Qed.

Lemma untouched_then_advancedOnce d b1 b2 b3 :
  automining b2 = automining b1 ->
  untouched d b1 b2 -> advancedOnce d b2 b3 -> advancedOnce d b1 b3.
Proof.
  intros Ha [H1 H2] [H3 H4]. split; [by rewrite H3, H1, Ha|].
  by rewrite H4, H2.
Qed.

(** The loop under an array without repetition: whatever it does not reach
    is untouched, and nothing is advanced twice. *)
Lemma advanceDeals_at_most_once fuel : forall i b b',
  NoDup (inProcessDeals b) ->
  advanceDeals fuel i b = Returned b' ->
  automining b' = automining b /\
  forall d,
    (d ∉ drop i (inProcessDeals b) -> untouched d b b') /\
    (untouched d b b' \/ advancedOnce d b b').
Proof.
  induction fuel as [|fuel IH]; intros i b b' Hnd; [discriminate|].
  rewrite advanceDeals_step.
  destruct (inProcessDeals b !! i) as [deal|] eqn:Hi.
  - intros Hrun.
    assert (Hnd1 : NoDup (inProcessDeals (visit deal b))).
    { eapply sublist_NoDup; [exact Hnd|apply visit_pending_sublist]. }
    destruct (IH (S i) (visit deal b) b' Hnd1 Hrun) as [Ha Hall].
    split; [by rewrite Ha, automining_visit|].
    intros d. destruct (Hall d) as [Hout Hcase].
    destruct (decide (d = deal)) as [->|Hne].
    + assert (Hu : untouched deal (visit deal b) b').
      { apply Hout. intros Hin. apply (visit_rest i deal b deal Hnd Hi) in Hin.
        by apply (NoDup_lookup_drop _ i deal Hnd Hi). }
      split.
      * intros Hnot. destruct Hnot. rewrite (drop_S _ deal i Hi). left.
      * right. eapply advancedOnce_then_untouched; [apply visit_advancedOnce|done].
    + pose proof (visit_untouched deal b d Hne) as Hv. split.
      * intros Hnot. eapply untouched_trans; [exact Hv|]. apply Hout.
        intros Hin. apply Hnot. rewrite (drop_S _ deal i Hi). right.
        by apply (visit_rest i deal b d Hnd Hi).
      * destruct Hcase as [Hu|Hadv].
        -- left. by eapply untouched_trans.
        -- right. eapply untouched_then_advancedOnce; [|exact Hv|exact Hadv].
           apply automining_visit.
  - intros [= <-]. split; [done|]. intros d. split; [intros _|left];
      apply untouched_refl.
Qed.

(** When no deal in process is about to become [Active], nothing is removed
    and the loop reaches every deal. *)
Lemma advanceDeals_all fuel : forall i b b',
  NoDup (inProcessDeals b) ->
  (forall d x, d ∈ drop i (inProcessDeals b) -> heap b !! d = Some x ->
               advanceState (automining b) (state x) <> Active) ->
  advanceDeals fuel i b = Returned b' ->
  inProcessDeals b' = inProcessDeals b /\
  forall d, d ∈ drop i (inProcessDeals b) -> advancedOnce d b b'.
Proof.
  induction fuel as [|fuel IH]; intros i b b' Hnd Hno; [discriminate|].
  rewrite advanceDeals_step.
  destruct (inProcessDeals b !! i) as [deal|] eqn:Hi.
  - intros Hrun.
    assert (Hkeep : inProcessDeals (visit deal b) = inProcessDeals b).
    { rewrite visit_pending, bool_decide_eq_false_2; [done|].
      unfold stateOf. rewrite heap_visit, list_lookup_alter_eq.
      destruct (heap b !! deal) as [x|] eqn:Hx; simpl; [|done].
      intros [= Hact]. apply (Hno deal x); [|done|done].
      rewrite (drop_S _ deal i Hi). left. }
    assert (Hnd1 : NoDup (inProcessDeals (visit deal b))) by (by rewrite Hkeep).
    destruct (advanceDeals_at_most_once fuel (S i) (visit deal b) b' Hnd1 Hrun)
      as [_ Hall].
    destruct (IH (S i) (visit deal b) b' Hnd1) as [Hp Hadv]; [|exact Hrun|].
    { rewrite Hkeep, automining_visit. intros d x Hin Hx.
      assert (Hne : d <> deal).
      { intros ->. by apply (NoDup_lookup_drop _ i deal Hnd Hi). }
      rewrite heap_visit, list_lookup_alter_ne in Hx by done.
      apply (Hno d x); [|done]. rewrite (drop_S _ deal i Hi). by right. }
    split; [by rewrite Hp|].
    intros d. rewrite (drop_S _ deal i Hi). intros Hin.
    apply elem_of_cons in Hin as [->|Hin].
    + eapply advancedOnce_then_untouched; [apply visit_advancedOnce|].
      apply (Hall deal). rewrite Hkeep.
      by apply (NoDup_lookup_drop _ i deal Hnd Hi).
    + assert (Hne : d <> deal).
      { intros ->. by apply (NoDup_lookup_drop _ i deal Hnd Hi). }
      eapply untouched_then_advancedOnce;
        [apply automining_visit|by apply visit_untouched|].
      apply Hadv. by rewrite Hkeep.
  - intros [= <-]. split; [done|]. intros d Hin.
    rewrite drop_ge in Hin by (by apply lookup_ge_None). by apply elem_of_nil in Hin.
Qed.

(** ** The book-keeping of deals *)

Lemma advanceDeals_preserves_in (P : Blockchain -> Prop) :
  (forall i deal b, P b -> inProcessDeals b !! i = Some deal -> P (visit deal b)) ->
  forall fuel i b b', P b -> advanceDeals fuel i b = Returned b' -> P b'.
Proof.
  intros Hvisit fuel. induction fuel as [|fuel IH]; intros i b b' HP;
    [discriminate|].
  rewrite advanceDeals_step. destruct (inProcessDeals b !! i) as [deal|] eqn:Hi.
  - apply IH. by eapply Hvisit.
  - by intros [= <-].
Qed.

Lemma mineTipset_preserves_in (P : Blockchain -> Prop) :
  (forall t b, P b -> P (set_tipsets t b)) ->
  (forall i deal b, P b -> inProcessDeals b !! i = Some deal -> P (visit deal b)) ->
  forall n b b', P b -> mineTipset n b = Returned b' -> P b'.
Proof.
  intros Hset Hvisit n b b' HP. unfold mineTipset.
  destruct (latestTipset b) as [T|]; [|discriminate].
  apply (advanceDeals_preserves_in P Hvisit). by apply Hset.
Qed.

Lemma heap_visit_Some deal b i d :
  heap (visit deal b) !! i = Some d ->
  exists x, heap b !! i = Some x /\
            proposalCid d = proposalCid x /\ dealId d = dealId x /\
            (i <> deal -> d = x).
Proof.
  rewrite heap_visit. destruct (decide (deal = i)) as [->|Hne].
  - rewrite list_lookup_alter_eq. destruct (heap b !! i) as [x|]; [|done].
    simpl. intros [= <-]. by exists x.
  - rewrite list_lookup_alter_ne by done. intros Hd. exists d. by repeat split.
Qed.

Lemma length_heap_visit deal b : length (heap (visit deal b)) = length (heap b).
Proof. rewrite heap_visit. apply length_alter. Qed.

Lemma deals_visit deal b : deals (visit deal b) = deals b.
Proof. unfold visit. case_bool_decide; reflexivity. Qed.

Lemma drawn_visit deal b : drawn (visit deal b) = drawn b.
Proof. unfold visit. case_bool_decide; reflexivity. Qed.

Lemma dealsByCid_visit deal b : dealsByCid (visit deal b) = dealsByCid b.
Proof. unfold visit. case_bool_decide; reflexivity. Qed.

Lemma bookInv_visit deal b : bookInv b -> bookInv (visit deal b).
Proof.
  intros (Hd & Hdr & Hh & Hnd & Hb & Hc).
  unfold bookInv.
  rewrite deals_visit, drawn_visit, dealsByCid_visit, length_heap_visit.
  split; [done|]. split; [done|]. split; [|split; [|split]].
  - intros i d Hi. apply heap_visit_Some in Hi as (x & Hx & -> & -> & _).
    by apply Hh.
  - eapply sublist_NoDup; [exact Hnd|apply visit_pending_sublist].
  - intros d Hin. apply Hb. eapply elem_of_sublist; [exact Hin|].
    apply visit_pending_sublist.
  - intros c ref Href. destruct (Hc c ref Href) as (d & Hd0 & Hroot).
    rewrite heap_visit. destruct (decide (deal = ref)) as [->|Hne].
    + rewrite list_lookup_alter_eq, Hd0. simpl. eexists. split; [done|]. done.
    + rewrite list_lookup_alter_ne by done. by exists d.
Qed.

Lemma bookInv_mineTipset n b b' :
  bookInv b -> mineTipset n b = Returned b' -> bookInv b'.
Proof.
  apply (mineTipset_preserves_in bookInv); [done|].
  intros i deal x Hx _. by apply bookInv_visit.
Qed.

Lemma bookInv_registerDeal proposal b :
  bookInv b -> bookInv (registerDeal proposal b).
Proof.
  intros (Hd & Hdr & Hh & Hnd & Hb & Hc). unfold bookInv, registerDeal.
  cbn -[seq Nat.mul]. rewrite !length_app. cbn -[seq Nat.mul].
  split; [|split; [|split; [|split; [|split]]]].
  - rewrite Hd. replace (length (heap b) + 1)%nat with (S (length (heap b))) by lia.
    by rewrite seq_S.
  - lia.
  - intros i d Hi. apply lookup_snoc_Some in Hi as [[_ Hi]|[-> <-]];
      [by apply Hh|]. cbn. rewrite Hd, length_seq, Hdr. done.
  - apply NoDup_app. split; [done|]. split; [|apply NoDup_singleton].
    intros x Hx Hx'. apply list_elem_of_singleton in Hx' as ->.
    specialize (Hb _ Hx). lia.
  - intros d Hin. apply elem_of_app in Hin as [Hin|Hin].
    + specialize (Hb d Hin). lia.
    + apply list_elem_of_singleton in Hin as ->. lia.
  - intros c ref. destruct (decide (randomCid (drawn b) = c)) as [<-|Hne].
    + rewrite lookup_insert_eq. intros [= <-].
      rewrite lookup_app_r by lia. rewrite Nat.sub_diag. cbn.
      eexists. split; [done|]. done.
    + rewrite lookup_insert_ne by done. intros Href.
      destruct (Hc c ref Href) as (d & Hd0 & Hroot). exists d.
      split; [|done]. by apply lookup_app_l_Some.
Qed.

Lemma bookInv_reachable b : reachable b -> bookInv b.
Proof.
  apply reachable_preserves;
    [| | | | | |
     |intros b0 b' n; apply bookInv_mineTipset
     |intros b0 proposal; apply bookInv_registerDeal];
    unfold bookInv; try by life_cycle.
  intros options. cbn. repeat split; try done; try apply NoDup_nil_2.
  intros d Hd. by apply elem_of_nil in Hd.
Qed.

(** ** In process and not yet Active *)

Lemma elem_of_delete_NoDup (l : list nat) i d x :
  NoDup l -> l !! i = Some d -> (x ∈ delete i l <-> x ∈ l /\ x <> d).
Proof.
  intros Hnd Hi. rewrite delete_take_drop.
  rewrite <- (take_drop_middle l i d Hi) in Hnd.
  rewrite <- (take_drop_middle l i d Hi) at 3.
  apply NoDup_app in Hnd as (_ & Hdisj & Hnd2).
  apply NoDup_cons in Hnd2 as [Hd2 _].
  rewrite !elem_of_app, elem_of_cons. split.
  - intros [Hx|Hx].
    + split; [by left|]. intros ->. apply (Hdisj d Hx). left.
    + split; [by right; right|]. by intros ->.
  - intros [[Hx|[->|Hx]] Hne]; [by left|done|by right].
Qed.

Lemma pendInv_visit i deal b :
  bookInv b -> pendInv b -> inProcessDeals b !! i = Some deal ->
  pendInv (visit deal b).
Proof.
  intros (_ & _ & _ & Hnd & Hb & _) [Hp1 Hp2] Hi.
  assert (Hin : deal ∈ inProcessDeals b) by (by eapply list_elem_of_lookup_2).
  unfold pendInv. rewrite length_heap_visit, visit_pending.
  case_bool_decide as Hact.
  - rewrite (spliceIndexOf_NoDup _ i deal Hnd Hi). split.
    + intros d Hd. apply (elem_of_delete_NoDup _ i deal d Hnd Hi) in Hd as [Hd Hne].
      rewrite stateOf_visit_other by done. by apply Hp1.
    + intros d Hd. destruct (decide (d = deal)) as [->|Hne]; [by right|].
      destruct (Hp2 d Hd) as [Hd'|Hd'].
      * left. by apply (elem_of_delete_NoDup _ i deal d Hnd Hi).
      * right. by rewrite stateOf_visit_other.
  - split.
    + intros d Hd. destruct (decide (d = deal)) as [->|Hne]; [done|].
      rewrite stateOf_visit_other by done. by apply Hp1.
    + intros d Hd. destruct (decide (d = deal)) as [->|Hne]; [by left|].
      destruct (Hp2 d Hd) as [Hd'|Hd']; [by left|].
      right. by rewrite stateOf_visit_other.
Qed.

Lemma bothInv_mineTipset n b b' :
  bookInv b /\ pendInv b -> mineTipset n b = Returned b' ->
  bookInv b' /\ pendInv b'.
Proof.
  apply (mineTipset_preserves_in (fun x => bookInv x /\ pendInv x)); [done|].
  intros i deal x [Hbk Hpd] Hi. split; [by apply bookInv_visit|].
  by eapply pendInv_visit.
Qed.

Lemma pendInv_registerDeal proposal b :
  Validating <> Active -> bookInv b -> pendInv b ->
  pendInv (registerDeal proposal b).
Proof.
  intros Hva (_ & _ & _ & _ & Hb & _) [Hp1 Hp2]. unfold pendInv, stateOf, registerDeal.
  cbn. rewrite length_app. cbn. split.
  - intros d Hd. apply elem_of_app in Hd as [Hd|Hd].
    + rewrite lookup_app_l by (by apply Hb). by apply Hp1.
    + apply list_elem_of_singleton in Hd as ->.
      rewrite lookup_app_r by lia. rewrite Nat.sub_diag. cbn. congruence.
  - intros d Hd. destruct (decide (d = length (heap b))) as [->|Hne].
    + left. apply elem_of_app. right. by apply list_elem_of_singleton.
    + assert (Hlt : (d < length (heap b))%nat) by lia.
      rewrite lookup_app_l by done.
      destruct (Hp2 d Hlt) as [Hd'|Hd']; [left|by right].
      apply elem_of_app. by left.
Qed.

Lemma bothInv_reachable b :
  Validating <> Active -> reachable b -> bookInv b /\ pendInv b.
Proof.
  intros Hva. revert b.
  apply (reachable_preserves (fun x => bookInv x /\ pendInv x));
    [| | | | | |
     |intros b0 b' n; apply bothInv_mineTipset
     |intros b0 proposal [Hbk Hpd]; split;
        [by apply bookInv_registerDeal|by apply pendInv_registerDeal]];
    unfold bookInv, pendInv, stateOf; try by life_cycle.
  intros options. cbn. repeat split; try done; try apply NoDup_nil_2;
    try (intros d Hd; by apply elem_of_nil in Hd).
  intros d Hd. lia.
Qed.

(** X3. The k-th deal ever started carries [dealId] k: [deals] lists every
    deal object once, in the order of the calls of [startDeal], and no two
    deals share an id. *)
Theorem dealIds_sequential (b : Blockchain) :
  reachable b ->
  length (deals b) = length (heap b) /\
  (forall (i : nat) (ref : DealRef), deals b !! i = Some ref ->
     ref = i /\ exists d, heap b !! ref = Some d /\ dealId d = Z.of_nat i + 1) /\
  (forall (r1 r2 : DealRef) (d1 d2 : Deal),
     heap b !! r1 = Some d1 -> heap b !! r2 = Some d2 ->
     dealId d1 = dealId d2 -> r1 = r2).
Proof.
  intros Hb. destruct (bookInv_reachable b Hb) as (Hd & _ & Hh & _).
  split; [by rewrite Hd, length_seq|]. split.
  - intros i ref. rewrite Hd. intros Hi. apply lookup_seq in Hi as [-> Hlt].
    split; [done|]. destruct (lookup_lt_is_Some_2 (heap b) i Hlt) as [d Hd0].
    exists d. split; [done|]. by apply Hh.
  - intros r1 r2 d1 d2 H1 H2 Heq.
    destruct (Hh r1 d1 H1) as [Hi1 _]. destruct (Hh r2 d2 H2) as [Hi2 _]. lia.
Qed.

(** X4. A deal is in [inProcessDeals] exactly as long as it is not [Active]:
    the array holds no deal twice, only deals of [deals], none of them
    [Active], and every deal outside it is [Active]. *)
Theorem inProcess_iff_not_active (b : Blockchain) :
  Validating <> Active ->
  reachable b ->
  NoDup (inProcessDeals b) /\
  (forall d : DealRef, d ∈ inProcessDeals b ->
     d ∈ deals b /\ stateOf b d <> Some Active) /\
  (forall d : DealRef, d ∈ deals b ->
     d ∈ inProcessDeals b \/ stateOf b d = Some Active).
Proof.
  intros Hva Hb.
  destruct (bothInv_reachable b Hva Hb) as [(Hd & _ & _ & Hnd & Hbd & _) [Hp1 Hp2]].
  split; [done|]. split.
  - intros d Hin. split; [|by apply Hp1].
    rewrite Hd. apply elem_of_seq. specialize (Hbd d Hin). lia.
  - intros d. rewrite Hd. intros Hin. apply elem_of_seq in Hin. apply Hp2. lia.
Qed.

(** X5. One call of [mineTipset] never advances a deal twice and never
    touches a deal that is not in process: every deal is either left as it
    was, without an event, or took exactly one [advanceState] with exactly
    one [dealStateChanged], and the first holds for all deals outside
    [inProcessDeals]. *)
Theorem mineTipset_at_most_once (n : Z) (b b' : Blockchain) :
  reachable b ->
  mineTipset n b = Returned b' ->
  forall d : DealRef,
    (d ∉ inProcessDeals b -> untouched d b b') /\
    (untouched d b b' \/ advancedOnce d b b').
Proof.
  intros Hb. destruct (bookInv_reachable b Hb) as (_ & _ & _ & Hnd & _).
  unfold mineTipset. destruct (latestTipset b) as [T|]; [|discriminate].
  intros Hrun d.
  match type of Hrun with advanceDeals ?f 0 ?b1 = _ =>
    destruct (advanceDeals_at_most_once f 0%nat b1 b' Hnd Hrun) as [_ Hall] end.
  exact (Hall d).
Qed.

(** X6. When no deal in process is one step away from [Active], a call of
    [mineTipset] removes nothing and advances every deal in process by
    exactly one step, with one [dealStateChanged] each. *)
Theorem mineTipset_advances_all (n : Z) (b : Blockchain) :
  reachable b ->
  (forall (d : DealRef) (x : Deal), d ∈ inProcessDeals b -> heap b !! d = Some x ->
     advanceState (automining b) (state x) <> Active) ->
  exists b',
    mineTipset n b = Returned b' /\
    inProcessDeals b' = inProcessDeals b /\
    forall d : DealRef, d ∈ inProcessDeals b -> advancedOnce d b b'.
Proof.
  intros Hb Hno. destruct (bookInv_reachable b Hb) as (_ & _ & _ & Hnd & _).
  destruct (chainInv_latest b (chainInv_reachable b Hb)) as (T & HT & _).
  destruct (mineTipset_returns n b T HT) as (b' & Hrun & _).
  exists b'. split; [exact Hrun|].
  unfold mineTipset in Hrun. rewrite HT in Hrun.
  match type of Hrun with advanceDeals ?f 0 ?b1 = _ =>
    exact (advanceDeals_all f 0%nat b1 b' Hnd Hno Hrun) end.
Qed.

(** ** The number of blocks does not matter to the deals *)

Lemma visit_set_tipsets t deal b :
  visit deal (set_tipsets t b) = set_tipsets t (visit deal b).
Proof.
  unfold visit, stateOf.
  cbn [heap set_heap set_emitted set_tipsets set_inProcessDeals automining
       emitted inProcessDeals].
  case_bool_decide; reflexivity.
Qed.

Lemma advanceDeals_set_tipsets t fuel : forall i b,
  advanceDeals fuel i (set_tipsets t b) =
  match advanceDeals fuel i b with
  | Returned x => Returned (set_tipsets t x)
  | Thrown e => Thrown e
  | OutOfFuel => OutOfFuel
  end.
Proof.
  induction fuel as [|fuel IH]; intros i b; [done|].
  rewrite !advanceDeals_step. cbn [inProcessDeals set_tipsets].
  destruct (inProcessDeals b !! i) as [deal|]; [|done].
  by rewrite visit_set_tipsets, IH.
Qed.

(** X2. The deals advance once per call of [mineTipset], not once per
    block: for every [numNewBlocks] the call leaves the deals, the array of
    deals in process and the events exactly as [mineTipset(1)] does. With
    [numNewBlocks <= 0] it still pushes a tipset, of the next height and
    without any block. *)
Theorem mineTipset_deals_independent_of_count (n : Z) (b : Blockchain) (T : Tipset) :
  latestTipset b = Some T ->
  exists b1 bn,
    mineTipset 1 b = Returned b1 /\
    mineTipset n b = Returned bn /\
    heap bn = heap b1 /\
    inProcessDeals bn = inProcessDeals b1 /\
    emitted bn = emitted b1 /\
    (n <= 0 ->
     exists T', tipsets bn = tipsets b ++ [T'] /\
                blocks T' = [] /\ height T' = height T + 1).
Proof.
  intros HT.
  destruct (mineTipset_returns 1 b T HT) as (b1 & H1 & _).
  destruct (mineTipset_returns n b T HT) as (bn & Hn & Hs & _).
  exists b1, bn. split; [exact H1|]. split; [exact Hn|].
  assert (Ht : tipsets bn = tipsets b ++ [minedTipset n (miner b) T]) by apply Hs.
  unfold mineTipset in H1, Hn. rewrite HT in H1, Hn.
  rewrite advanceDeals_set_tipsets in H1, Hn. cbn [inProcessDeals set_tipsets] in *.
  destruct (advanceDeals _ 0 b) as [x| |]; try discriminate.
  injection H1 as <-. injection Hn as <-.
  repeat split; try reflexivity.
  intros Hle. eexists. split; [exact Ht|].
  unfold minedTipset. cbn. replace (Z.to_nat n) with 0%nat by lia. done.
Qed.

(** X1. [genesisTipset()] returns, in every reachable state, the tipset
    the constructor pushed: height 0, one block without miner or parents. *)
Theorem genesisTipset_stable (b : Blockchain) :
  reachable b -> genesisTipset b = Some genesisOf.
Proof.
  revert b. apply reachable_preserves; unfold genesisTipset; try by life_cycle.
  intros b b' n Hg Hm. destruct (mineTipset_tipsets n b b' Hm) as (T & _ & ->).
  by apply lookup_app_l_Some.
Qed.

(** X7. The first deal of [inProcessDeals] is advanced by every call of
    [mineTipset]: the iterator always reaches index 0, so the oldest deal in
    process is never passed over. *)
Theorem mineTipset_advances_first
    (n : Z) (b b' : Blockchain) (d : DealRef) (rest : list DealRef) :
  reachable b ->
  inProcessDeals b = d :: rest ->
  mineTipset n b = Returned b' ->
  advancedOnce d b b'.
Proof.
  intros Hb Hp. destruct (bookInv_reachable b Hb) as (_ & _ & _ & Hnd & _).
  unfold mineTipset. destruct (latestTipset b) as [T|]; [|discriminate].
  match goal with |- advanceDeals ?f 0 ?x = _ -> _ => set (b1 := x) end.
  assert (Hi : inProcessDeals b1 !! 0%nat = Some d) by (cbn; by rewrite Hp).
  assert (Hnd1 : NoDup (inProcessDeals b1)) by exact Hnd.
  cbn [length]. rewrite advanceDeals_step, Hi. intros Hrun.
  assert (Hnd2 : NoDup (inProcessDeals (visit d b1))).
  { eapply sublist_NoDup; [exact Hnd1|apply visit_pending_sublist]. }
  destruct (advanceDeals_at_most_once _ 1%nat (visit d b1) b' Hnd2 Hrun)
    as [_ Hall].
  destruct (Hall d) as [Hout _].
  assert (Hu : untouched d (visit d b1) b').
  { apply Hout. intros Hin. apply (visit_rest 0 d b1 d Hnd1 Hi) in Hin.
    by apply (NoDup_lookup_drop _ 0 d Hnd1 Hi). }
  exact (advancedOnce_then_untouched d b1 _ b' (visit_advancedOnce d b1) Hu).
Qed.

(** ** What a step does to the deals *)

Lemma run_cases a b b' :
  run a b = Some b' ->
  (heap b' = heap b /\ inProcessDeals b' = inProcessDeals b /\
   dealsByCid b' = dealsByCid b) \/
  (exists n, mineTipset n b = Returned b') \/
  (exists fuel proposal cid, startDeal fuel proposal b = Returned (b', cid)).
Proof.
  destruct a; simpl; try (by left; life_cycle).
  - destruct (intervalArmed b); [|discriminate]. unfold mineTipsetDetached.
    destruct (mineTipset 1 b) eqn:E; intros [= <-]; [right; left; eauto|by left].
  - destruct (mineTipset numNewBlocks b) eqn:E; intros [= <-];
      [right; left; eauto|by left].
  - destruct (startDeal fuel proposal b) as [[b1 cid]| |] eqn:E; try discriminate.
    intros [= <-]. right; right. eauto.
Qed.

Lemma settled_mineTipset n b b' d :
  bookInv b /\ pendInv b -> stateOf b d = Some Active ->
  mineTipset n b = Returned b' -> heap b' !! d = heap b !! d.
Proof.
  intros [(_ & _ & _ & Hnd & _) [Hp1 _]] Hact. unfold mineTipset.
  destruct (latestTipset b) as [T|]; [|discriminate]. intros Hrun.
  match type of Hrun with advanceDeals ?f 0 ?b1 = _ =>
    destruct (advanceDeals_at_most_once f 0%nat b1 b' Hnd Hrun) as [_ Hall] end.
  destruct (Hall d) as [Hout _]. apply Hout. rewrite drop_0.
  intros Hin. by apply (Hp1 d Hin).
Qed.

Lemma settled_startDeal fuel proposal b b' cid d :
  Validating <> Active ->
  bookInv b /\ pendInv b -> stateOf b d = Some Active ->
  startDeal fuel proposal b = Returned (b', cid) -> heap b' !! d = heap b !! d.
Proof.
  intros Hva [Hbk Hpd] Hact. rewrite startDeal_unfold.
  assert (Hlt : (d < length (heap b))%nat).
  { unfold stateOf in Hact. destruct (heap b !! d) eqn:E; [|done].
    by eapply lookup_lt_Some. }
  assert (Hreg : heap (registerDeal proposal b) !! d = heap b !! d).
  { unfold registerDeal. cbn. by rewrite lookup_app_l. }
  destruct (automining b).
  - destruct (mineUntilActive _ _ _) as [b1| |] eqn:E; simpl; try discriminate.
    intros [= <- _].
    apply (mineUntilActive_preserves
             (fun x => (bookInv x /\ pendInv x) /\ heap x !! d = heap b !! d))
      in E; [by destruct E| |].
    + intros x x' [Hx Hd] Hm. split; [by eapply bothInv_mineTipset|].
      rewrite <- Hd. eapply settled_mineTipset; [exact Hx| |exact Hm].
      unfold stateOf. by rewrite Hd.
    + split; [|done].
      split; [by apply bookInv_registerDeal|by apply pendInv_registerDeal].
  - simpl. by intros [= <- _].
Qed.

(** X11. [Active] is final: once a deal is [Active], no later call,
    timer tick or start-up step changes the deal object again. *)
Theorem active_is_final (l : list Action) (b b' : Blockchain) (d : DealRef) :
  Validating <> Active ->
  reachable b ->
  stateOf b d = Some Active ->
  runAll l b = Some b' ->
  heap b' !! d = heap b !! d.
Proof.
  intros Hva. revert b. induction l as [|a l IH]; intros b Hb Hact; simpl.
  - by intros [= <-].
  - destruct (run a b) as [b1|] eqn:E; simpl; [|discriminate].
    intros Hl.
    assert (H1 : heap b1 !! d = heap b !! d).
    { pose proof (bothInv_reachable b Hva Hb) as Hinv.
      destruct (run_cases a b b1 E)
        as [(-> & _)|[(n & Hm)|(fuel & proposal & cid & Hs)]]; [done| |].
      - by eapply settled_mineTipset.
      - by eapply settled_startDeal. }
    rewrite <- H1. apply IH; [by eapply reachable_run| |exact Hl].
    unfold stateOf. by rewrite H1.
Qed.

(** ** Finding a deal by its CID *)

Lemma cids_mineTipset n b b' :
  (forall i d, heap b !! i = Some d ->
               dealsByCid b !! root (proposalCid d) = Some i) ->
  mineTipset n b = Returned b' ->
  forall i d, heap b' !! i = Some d ->
              dealsByCid b' !! root (proposalCid d) = Some i.
Proof.
  apply (mineTipset_preserves_in
           (fun x => forall i d, heap x !! i = Some d ->
                                 dealsByCid x !! root (proposalCid d) = Some i));
    [done|].
  intros _ deal x Hx _ i d Hi. rewrite dealsByCid_visit.
  apply heap_visit_Some in Hi as (y & Hy & -> & _). by apply Hx.
Qed.

Lemma cids_reachable b :
  (forall i j : nat, randomCid i = randomCid j -> i = j) ->
  reachable b ->
  bookInv b /\
  forall i d, heap b !! i = Some d ->
              dealsByCid b !! root (proposalCid d) = Some i.
Proof.
  intros Hinj. revert b.
  apply (reachable_preserves
           (fun x => bookInv x /\
                     forall i d, heap x !! i = Some d ->
                                 dealsByCid x !! root (proposalCid d) = Some i));
    [| | | | | |
     |intros b0 b' n [Hbk Hc] Hm; split;
        [by eapply bookInv_mineTipset|by eapply cids_mineTipset]
     |];
    unfold bookInv; try by life_cycle.
  - intros options. cbn. repeat split; try done; try apply NoDup_nil_2.
    intros d Hd. by apply elem_of_nil in Hd.
  - intros b0 proposal [Hbk Hc]. split; [by apply bookInv_registerDeal|].
    destruct Hbk as (_ & Hdr & Hh & _).
    intros i d. unfold registerDeal. cbn. intros Hi.
    apply lookup_snoc_Some in Hi as [[Hlt Hi]|[-> <-]].
    + rewrite lookup_insert_ne; [by apply Hc|].
      destruct (Hh i d Hi) as [_ ->]. cbn. rewrite Hdr.
      intros Heq. apply Hinj in Heq. lia.
    + cbn. by rewrite lookup_insert_eq.
Qed.

(** X10. Every entry of [dealsByCid] leads to a deal whose [proposalCid]
    is the key of the entry; and as long as the CIDs drawn are pairwise
    distinct, every deal is found under its own [proposalCid]. *)
Theorem dealsByCid_lookup (b : Blockchain) :
  reachable b ->
  (forall (c : CID) (ref : DealRef), dealsByCid b !! c = Some ref ->
     exists d, heap b !! ref = Some d /\ root (proposalCid d) = c) /\
  ((forall i j : nat, randomCid i = randomCid j -> i = j) ->
   forall (ref : DealRef) (d : Deal), heap b !! ref = Some d ->
     dealsByCid b !! root (proposalCid d) = Some ref).
Proof.
  intros Hb. split.
  - by destruct (bookInv_reachable b Hb) as (_ & _ & _ & _ & _ & Hc).
  - intros Hinj. by destruct (cids_reachable b Hinj Hb).
Qed.

(** ** The interval timer and the end of the start-up *)

Lemma timerInv_run a b b' :
  lifeInv b -> timerInv b -> run a b = Some b' -> timerInv b'.
Proof.
  intros Hli [Ht1 Ht2] Hrun.
  destruct (run_lifeCycle a b b' Hrun)
    as [Hs|[(_ & Hst & ->)|[(_ & Hst & ->)|[(_ & Hst & ->)|[(k & _ & ->)|(_ & [Hs| ->])]]]]].
  - destruct Hs as (Hr & _ & _ & Hm & Hi & _ & _ & Ha & Hbt & _).
    unfold timerInv. rewrite Hr, Hm, Hi, Ha, Hbt. by split.
  - by split.
  - unfold timerInv, startupFinish.
    destruct (negb (automining _) && negb (bool_decide (blockTime _ = 0))) eqn:Hc;
      cbn in *.
    + apply andb_true_iff in Hc as [Ha Hb0].
      apply negb_true_iff in Ha. apply negb_true_iff, bool_decide_eq_false in Hb0.
      split; [done|]. intros _. by eexists.
    + destruct Hli as (Hr & _ & _ & _ & Hf & _).
      assert (Hrd : ready b = false).
      { destruct (ready b); [|done]. pose proof (proj1 Hr eq_refl). congruence. }
      destruct (Hf Hrd) as (_ & _ & Hia). rewrite Hia. split; intros; done.
  - by split.
  - unfold timerInv, waitForReady.
    destruct (ready b) eqn:Hrd; cbn; rewrite ?Hrd; by split.
  - unfold stop, clearMiningTimeout in Hs. unfold timerInv.
    destruct (miningTimeout b) eqn:Em; simpl in Hs;
      destruct (ipfsServer b); simplify_eq; cbn; [split; intros; done|].
    rewrite Em. by split.
  - unfold timerInv, clearMiningTimeout.
    destruct (miningTimeout b) eqn:Em; cbn; [split; intros; done|].
    rewrite Em. by split.
Qed.

Lemma timerInv_reachable b : reachable b -> timerInv b.
Proof.
  induction 1 as [options|a b b' Hb IH Hrun].
  - split; intros; done.
  - eapply timerInv_run; [by apply lifeInv_reachable|exact IH|exact Hrun].
Qed.

(** X8. The interval timer is scheduled only in an object that is ready,
    not automining and has a non-zero [blockTime], and whose [miningTimeout]
    holds the handle that [stop()] clears; so a timer tick never mines before
    ["ready"] nor under automining. *)
Theorem interval_only_when_configured (b : Blockchain) :
  reachable b ->
  intervalArmed b = true ->
  automining b = false /\ blockTime b <> 0 /\ ready b = true /\
  is_Some (miningTimeout b) /\
  intervalArmed (clearMiningTimeout b) = false.
Proof.
  intros Hb Hia. destruct (timerInv_reachable b Hb) as [Ht Hm].
  destruct (Ht Hia) as (Ha & Hbt & Hr). destruct (Hm Hia) as [h Hh].
  split; [exact Ha|]. split; [exact Hbt|]. split; [exact Hr|].
  split; [by eexists|]. unfold clearMiningTimeout. by rewrite Hh.
Qed.

Lemma startup_run_done a b b' :
  startup b = StartupDone /\ intervalArmed b = false ->
  run a b = Some b' ->
  startup b' = StartupDone /\ intervalArmed b' = false.
Proof.
  intros [Hst Hia] Hrun.
  destruct (run_lifeCycle a b b' Hrun)
    as [Hs|[(_ & Hst' & ->)|[(_ & Hst' & ->)|[(_ & Hst' & ->)|[(k & _ & ->)|(_ & [Hs| ->])]]]]];
    try congruence.
  - destruct Hs as (_ & Hs & _ & _ & Hi & _). by rewrite Hs, Hi.
  - unfold waitForReady. by destruct (ready b).
  - unfold stop, clearMiningTimeout in Hs.
    destruct (miningTimeout b); simpl in Hs; destruct (ipfsServer b);
      simplify_eq; done.
  - unfold clearMiningTimeout. by destruct (miningTimeout b).
Qed.

(** X9. After the start-up has completed, [stop()] returns and the interval
    timer stays cancelled for good: no later step schedules it again, so no
    tick mines any more. *)
Theorem stop_cancels_for_good (b : Blockchain) :
  reachable b ->
  startup b = StartupDone ->
  exists b1,
    stop b = Returned b1 /\
    forall (l : list Action) (b2 : Blockchain),
      runAll l b1 = Some b2 ->
      intervalArmed b2 = false /\ run IntervalFires b2 = None.
Proof.
  intros Hb Hst.
  destruct (stop_after_startupBegin b Hb) as (b1 & Hs & Hc); [congruence|].
  exists b1. split; [exact Hs|].
  assert (H1 : startup b1 = StartupDone /\ intervalArmed b1 = false).
  { destruct (timerInv_reachable b Hb) as [_ Ht].
    destruct (intervalArmed b) eqn:Hia.
    - split; [|by apply Hc, Ht].
      unfold stop, clearMiningTimeout in Hs.
      destruct (miningTimeout b); simpl in Hs; destruct (ipfsServer b);
        simplify_eq; done.
    - unfold stop, clearMiningTimeout in Hs.
      destruct (miningTimeout b); simpl in Hs; destruct (ipfsServer b);
        simplify_eq; done. }
  clear Hs Hc. intros l. revert b1 H1.
  induction l as [|a l IH]; intros b1 H1 b2; simpl.
  - intros [= <-]. destruct H1 as [_ ->]. done.
  - destruct (run a b1) as [b3|] eqn:E; simpl; [|discriminate].
    apply IH. by eapply startup_run_done.
Qed.

(** X12. [stop()] called while [start()] of the sidecar is still pending
    returns, but does not end the start-up: when [start()] resolves
    afterwards the callback still arms the interval timer of a non-automining
    object with a non-zero [blockTime], and sets [ready]. *)
Theorem stop_during_startup_leaves_timer (b : Blockchain) :
  reachable b ->
  startup b = StartupAwaiting ->
  automining b = false ->
  blockTime b <> 0 ->
  exists b1 b2,
    stop b = Returned b1 /\
    run StartResolves b1 = Some b2 /\
    intervalArmed b2 = true /\ ready b2 = true /\
    miningTimeout b2 = Some (blockTime b).
Proof.
  intros Hb Hst Ha Hbt.
  destruct (stop_after_startupBegin b Hb) as (b1 & Hs & _); [congruence|].
  assert (H1 : startup b1 = StartupAwaiting /\ automining b1 = false /\
               blockTime b1 = blockTime b).
  { unfold stop, clearMiningTimeout in Hs.
    destruct (miningTimeout b); simpl in Hs; destruct (ipfsServer b);
      simplify_eq; done. }
  destruct H1 as (Hst1 & Ha1 & Hbt1).
  exists b1, (startupFinish b1). split; [exact Hs|]. split.
  - simpl. by rewrite decide_True.
  - unfold startupFinish. cbn. rewrite Ha1, Hbt1. cbn.
    rewrite bool_decide_eq_false_2 by done. cbn. done.
Qed.

Lemma startup_run_failed a b b' :
  startup b = StartupFailed -> run a b = Some b' -> startup b' = StartupFailed.
Proof.
  intros Hst Hrun.
  destruct (run_lifeCycle a b b' Hrun)
    as [Hs|[(_ & Hst' & ->)|[(_ & Hst' & ->)|[(_ & Hst' & ->)|[(k & _ & ->)|(_ & [Hs| ->])]]]]];
    try congruence.
  - destruct Hs as (_ & Hs & _). by rewrite Hs.
  - unfold waitForReady. by destruct (ready b).
  - unfold stop, clearMiningTimeout in Hs.
    destruct (miningTimeout b); simpl in Hs; destruct (ipfsServer b);
      simplify_eq; done.
  - unfold clearMiningTimeout. by destruct (miningTimeout b).
Qed.

(** X13. When [start()] of the sidecar rejects, the object never becomes
    ready: ["ready"] is never emitted, no caller of [waitForReady], earlier
    or later, is ever resolved, and the interval timer is never armed. *)
Theorem failed_start_never_ready (l : list Action) (b b' : Blockchain) :
  reachable b ->
  startup b = StartupFailed ->
  runAll l b = Some b' ->
  startup b' = StartupFailed /\ ready b' = false /\ readyCount b' = 0%nat /\
  resolved b' = [] /\ intervalArmed b' = false /\
  forall k, resolved (waitForReady k b') = [].
Proof.
  intros Hb Hst Hrun.
  assert (Hb' : reachable b') by (by eapply runAll_reachable).
  assert (Hst' : startup b' = StartupFailed).
  { clear Hb Hb'. revert b Hst Hrun. induction l as [|a l IH]; intros b Hst; simpl.
    - by intros [= <-].
    - destruct (run a b) as [b1|] eqn:E; simpl; [|discriminate].
      apply IH. by eapply startup_run_failed. }
  destruct (lifeInv_reachable b' Hb') as (Hr & Hc & _ & _ & Hf & _).
  assert (Hrd : ready b' = false).
  { destruct (ready b'); [|done]. pose proof (proj1 Hr eq_refl). congruence. }
  destruct (Hf Hrd) as (Hres & _ & Hia). rewrite Hrd in Hc.
  repeat split; try done.
  intros k. unfold waitForReady. by rewrite Hrd.
Qed.

End FurtherFacts.

(** ** The further properties at the concrete runs *)

Lemma twoDeals_reachable : reachable Demo.twoDeals.
Proof.
  apply (runAll_reachable Demo.twoDealsRun Demo.manual);
    [apply reachable_new|vm_compute; reflexivity].
Defined.

Lemma twoFresh_reachable : reachable DemoExtra.twoFresh.
Proof.
  apply (runAll_reachable DemoExtra.twoFreshRun Demo.manual);
    [apply reachable_new|vm_compute; reflexivity].
Defined.

Lemma oneActive_reachable : reachable DemoExtra.oneActive.
Proof.
  apply (runAll_reachable DemoExtra.oneActiveRun Demo.automine);
    [apply reachable_new|vm_compute; reflexivity].
Defined.

Lemma started_reachable : reachable Demo.started.
Proof.
  apply (runAll_reachable Demo.startUp (constructor Demo.intervalOptions));
    [apply reachable_new|vm_compute; reflexivity].
Defined.

Lemma awaiting_reachable : reachable DemoExtra.awaiting.
Proof.
  apply (runAll_reachable [TimeoutFires] (constructor Demo.intervalOptions));
    [apply reachable_new|vm_compute; reflexivity].
Defined.

Lemma failed_reachable : reachable DemoExtra.failed.
Proof.
  apply (runAll_reachable DemoExtra.failedRun (constructor Demo.intervalOptions));
    [apply reachable_new|vm_compute; reflexivity].
Defined.

Lemma specDeal_distinct :
  Validating (Things := SpecDeal.things) <> Active (Things := SpecDeal.things).
Proof. discriminate. Defined.

Lemma genesisTipset_stable_witness :
  reachable Demo.twoDeals /\
  genesisTipset Demo.twoDeals = Some (genesisOf (H := SpecDeal.things)) /\
  length (tipsets Demo.twoDeals) = 2%nat.
Proof.
  split; [exact twoDeals_reachable|].
  split; [exact (genesisTipset_stable Demo.twoDeals twoDeals_reachable)|].
  vm_compute. reflexivity.
Defined.

Lemma mineTipset_deals_independent_of_count_witness :
  latestTipset Demo.twoDeals = Some Demo.twoDealsTip /\
  exists b1 b0,
    mineTipset 1 Demo.twoDeals = Returned b1 /\
    mineTipset 0 Demo.twoDeals = Returned b0 /\
    heap b0 = heap b1 /\ emitted b0 = emitted b1 /\
    length (tipsets b0) = 3%nat.
Proof.
  assert (HT : latestTipset Demo.twoDeals = Some Demo.twoDealsTip)
    by (vm_compute; reflexivity).
  split; [exact HT|].
  destruct (mineTipset_deals_independent_of_count 0 Demo.twoDeals
              Demo.twoDealsTip HT)
    as (b1 & b0 & H1 & H0 & Hh & _ & He & Hz).
  exists b1, b0. split; [exact H1|]. split; [exact H0|].
  split; [exact Hh|]. split; [exact He|].
  destruct (Hz ltac:(lia)) as (T' & -> & _). rewrite length_app.
  vm_compute. reflexivity.
Defined.

Lemma dealIds_sequential_witness :
  reachable Demo.twoDeals /\
  deals Demo.twoDeals = [0%nat; 1%nat] /\
  exists d, heap Demo.twoDeals !! 1%nat = Some d /\ dealId d = 2.
Proof.
  split; [exact twoDeals_reachable|]. split; [vm_compute; reflexivity|].
  destruct (dealIds_sequential Demo.twoDeals twoDeals_reachable) as (_ & Hseq & _).
  destruct (Hseq 1%nat 1%nat) as (_ & d & Hd & Hid); [vm_compute; reflexivity|].
  exists d. split; [exact Hd|exact Hid].
Defined.

Lemma inProcess_iff_not_active_witness :
  reachable DemoExtra.oneActive /\
  deals DemoExtra.oneActive = [0%nat] /\
  inProcessDeals DemoExtra.oneActive = [] /\
  stateOf DemoExtra.oneActive 0%nat = Some SpecDeal.Active.
Proof.
  split; [exact oneActive_reachable|]. split; [vm_compute; reflexivity|].
  assert (Hp : inProcessDeals DemoExtra.oneActive = []) by (vm_compute; reflexivity).
  split; [exact Hp|].
  destruct (inProcess_iff_not_active DemoExtra.oneActive specDeal_distinct
              oneActive_reachable) as (_ & _ & Hout).
  destruct (Hout 0%nat) as [Hin|Hact].
  - vm_compute. left.
  - rewrite Hp in Hin. by apply elem_of_nil in Hin.
  - exact Hact.
Defined.

Lemma mineTipset_at_most_once_witness :
  reachable Demo.twoDeals /\
  mineTipset 1 Demo.twoDeals = Returned DemoExtra.twoDealsMined /\
  (untouched 1%nat Demo.twoDeals DemoExtra.twoDealsMined \/
   advancedOnce 1%nat Demo.twoDeals DemoExtra.twoDealsMined).
Proof.
  assert (Hm : mineTipset 1 Demo.twoDeals = Returned DemoExtra.twoDealsMined)
    by (vm_compute; reflexivity).
  split; [exact twoDeals_reachable|]. split; [exact Hm|].
  exact (proj2 (mineTipset_at_most_once 1 Demo.twoDeals DemoExtra.twoDealsMined
                  twoDeals_reachable Hm 1%nat)).
Defined.

Lemma twoFresh_none_next_active :
  forall (d : nat) (x : Deal (H := SpecDeal.things)),
    d ∈ inProcessDeals DemoExtra.twoFresh ->
    heap DemoExtra.twoFresh !! d = Some x ->
    advanceState (automining DemoExtra.twoFresh) (state x) <> Active.
Proof.
  intros d x Hd.
  assert (Hp : inProcessDeals DemoExtra.twoFresh = [0%nat; 1%nat])
    by (vm_compute; reflexivity).
  rewrite Hp in Hd.
  apply elem_of_cons in Hd as [->|Hd];
    [|apply list_elem_of_singleton in Hd as ->];
    vm_compute; intros [= <-]; discriminate.
Defined.

Lemma mineTipset_advances_all_witness :
  reachable DemoExtra.twoFresh /\
  inProcessDeals DemoExtra.twoFresh = [0%nat; 1%nat] /\
  exists b',
    mineTipset 1 DemoExtra.twoFresh = Returned b' /\
    inProcessDeals b' = [0%nat; 1%nat] /\
    advancedOnce 0%nat DemoExtra.twoFresh b' /\
    advancedOnce 1%nat DemoExtra.twoFresh b'.
Proof.
  assert (Hp : inProcessDeals DemoExtra.twoFresh = [0%nat; 1%nat])
    by (vm_compute; reflexivity).
  split; [exact twoFresh_reachable|]. split; [exact Hp|].
  destruct (mineTipset_advances_all 1 DemoExtra.twoFresh twoFresh_reachable
              twoFresh_none_next_active) as (b' & Hm & Hp' & Hall).
  exists b'. split; [exact Hm|]. split; [by rewrite Hp'|].
  split; apply Hall; rewrite Hp.
  - left.
  - right. left.
Defined.

Lemma interval_only_when_configured_witness :
  reachable Demo.started /\
  intervalArmed Demo.started = true /\
  automining Demo.started = false /\
  ready Demo.started = true /\
  is_Some (miningTimeout Demo.started) /\
  intervalArmed (clearMiningTimeout Demo.started) = false.
Proof.
  assert (Hia : intervalArmed Demo.started = true) by (vm_compute; reflexivity).
  split; [exact started_reachable|]. split; [exact Hia|].
  destruct (interval_only_when_configured Demo.started started_reachable Hia)
    as (Ha & _ & Hr & Hm & Hc).
  split; [exact Ha|]. split; [exact Hr|]. split; [exact Hm|exact Hc].
Defined.

Lemma stop_cancels_for_good_witness :
  reachable Demo.started /\
  startup Demo.started = StartupDone /\
  exists b1,
    stop Demo.started = Returned b1 /\
    run IntervalFires b1 = None.
Proof.
  assert (Hst : startup Demo.started = StartupDone) by (vm_compute; reflexivity).
  split; [exact started_reachable|]. split; [exact Hst|].
  destruct (stop_cancels_for_good Demo.started started_reachable Hst)
    as (b1 & Hs & Hall).
  exists b1. split; [exact Hs|]. exact (proj2 (Hall [] b1 eq_refl)).
Defined.

Lemma dealsByCid_lookup_witness :
  reachable Demo.twoDeals /\
  (forall i j : nat, N.of_nat i = N.of_nat j -> i = j) /\
  dealsByCid Demo.twoDeals !! 3%N = Some 1%nat.
Proof.
  assert (Hinj : forall i j : nat, N.of_nat i = N.of_nat j -> i = j)
    by (intros i j; apply Nat2N.inj).
  split; [exact twoDeals_reachable|]. split; [exact Hinj|].
  destruct (dealsByCid_lookup Demo.twoDeals twoDeals_reachable) as [_ Hfind].
  destruct (heap Demo.twoDeals !! 1%nat) as [d|] eqn:Hd.
  - pose proof (Hfind Hinj 1%nat d Hd) as Hl.
    vm_compute in Hd. injection Hd as <-. exact Hl.
  - vm_compute in Hd. discriminate.
Defined.

Lemma active_is_final_witness :
  reachable DemoExtra.oneActive /\
  stateOf DemoExtra.oneActive 0%nat = Some SpecDeal.Active /\
  runAll DemoExtra.laterRun DemoExtra.oneActive = Some DemoExtra.later /\
  length (heap DemoExtra.later) = 2%nat /\
  heap DemoExtra.later !! 0%nat = heap DemoExtra.oneActive !! 0%nat.
Proof.
  assert (Hact : stateOf DemoExtra.oneActive 0%nat = Some SpecDeal.Active)
    by (vm_compute; reflexivity).
  assert (Hrun : runAll DemoExtra.laterRun DemoExtra.oneActive
                 = Some DemoExtra.later) by (vm_compute; reflexivity).
  split; [exact oneActive_reachable|]. split; [exact Hact|].
  split; [exact Hrun|]. split; [vm_compute; reflexivity|].
  exact (active_is_final DemoExtra.laterRun DemoExtra.oneActive DemoExtra.later
           0%nat specDeal_distinct oneActive_reachable Hact Hrun).
Defined.

Lemma stop_during_startup_leaves_timer_witness :
  reachable DemoExtra.awaiting /\
  startup DemoExtra.awaiting = StartupAwaiting /\
  automining DemoExtra.awaiting = false /\
  blockTime DemoExtra.awaiting <> 0 /\
  exists b1 b2,
    stop DemoExtra.awaiting = Returned b1 /\
    run StartResolves b1 = Some b2 /\
    intervalArmed b2 = true.
Proof.
  assert (Hst : startup DemoExtra.awaiting = StartupAwaiting)
    by (vm_compute; reflexivity).
  assert (Ha : automining DemoExtra.awaiting = false) by (vm_compute; reflexivity).
  assert (Hbt : blockTime DemoExtra.awaiting <> 0) by (vm_compute; discriminate).
  split; [exact awaiting_reachable|]. split; [exact Hst|].
  split; [exact Ha|]. split; [exact Hbt|].
  destruct (stop_during_startup_leaves_timer DemoExtra.awaiting
              awaiting_reachable Hst Ha Hbt) as (b1 & b2 & Hs & Hr & Hia & _).
  exists b1, b2. split; [exact Hs|]. split; [exact Hr|exact Hia].
Defined.

Lemma failed_start_never_ready_witness :
  reachable DemoExtra.failed /\
  startup DemoExtra.failed = StartupFailed /\
  runAll DemoExtra.afterFailureRun DemoExtra.failed = Some DemoExtra.afterFailure /\
  ready DemoExtra.afterFailure = false /\
  readyListeners DemoExtra.afterFailure = [3%nat] /\
  resolved DemoExtra.afterFailure = [].
Proof.
  assert (Hst : startup DemoExtra.failed = StartupFailed)
    by (vm_compute; reflexivity).
  assert (Hrun : runAll DemoExtra.afterFailureRun DemoExtra.failed
                 = Some DemoExtra.afterFailure) by (vm_compute; reflexivity).
  split; [exact failed_reachable|]. split; [exact Hst|]. split; [exact Hrun|].
  destruct (failed_start_never_ready DemoExtra.afterFailureRun DemoExtra.failed
              DemoExtra.afterFailure failed_reachable Hst Hrun)
    as (_ & Hrd & _ & Hres & _).
  split; [exact Hrd|]. split; [vm_compute; reflexivity|exact Hres].
Defined.

Lemma mineTipset_advances_first_witness :
  reachable Demo.twoDeals /\
  inProcessDeals Demo.twoDeals = 0%nat :: [1%nat] /\
  mineTipset 1 Demo.twoDeals = Returned DemoExtra.twoDealsMined /\
  advancedOnce 0%nat Demo.twoDeals DemoExtra.twoDealsMined /\
  stateOf DemoExtra.twoDealsMined 0%nat = Some SpecDeal.Active.
Proof.
  assert (Hp : inProcessDeals Demo.twoDeals = 0%nat :: [1%nat])
    by (vm_compute; reflexivity).
  assert (Hm : mineTipset 1 Demo.twoDeals = Returned DemoExtra.twoDealsMined)
    by (vm_compute; reflexivity).
  split; [exact twoDeals_reachable|]. split; [exact Hp|]. split; [exact Hm|].
  split; [|vm_compute; reflexivity].
  exact (mineTipset_advances_first 1 Demo.twoDeals DemoExtra.twoDealsMined
           0%nat [1%nat] twoDeals_reachable Hp Hm).
Defined.
